(** * startup-job-board-scrape: the crawl / extract / merge pipeline of scrape.js

    A shallow embedding of the pure core of [scrape.js] (text normalisation,
    posted-age parsing, card extraction, index upsert, stop policy, CSV cell
    escaping) and of its retry loop, followed by the properties the
    specification states about them; then the command line, the JSON files,
    the snapshot table and the loop of [main], with further properties of
    the code.

    Conventions.
    - A JavaScript string is the list of its UTF-16 code units ([N]).
    - A JavaScript number is [jsnum]: NaN, the two infinities, or a finite
      rational (every finite double is one).  [Number] applied to a run of
      decimal digits rounds to the nearest double, ties to even.
    - The index object is the finite map of its own properties, from ids
      to entries.
    - The cheerio queries on a card are represented by their results
      ([card]); what the code does with those results is embedded as is. *)

From Stdlib Require Import ZArith QArith Lia Lqa String Ascii.
From stdpp Require Import base option list gmap.

Local Open Scope list_scope.

(** A proof in a section depends on the section variables of its statement
    only. *)
Set Default Proof Using "Type".

(** ** JavaScript strings *)

Module JsString.

(** UTF-16 code units; a string is a list of them. *)
Abbreviation jsstring := (list N).

(** An ASCII literal as a JavaScript string. *)
Definition js (s : string) : jsstring :=
  (fun a => N_of_ascii a) <$> list_ascii_of_string s.

Arguments js _%_string.

(** ECMAScript WhiteSpace and LineTerminator code points: the class [\s]
    of a regular expression and the characters [String.prototype.trim]
    strips. *)
Definition is_ws (c : N) : bool :=
  ((9 <=? c) && (c <=? 13) || (c =? 32) || (c =? 160) || (c =? 5760)
   || (8192 <=? c) && (c <=? 8202) || (c =? 8232) || (c =? 8233)
   || (c =? 8239) || (c =? 8287) || (c =? 12288) || (c =? 65279))%N.

(** The class [\d]. *)
Definition is_digit (c : N) : bool := ((48 <=? c) && (c <=? 57))%N.

(** The class [\w], which the assertion [\b] is defined by. *)
Definition is_word (c : N) : bool :=
  (is_digit c || (65 <=? c) && (c <=? 90) || (97 <=? c) && (c <=? 122)
   || (c =? 95))%N.

Definition space : N := 32%N.
Definition comma : N := 44%N.
Definition dquote : N := 34%N.
Definition newline : N := 10%N.

Fixpoint drop_while (p : N -> bool) (s : jsstring) : jsstring :=
  match s with
  | [] => []
  | c :: s' => if p c then drop_while p s' else s
  end.

Fixpoint take_while (p : N -> bool) (s : jsstring) : jsstring :=
  match s with
  | [] => []
  | c :: s' => if p c then c :: take_while p s' else []
  end.

(** [s.trimStart()] and [s.trimEnd()] *)
Definition trimStart (s : jsstring) : jsstring := drop_while is_ws s.
Definition trimEnd (s : jsstring) : jsstring :=
  rev (drop_while is_ws (rev s)).

(** [s.trim()] *)
Definition trim (s : jsstring) : jsstring := trimEnd (trimStart s).

(** [s.replace(/\s+/g, ' ')]: every maximal run of whitespace becomes one
    space.  [in_run] tells that the previous code unit was whitespace. *)
Fixpoint replace_ws_runs (in_run : bool) (s : jsstring) : jsstring :=
  match s with
  | [] => []
  | c :: s' =>
      if is_ws c
      then (if in_run then replace_ws_runs true s'
            else space :: replace_ws_runs true s')
      else c :: replace_ws_runs false s'
  end.

(** [a || b] on strings: the empty string is the only falsy one. *)
Definition or_else (a b : jsstring) : jsstring :=
  match a with [] => b | _ => a end.

(** [!s] on a string. *)
Definition is_empty (s : jsstring) : bool :=
  match s with [] => true | _ => false end.

(** [s ?? ''] where [s] may be [undefined]. *)
Definition nullish (s : option jsstring) : jsstring := default [] s.

(** ASCII case mapping of one code unit. *)
Definition lower_ascii (c : N) : N :=
  if ((65 <=? c) && (c <=? 90))%N then (c + 32)%N else c.

Definition is_ascii (c : N) : bool := (c <? 128)%N.

(** [s.startsWith(p)] *)
Fixpoint startsWith (p s : jsstring) : bool :=
  match p, s with
  | [], _ => true
  | _ :: _, [] => false
  | a :: p', c :: s' => (a =? c)%N && startsWith p' s'
  end.

(** [s.includes(p)] *)
Fixpoint includes (p s : jsstring) : bool :=
  startsWith p s || match s with [] => false | _ :: s' => includes p s' end.

(** A literal of a regular expression with the [i] flag (and no [u] flag)
    matched at the head of [s].  Canonicalisation never maps a code unit of
    128 or more to an ASCII one, so a pattern letter matches exactly its two
    ASCII cases, and any other pattern character only itself. *)
Fixpoint startsWith_ci (p s : jsstring) : bool :=
  match p, s with
  | [], _ => true
  | _ :: _, [] => false
  | a :: p', c :: s' =>
      (lower_ascii a =? lower_ascii c)%N && startsWith_ci p' s'
  end.

(** The same literal followed by the assertion [$]. *)
Definition equals_ci (p s : jsstring) : bool :=
  startsWith_ci p s && (length s =? length p)%nat.

(** [s.replace(/\bNew\b$/i, '')].  The scan is the leftmost-first search of
    [replace]; [prev_word] tells whether the code unit before the position
    is a [\w] one, so [negb prev_word] is the first [\b] (the pattern starts
    with a letter); the second [\b] holds at the end of input because the
    pattern ends with a letter. *)
Fixpoint strip_New (prev_word : bool) (s : jsstring) : jsstring :=
  match s with
  | [] => []
  | c :: s' =>
      if negb prev_word && equals_ci (js "New") s then []
      else c :: strip_New (is_word c) s'
  end.

(** [s.replace(/tags\.new$/i, '')] *)
Fixpoint strip_tags_new (s : jsstring) : jsstring :=
  match s with
  | [] => []
  | c :: s' =>
      if equals_ci (js "tags.new") s then [] else c :: strip_tags_new s'
  end.

(** [s.replace(/what they do:\s*/i, '')]: the first match is removed,
    together with the whitespace that follows it. *)
Fixpoint strip_what_they_do (s : jsstring) : jsstring :=
  match s with
  | [] => []
  | c :: s' =>
      if startsWith_ci (js "what they do:") s
      then drop_while is_ws (drop (length (js "what they do:")) s)
      else c :: strip_what_they_do s'
  end.

(** [/(\d+)\s*unit/] tried at the head of [s]; the result is group 1.
    The two greedy runs are taken in full: a unit word starts with neither
    a digit nor whitespace, so giving back a part of a run never lets the
    rest of the pattern match (see [match_count_here_iff]). *)
Definition match_count_here (unit s : jsstring) : option jsstring :=
  let ds := take_while is_digit s in
  if is_empty ds then None
  else if startsWith unit (drop_while is_ws (drop_while is_digit s))
       then Some ds else None.

(** [s.match(/(\d+)\s*unit/)]: the leftmost position where the pattern
    matches; [None] is JavaScript's [null]. *)
Fixpoint match_count (unit s : jsstring) : option jsstring :=
  match match_count_here unit s with
  | Some ds => Some ds
  | None => match s with [] => None | _ :: s' => match_count unit s' end
  end.

(** The test of [csvEscape]: the regular expression whose character class
    holds the double quote, the comma and the line feed matches in [s]. *)
Definition needs_quoting (s : jsstring) : bool :=
  existsb (fun c => (c =? dquote) || (c =? comma) || (c =? newline))%N s.

(** The global [replace] of [csvEscape]: every double quote is written
    twice. *)
Fixpoint double_quotes (s : jsstring) : jsstring :=
  match s with
  | [] => []
  | c :: s' =>
      if (c =? dquote)%N then dquote :: dquote :: double_quotes s'
      else c :: double_quotes s'
  end.

(** [parts.join(sep)] *)
Fixpoint join (sep : jsstring) (parts : list jsstring) : jsstring :=
  match parts with
  | [] => []
  | [p] => p
  | p :: rest => p ++ sep ++ join sep rest
  end.

End JsString.
Export JsString.

(** ** JavaScript numbers *)

Module JsNumber.

(** The Number values: NaN, the infinities, and the finite ones as the
    rationals they denote. *)
Inductive jsnum : Type :=
| JNaN
| JPosInf
| JNegInf
| JFin (q : Q).

Definition JInt (z : Z) : jsnum := JFin (inject_Z z).

(** [a <= b] *)
Definition js_le (a b : jsnum) : bool :=
  match a, b with
  | JNaN, _ | _, JNaN => false
  | JNegInf, _ => true
  | _, JPosInf => true
  | JPosInf, _ => false
  | _, JNegInf => false
  | JFin x, JFin y => Qle_bool x y
  end.

(** [a > b] *)
Definition js_gt (a b : jsnum) : bool :=
  match a, b with
  | JNaN, _ | _, JNaN => false
  | JPosInf, JPosInf => false
  | JPosInf, _ => true
  | JNegInf, _ => false
  | JFin _, JNegInf => true
  | JFin _, JPosInf => false
  | JFin x, JFin y => negb (Qle_bool x y)
  end.

(** The loop of [Math.max]: NaN as soon as an argument is NaN, otherwise
    the highest argument seen. *)
Fixpoint max_loop (highest : jsnum) (args : list jsnum) : jsnum :=
  match args with
  | [] => highest
  | JNaN :: _ => JNaN
  | n :: rest => max_loop (if js_gt n highest then n else highest) rest
  end.

(** [Math.max(...args)] *)
Definition Math_max (args : list jsnum) : jsnum := max_loop JNegInf args.

(** The mathematical value of a run of decimal digits. *)
Definition digits_value (ds : jsstring) : Z :=
  fold_left (fun acc c => 10 * acc + (Z.of_N c - 48))%Z ds 0%Z.

(** The Number value for a non-negative integer: the nearest double, ties
    to the even significand, Infinity from 2^1024 on. *)
Definition round_to_double (n : Z) : jsnum :=
  if (n <? 2 ^ 53)%Z then JInt n
  else
    let k := (Z.log2 n - 52)%Z in
    let q := (n / 2 ^ k)%Z in
    let r := (n mod 2 ^ k)%Z in
    let half := (2 ^ (k - 1))%Z in
    let m := if ((half <? r) || (r =? half) && Z.odd q)%Z
             then (q + 1)%Z else q in
    let v := (m * 2 ^ k)%Z in
    if (2 ^ 1024 <=? v)%Z then JPosInf else JInt v.

(** [Number(ds)] for a non-empty run of decimal digits [ds]. *)
Definition Number_of_digits (ds : jsstring) : jsnum :=
  round_to_double (digits_value ds).

Fixpoint uint_to_js (u : Decimal.uint) : jsstring :=
  match u with
  | Decimal.Nil => []
  | Decimal.D0 u' => 48%N :: uint_to_js u'
  | Decimal.D1 u' => 49%N :: uint_to_js u'
  | Decimal.D2 u' => 50%N :: uint_to_js u'
  | Decimal.D3 u' => 51%N :: uint_to_js u'
  | Decimal.D4 u' => 52%N :: uint_to_js u'
  | Decimal.D5 u' => 53%N :: uint_to_js u'
  | Decimal.D6 u' => 54%N :: uint_to_js u'
  | Decimal.D7 u' => 55%N :: uint_to_js u'
  | Decimal.D8 u' => 56%N :: uint_to_js u'
  | Decimal.D9 u' => 57%N :: uint_to_js u'
  end.

(** The decimal numeral of an integer, as JavaScript prints it. *)
Definition decimal_of_Z (z : Z) : jsstring :=
  match z with
  | Z0 => js "0"
  | Zpos p => uint_to_js (Pos.to_uint p)
  | Zneg p => js "-" ++ uint_to_js (Pos.to_uint p)
  end.

Section ToString.

(** [Number::toString] outside the integers below 10^21 (fractions and
    exponent notation): the runtime's shortest-digits algorithm, which is
    no part of this repository. *)
Variable other_number_to_string : Q -> jsstring.

(** [`${n}`] for a number [n]. *)
Definition number_to_string (n : jsnum) : jsstring :=
  match n with
  | JNaN => js "NaN"
  | JPosInf => js "Infinity"
  | JNegInf => js "-Infinity"
  | JFin q =>
      let r := Qred q in
      if (Zpos (Qden r) =? 1)%Z && (Z.abs (Qnum r) <? 10 ^ 21)%Z
      then decimal_of_Z (Qnum r)
      else other_number_to_string q
  end.

End ToString.

End JsNumber.
Export JsNumber.

(** ** Data model *)

(** The job object that [extractJobsFromHtml] builds, field for field. *)
Module Job.

Record t : Type := mk {
  id : jsstring;
  company : jsstring;
  company_site : jsstring;
  job_title : jsstring;
  job_url : jsstring;
  apply_url : jsstring;
  location : jsstring;
  experience : jsstring;
  posted : jsstring;
  posted_age_days : option jsnum;   (* [null] is [None] *)
  logo : jsstring;
  company_size : jsstring;
  funding_tags : list jsstring;
  what_they_do : jsstring;
  industries : list jsstring;
  source : jsstring
}.

End Job.

(** The options object: [DEFAULTS] and what [parseArgs] returns, field for
    field. *)
Module Args.

Record t : Type := mk {
  mode : jsstring;
  baseUrl : jsstring;
  startPage : jsnum;
  delayMs : jsnum;
  maxAgeDays : jsnum;
  outDir : jsstring;
  commitEveryPages : jsnum;
  userAgent : jsstring;
  timeoutMs : N;
  retries : nat;
  retryBackoffMs : N
}.

(** [args.mode = v] and the like, for the fields that [parseArgs]
    assigns. *)
Definition set_mode (v : jsstring) (a : t) : t :=
  mk v (baseUrl a) (startPage a) (delayMs a) (maxAgeDays a) (outDir a)
     (commitEveryPages a) (userAgent a) (timeoutMs a) (retries a)
     (retryBackoffMs a).

Definition set_baseUrl (v : jsstring) (a : t) : t :=
  mk (mode a) v (startPage a) (delayMs a) (maxAgeDays a) (outDir a)
     (commitEveryPages a) (userAgent a) (timeoutMs a) (retries a)
     (retryBackoffMs a).

Definition set_startPage (v : jsnum) (a : t) : t :=
  mk (mode a) (baseUrl a) v (delayMs a) (maxAgeDays a) (outDir a)
     (commitEveryPages a) (userAgent a) (timeoutMs a) (retries a)
     (retryBackoffMs a).

Definition set_delayMs (v : jsnum) (a : t) : t :=
  mk (mode a) (baseUrl a) (startPage a) v (maxAgeDays a) (outDir a)
     (commitEveryPages a) (userAgent a) (timeoutMs a) (retries a)
     (retryBackoffMs a).

Definition set_maxAgeDays (v : jsnum) (a : t) : t :=
  mk (mode a) (baseUrl a) (startPage a) (delayMs a) v (outDir a)
     (commitEveryPages a) (userAgent a) (timeoutMs a) (retries a)
     (retryBackoffMs a).

Definition set_outDir (v : jsstring) (a : t) : t :=
  mk (mode a) (baseUrl a) (startPage a) (delayMs a) (maxAgeDays a) v
     (commitEveryPages a) (userAgent a) (timeoutMs a) (retries a)
     (retryBackoffMs a).

Definition set_commitEveryPages (v : jsnum) (a : t) : t :=
  mk (mode a) (baseUrl a) (startPage a) (delayMs a) (maxAgeDays a)
     (outDir a) v (userAgent a) (timeoutMs a) (retries a)
     (retryBackoffMs a).

End Args.

(** An entry of the index: the fields of a job spread into an object that
    also has [created_at] and [updated_at]. *)
Record entry : Type := mkEntry {
  e_job : Job.t;
  created_at : jsstring;
  updated_at : jsstring
}.

(** The index object, used as a map from job id to entry: the finite map
    of its own properties. *)
Abbreviation index := (gmap jsstring entry).

(** What [upsertIndex] returns. *)
Record upsert_result : Type := mkUpsert { isNew : bool; changed : bool }.

(** What [computeStopForMode] returns. *)
Record stop_info : Type := mkStop { stop : bool; reason : jsstring }.

(** *** A listing card, as cheerio shows it to the extractor

    Each field is the result of one query that [extractJobsFromHtml] runs on
    the card; the comments give the query.  A selection is the list of its
    elements in document order. *)

(** An element of [card.find('a#startup-website-link[href]')]. *)
Record anchor : Type := mkAnchor {
  a_href : jsstring;       (* [$(a).attr('href')] *)
  a_text : jsstring;       (* [$(a).text()] *)
  a_job_titles : nat;      (* [$(a).find('#job-title').length] *)
  a_h7s : nat              (* [$(a).find('h7').length] *)
}.

(** An element of [card.find('b#card-header')]. *)
Record header : Type := mkHeader {
  b_text : jsstring;         (* [$(b).text()] *)
  b_parent : nat;            (* the parent node, by identity *)
  b_parent_text : jsstring   (* the text of that parent *)
}.

Record card : Type := mkCard {
  website_links : list anchor;
  job_title_texts : list jsstring;     (* texts of [find('#job-title')] *)
  apply_button_hrefs : list jsstring;  (* hrefs of [find('a#apply-button[href]')] *)
  map_marker_parent_texts : list jsstring;
      (* texts of [find('.fa-map-marker-alt').parent()] *)
  briefcase_parent_texts : list jsstring;
      (* texts of [find('.fa-briefcase').parent()] *)
  clock_parent_texts : list jsstring;  (* texts of [find('.fa-clock').parent()] *)
  img_srcs : list (option jsstring);   (* [src] of each of [find('img')] *)
  company_size_texts : list jsstring;  (* texts of [find('#company-size-tags')] *)
  funding_tag_texts : list jsstring;   (* texts of [find('#funding-tags')] *)
  card_headers : list header;
  industry_tag_texts : list jsstring   (* texts of [find('#industry-tags')] *)
}.

(** cheerio's [.text()] of a selection: the texts of its elements, one after
    the other; the empty string for the empty selection. *)
Definition sel_text (texts : list jsstring) : jsstring := concat texts.

(** cheerio's [.first()]. *)
Definition sel_first {A : Type} (sel : list A) : list A := take 1 sel.

(** cheerio's [.attr(name)]: the attribute of the first element, [undefined]
    for the empty selection or when the element has no such attribute. *)
Definition sel_attr {A : Type} (attr : A -> option jsstring) (sel : list A)
  : option jsstring :=
  match sel with
  | [] => None
  | x :: _ => attr x
  end.

(** cheerio's [.parent()] on a selection of headers: the parents without
    repetition, each where it first occurs. *)
Fixpoint header_parents (seen : list nat) (hs : list header)
  : list (nat * jsstring) :=
  match hs with
  | [] => []
  | h :: hs' =>
      if existsb (Nat.eqb (b_parent h)) seen
      then header_parents seen hs'
      else (b_parent h, b_parent_text h)
             :: header_parents (b_parent h :: seen) hs'
  end.

(** ** The functions of scrape.js *)

Section Scrape.

(** [String.prototype.toLowerCase] on a string that has a code unit outside
    ASCII: the Unicode case tables of the runtime, which are no part of this
    repository. *)
Variable unicode_lower : jsstring -> jsstring.

(** See [number_to_string]. *)
Variable other_number_to_string : Q -> jsstring.

(** The cards of a page: the elements that the card selector of
    [extractJobsFromHtml] finds in [cheerio.load(html)], in document order.
    cheerio is a library, no part of this repository. *)
Variable cheerio_cards : jsstring -> list card.

(** [s.toLowerCase()] *)
Definition toLowerCase (s : jsstring) : jsstring :=
  if forallb is_ascii s then lower_ascii <$> s else unicode_lower s.

(** [stableIdFromJobUrl(jobUrl)]: [jobUrl?.trim() || ''] *)
Definition stableIdFromJobUrl (jobUrl : option jsstring) : jsstring :=
  match jobUrl with
  | None => []
  | Some u => or_else (trim u) []
  end.

(** [normalizeSpace(s)]: [(s ?? '').replace(/\s+/g, ' ').trim()] *)
Definition normalizeSpace (s : option jsstring) : jsstring :=
  trim (replace_ws_runs false (nullish s)).

(** [stripTrailingNew(s)] *)
Definition stripTrailingNew (s : option jsstring) : jsstring :=
  normalizeSpace (Some (strip_tags_new (strip_New false (nullish s)))).

(** [parsePostedAgeDays(postedText)] *)
Definition parsePostedAgeDays (postedText : jsstring) : option jsnum :=
  let t := toLowerCase (normalizeSpace (Some postedText)) in
  if is_empty t then None
  else if includes (js "today") t then Some (JInt 0)
  else
    match match_count (js "day") t with
    | Some dayMatch1 => Some (Number_of_digits dayMatch1)
    | None =>
        match match_count (js "hour") t with
        | Some _ => Some (JInt 0)
        | None =>
            match match_count (js "minute") t with
            | Some _ => Some (JInt 0)
            | None => None
            end
        end
    end.

(** The body of [cards.each] in [extractJobsFromHtml]: the job pushed for
    one card, [None] where the callback returns early. *)
Definition job_of_card (c : card) (sourceUrl : jsstring) : option Job.t :=
  let jobA :=
    sel_first (List.filter (fun a => 0 <? a_job_titles a)%nat
                           (website_links c)) in
  let jobUrl := normalizeSpace (sel_attr (fun a => Some (a_href a)) jobA) in
  if is_empty jobUrl then None
  else
    let companyA :=
      sel_first
        (List.filter
           (fun a => (0 <? a_h7s a)%nat && (a_job_titles a =? 0)%nat)
           (website_links c)) in
    Some {|
      Job.id := stableIdFromJobUrl (Some jobUrl);
      Job.company := stripTrailingNew (Some (sel_text (a_text <$> companyA)));
      Job.company_site :=
        normalizeSpace (sel_attr (fun a => Some (a_href a)) companyA);
      Job.job_title :=
        stripTrailingNew
          (Some (sel_text (sel_first (job_title_texts c))));
      Job.job_url := jobUrl;
      Job.apply_url :=
        or_else (normalizeSpace (sel_attr Some (apply_button_hrefs c)))
                jobUrl;
      Job.location :=
        normalizeSpace (Some (sel_text (map_marker_parent_texts c)));
      Job.experience :=
        normalizeSpace (Some (sel_text (briefcase_parent_texts c)));
      Job.posted := normalizeSpace (Some (sel_text (clock_parent_texts c)));
      Job.posted_age_days :=
        parsePostedAgeDays
          (normalizeSpace (Some (sel_text (clock_parent_texts c))));
      Job.logo := normalizeSpace (sel_attr (fun src => src)
                                           (sel_first (img_srcs c)));
      Job.company_size :=
        normalizeSpace (Some (sel_text (sel_first (company_size_texts c))));
      Job.funding_tags :=
        List.filter (fun s => negb (is_empty s))
          ((fun s => normalizeSpace (Some s)) <$> funding_tag_texts c);
      Job.what_they_do :=
        normalizeSpace
          (Some
             (strip_what_they_do
                (sel_text
                   (snd <$>
                      header_parents []
                        (List.filter
                           (fun b =>
                              startsWith (js "what they do")
                                (toLowerCase
                                   (normalizeSpace (Some (b_text b)))))
                           (card_headers c))))));
      Job.industries :=
        List.filter (fun s => negb (is_empty s))
          ((fun s => normalizeSpace (Some s)) <$> industry_tag_texts c);
      Job.source := sourceUrl
    |}.

(** The closing filter of [extractJobsFromHtml]:
    [jobs.filter((j) => j.id && !seen.has(j.id) && seen.add(j.id))]. *)
Fixpoint filter_seen (seen : gset jsstring) (jobs : list Job.t)
  : list Job.t :=
  match jobs with
  | [] => []
  | j :: rest =>
      if negb (is_empty (Job.id j)) && negb (bool_decide (Job.id j ∈ seen))
      then j :: filter_seen (seen ∪ {[Job.id j]}) rest
      else filter_seen seen rest
  end.

(** [extractJobsFromHtml(html, sourceUrl)] *)
Definition extractJobsFromHtml (html sourceUrl : jsstring) : list Job.t :=
  let cards := cheerio_cards html in
  let jobs := omap (fun c => job_of_card c sourceUrl) cards in
  filter_seen ∅ jobs.

(** [upsertIndex(indexObj, job, ts)]: the index after the call and the
    object returned. *)
Definition upsertIndex (indexObj : index) (job : Job.t) (ts : jsstring)
  : index * upsert_result :=
  match indexObj !! Job.id job with
  | None =>
      (<[Job.id job := mkEntry job ts ts]> indexObj, mkUpsert true true)
  | Some existing =>
      (<[Job.id job := mkEntry job (created_at existing) ts]> indexObj,
       mkUpsert false true)
  end.

(** The loop of [main] over the jobs of one page:
    [for (const job of jobs) upsertIndex(index, job, ts)]. *)
Definition upsertAll (indexObj : index) (jobs : list Job.t) (ts : jsstring)
  : index :=
  foldl (fun idx job => fst (upsertIndex idx job ts)) indexObj jobs.

(** [typeof j.posted_age_days === 'number' && j.posted_age_days <= 1] *)
Definition is_recent (j : Job.t) : bool :=
  match Job.posted_age_days j with
  | Some n => js_le n (JInt 1)
  | None => false
  end.

(** [computeStopForMode(mode, jobs, maxAgeDays)] *)
Definition computeStopForMode (mode : jsstring) (jobs : list Job.t)
    (maxAgeDays : jsnum) : stop_info :=
  if (length jobs =? 0)%nat then mkStop true (js "no_cards")
  else if bool_decide (mode = js "today") then
    let hasRecent := existsb is_recent jobs in
    if negb hasRecent then mkStop true (js "no_recent_<=_1_day_on_page")
    else mkStop false []
  else
    let ages := omap Job.posted_age_days jobs in
    if (length ages =? 0)%nat then mkStop false []
    else
      let oldest := Math_max ages in
      if js_gt oldest maxAgeDays
      then mkStop true
             (js "older_than_"
                ++ number_to_string other_number_to_string maxAgeDays)
      else mkStop false [].

(** [csvEscape(v)] for a string [v] (so that [String(v ?? '')] is [v]). *)
Definition csvEscape (s : jsstring) : jsstring :=
  if needs_quoting s then dquote :: double_quotes s ++ [dquote] else s.

(** The text that [buildCsvRowsFromIndex] assembles from the cells of its
    lines: cells escaped and joined by commas, lines joined by line feeds,
    and one more line feed. *)
Definition csvLines (rows : list (list jsstring)) : jsstring :=
  join [newline] ((fun row => join [comma] (csvEscape <$> row)) <$> rows)
    ++ [newline].

(** ** The retry loop of fetchWithRetry

    The network is what answers the attempts: [net url options k] is the
    outcome of the GET that attempt [k] sends to [url] with the user agent
    of [options], aborted after [timeoutMs].  A run is the list of its
    effects, in order, and the way the call settles. *)

(** The second argument of [fetchWithRetry]. *)
Record fetch_options : Type := mkOptions {
  timeoutMs : N;
  retries : nat;
  retryBackoffMs : N;
  userAgent : jsstring
}.

Inductive fetch_event : Type :=
| EvGet (url : jsstring) (attempt : nat)   (* the [fetch] of this attempt *)
| EvSleep (ms : N).                        (* [sleep(ms)] *)

Section Fetch.

(** The values [fetch] and [res.text()] reject with (a network failure, the
    abort of a timed-out attempt). *)
Variable E : Type.

(** What the [catch] clause can receive. *)
Inductive fetch_error : Type :=
| Rejection (e : E)          (* a rejection of [fetch] or of [res.text()] *)
| HttpError (status : N).    (* [new Error(`HTTP ${res.status}`)] *)

(** What the network does with one GET. *)
Inductive attempt_outcome : Type :=
| FetchRejects (e : E)
| FetchResolves (ok : bool) (status : N) (text : E + jsstring).

Inductive fetch_result : Type :=
| Returns (html : jsstring)
| Throws (lastErr : option fetch_error).   (* [None] is [null] *)

Variable net : jsstring -> fetch_options -> nat -> attempt_outcome.

(** The [try] block of one attempt: the text returned, or what is thrown
    to the [catch] clause. *)
Definition try_attempt (o : attempt_outcome) : fetch_error + jsstring :=
  match o with
  | FetchRejects e => inl (Rejection e)
  | FetchResolves ok status text =>
      if negb ok then inl (HttpError status)
      else match text with
           | inl e => inl (Rejection e)
           | inr html => inr html
           end
  end.

(** The [for] loop from [attempt] on; [remaining] counts the iterations
    left, [retries + 1 - attempt]. *)
Fixpoint retry_loop (url : jsstring) (options : fetch_options)
    (remaining attempt : nat) (lastErr : option fetch_error)
  : list fetch_event * fetch_result :=
  match remaining with
  | O => ([], Throws lastErr)
  | S remaining' =>
      match try_attempt (net url options attempt) with
      | inr html => ([EvGet url attempt], Returns html)
      | inl e =>
          let '(events, result) :=
            retry_loop url options remaining' (S attempt) (Some e) in
          (EvGet url attempt
             :: (if (attempt <? retries options)%nat
                 then [EvSleep (retryBackoffMs options * N.of_nat attempt)]
                 else [])
             ++ events,
           result)
      end
  end.

(** [fetchWithRetry(url, { timeoutMs, retries, retryBackoffMs, userAgent })] *)
Definition fetchWithRetry (url : jsstring) (options : fetch_options)
  : list fetch_event * fetch_result :=
  retry_loop url options (retries options) 1 None.

End Fetch.

Arguments Rejection {E} e.
Arguments HttpError {E} status.
Arguments FetchRejects {E} e.
Arguments FetchResolves {E} ok status text.
Arguments Returns {E} html.
Arguments Throws {E} lastErr.

(** ** The command line: parseArgs *)

Section CommandLine.

(** [Number(v)] on a string whose trimmed text is neither empty nor a run
    of decimal digits (signs, fractions, exponents, other radixes,
    Infinity, and NaN for everything else): the numeric-string grammar of
    the runtime, which is no part of this repository. *)
Variable other_string_to_number : jsstring -> jsnum.

(** [Number(v)] for a string [v]. *)
Definition Number_of_string (v : jsstring) : jsnum :=
  let t := trim v in
  if is_empty t then JInt 0
  else if forallb is_digit t then Number_of_digits t
  else other_string_to_number t.

(** The constant [DEFAULTS]. *)
Definition DEFAULTS : Args.t :=
  {| Args.mode := js "today";
     Args.baseUrl := js "https://topstartups.io/jobs/";
     Args.startPage := JInt 1;
     Args.delayMs := JInt 500;
     Args.maxAgeDays := JInt 180;
     Args.outDir := js "out";
     Args.commitEveryPages := JInt 1;
     Args.userAgent :=
       js "Mozilla/5.0 (X11; Linux x86_64) AppleWebKit/537.36 (KHTML, like Gecko) Chrome/124 Safari/537.36";
     Args.timeoutMs := 30000;
     Args.retries := 3;
     Args.retryBackoffMs := 800 |}.

Definition equals_sign : N := 61%N.

(** [s.split('=', 2)], as the destructuring [[k, vRaw]] reads it: the text
    before the first equals sign, and the text between the first and the
    second, [None] (undefined) when [s] has no equals sign. *)
Definition split_eq2 (s : jsstring) : jsstring * option jsstring :=
  let not_eq := fun c => negb (c =? equals_sign)%N in
  let k := take_while not_eq s in
  match drop_while not_eq s with
  | [] => (k, None)
  | _ :: rest => (k, Some (take_while not_eq rest))
  end.

(** The [switch] of [parseArgs] on the key [k], with the value [v]. *)
Definition parseArgs_switch (args : Args.t) (k v : jsstring) : Args.t :=
  if bool_decide (k = js "mode") then Args.set_mode v args
  else if bool_decide (k = js "baseUrl") then Args.set_baseUrl v args
  else if bool_decide (k = js "startPage")
  then Args.set_startPage (Number_of_string v) args
  else if bool_decide (k = js "delayMs")
  then Args.set_delayMs (Number_of_string v) args
  else if bool_decide (k = js "maxAgeDays")
  then Args.set_maxAgeDays (Number_of_string v) args
  else if bool_decide (k = js "outDir") then Args.set_outDir v args
  else if bool_decide (k = js "commitEveryPages")
  then Args.set_commitEveryPages
         (Math_max [JInt 1; Number_of_string v]) args
  else args.

(** One iteration of the loop of [parseArgs], on the argument [a]. *)
Definition parseArgs_step (args : Args.t) (a : jsstring) : Args.t :=
  if negb (startsWith (js "--") a) then args
  else
    let '(k, vRaw) := split_eq2 (drop 2 a) in
    let v := default (js "true") vRaw in
    parseArgs_switch args k v.

(** The message of the error that [parseArgs] throws. *)
Definition invalid_mode_message (mode : jsstring) : jsstring :=
  js "Invalid --mode=" ++ mode ++ js ". Expected " ++ [dquote]
    ++ js "today" ++ [dquote] ++ js " or " ++ [dquote] ++ js "all"
    ++ [dquote] ++ js ".".

(** What a call of [parseArgs] does: it returns the options or throws an
    [Error] with a message. *)
Inductive parse_result : Type :=
| Parsed (args : Args.t)
| ThrowsError (message : jsstring).

(** [parseArgs(argv)] *)
Definition parseArgs (argv : list jsstring) : parse_result :=
  let args := foldl parseArgs_step DEFAULTS (drop 2 argv) in
  if negb (bool_decide (Args.mode args = js "today"))
     && negb (bool_decide (Args.mode args = js "all"))
  then ThrowsError (invalid_mode_message (Args.mode args))
  else Parsed args.

End CommandLine.

(** ** The snapshot table: buildCsvRowsFromIndex *)

Section Snapshot.

(** [Object.values(indexObj)]: the entries in the property order of the
    runtime. *)
Variable Object_values : index -> list entry.

(** [JSON.stringify(tags)] for an array of strings. *)
Variable JSON_stringify_strings : list jsstring -> jsstring.

(** The array [header]. *)
Definition csv_header : list jsstring :=
  [js "id"; js "company"; js "job_title"; js "job_url"; js "apply_url";
   js "company_site"; js "location"; js "experience"; js "posted";
   js "posted_age_days"; js "company_size"; js "funding_tags";
   js "industries"; js "what_they_do"; js "logo"; js "created_at";
   js "updated_at"; js "source"].

(** What [csvEscape] is called with for the entry [r], column by column:
    the JSON text of the two tag arrays, [String(r[k] ?? '')] for the other
    columns. *)
Definition csv_cells (r : entry) : list jsstring :=
  [Job.id (e_job r); Job.company (e_job r); Job.job_title (e_job r);
   Job.job_url (e_job r); Job.apply_url (e_job r);
   Job.company_site (e_job r); Job.location (e_job r);
   Job.experience (e_job r); Job.posted (e_job r);
   match Job.posted_age_days (e_job r) with
   | Some n => number_to_string other_number_to_string n
   | None => []
   end;
   Job.company_size (e_job r);
   JSON_stringify_strings (Job.funding_tags (e_job r));
   JSON_stringify_strings (Job.industries (e_job r));
   Job.what_they_do (e_job r); Job.logo (e_job r);
   created_at r; updated_at r; Job.source (e_job r)].

(** [buildCsvRowsFromIndex(indexObj)] *)
Definition buildCsvRowsFromIndex (indexObj : index) : jsstring :=
  let rows := Object_values indexObj in
  let lines :=
    join [comma] csv_header
      :: ((fun r => join [comma] (csvEscape <$> csv_cells r)) <$> rows) in
  join [newline] lines ++ [newline].

End Snapshot.

(** ** Files: readJsonIfExists and writeJsonAtomic

    The file system is the regular files by path, each with its text; the
    calls are modelled where they succeed. *)

Abbreviation files := (gmap jsstring jsstring).

(** [fs.writeFileSync(p, text, 'utf8')] *)
Definition writeFileSync (fs : files) (p text : jsstring) : files :=
  <[p := text]> fs.

(** [fs.renameSync(oldPath, newPath)], on an existing [oldPath]. *)
Definition renameSync (fs : files) (oldPath newPath : jsstring) : files :=
  match fs !! oldPath with
  | Some text => <[newPath := text]> (delete oldPath fs)
  | None => fs
  end.

Section Files.

(** The values that are stored as JSON, with [JSON.parse] ([None] where it
    throws) and [JSON.stringify(obj, null, 2)] of the runtime. *)
Variable V : Type.
Variable JSON_parse : jsstring -> option V.
Variable JSON_stringify : V -> jsstring.

(** [readJsonIfExists(p, fallback)] *)
Definition readJsonIfExists (fs : files) (p : jsstring) (fallback : V) : V :=
  match fs !! p with
  | None => fallback
  | Some raw =>
      if is_empty (trim raw) then fallback
      else match JSON_parse raw with
           | Some value => value
           | None => fallback
           end
  end.

(** The name of the temporary file of [writeJsonAtomic]; [hex] is
    [crypto.randomBytes(6).toString('hex')]. *)
Definition tmp_path (filePath hex : jsstring) : jsstring :=
  filePath ++ js "." ++ hex ++ js ".tmp".

(** [writeJsonAtomic(filePath, obj)] *)
Definition writeJsonAtomic (fs : files) (filePath : jsstring) (obj : V)
    (hex : jsstring) : files :=
  let tmp := tmp_path filePath hex in
  let fs1 := writeFileSync fs tmp (JSON_stringify obj) in
  renameSync fs1 tmp filePath.

End Files.

(** ** The crawl: the loop of main

    A run of the loop is the list of its effects, in order, and the way the
    loop ends.  The network and the clock are what answers the calls of the
    [i]-th iteration. *)

Section Main.

Variable E : Type.

(** The network during iteration [i]. *)
Variable net : nat -> jsstring -> fetch_options -> nat -> attempt_outcome E.

(** [nowIso()] in iteration [i]. *)
Variable nowIso : nat -> jsstring.

(** [page++] on a finite number that is not an integer below 2^53 in
    absolute value: the floating-point addition of the runtime. *)
Variable other_increment : Q -> jsnum.

Inductive main_effect : Type :=
| ConsoleLog (line : jsstring)
| Net (ev : fetch_event)                   (* inside [fetchWithRetry] *)
| EventsWrite (observed_at : jsstring) (job : Job.t)
    (* [eventsStream.write(JSON.stringify({ observed_at: ts, ...job }) + '\n')] *)
| WriteIndex (indexObj : index)            (* [writeJsonAtomic(indexPath, index)] *)
| Sleep (ms : jsnum).                      (* [sleep(args.delayMs)] *)

(** [page++]: the value of [page] afterwards. *)
Definition increment (page : jsnum) : jsnum :=
  match page with
  | JFin q =>
      let r := Qred q in
      if (Zpos (Qden r) =? 1)%Z && (Z.abs (Qnum r) <? 2 ^ 53)%Z
      then JInt (Qnum r + 1)
      else other_increment q
  | _ => page
  end.

(** [`${args.baseUrl}?page=${page}&`] *)
Definition url_of_page (baseUrl : jsstring) (page : jsnum) : jsstring :=
  baseUrl ++ js "?page="
    ++ number_to_string other_number_to_string page ++ js "&".

(** What [fetchWithRetry] takes from [args]. *)
Definition options_of_args (args : Args.t) : fetch_options :=
  {| timeoutMs := Args.timeoutMs args;
     retries := Args.retries args;
     retryBackoffMs := Args.retryBackoffMs args;
     userAgent := Args.userAgent args |}.

(** How one pass through the body of the loop comes to its stop
    decision. *)
Inductive iteration_outcome : Type :=
| FetchThrows (lastErr : option (fetch_error E))
| PageDone (indexObj : index) (stopInfo : stop_info).

(** The body of the loop up to the stop decision, in iteration [i], on
    [page] and with the index [indexObj]. *)
Definition main_iteration (args : Args.t) (i : nat) (page : jsnum)
    (indexObj : index) : list main_effect * iteration_outcome :=
  let url := url_of_page (Args.baseUrl args) page in
  let '(net_events, fetched) :=
    fetchWithRetry E (net i) url (options_of_args args) in
  match fetched with
  | Throws lastErr =>
      (ConsoleLog (js "Fetching: " ++ url) :: (Net <$> net_events),
       FetchThrows lastErr)
  | Returns html =>
      let jobs := extractJobsFromHtml html (Args.baseUrl args) in
      let ts := nowIso i in
      let indexObj' := upsertAll indexObj jobs ts in
      (ConsoleLog (js "Fetching: " ++ url) :: (Net <$> net_events)
         ++ ConsoleLog (js "  page items: "
                          ++ decimal_of_Z (Z.of_nat (length jobs)))
         :: (EventsWrite ts <$> jobs)
         ++ [WriteIndex indexObj'],
       PageDone indexObj'
         (computeStopForMode (Args.mode args) jobs (Args.maxAgeDays args)))
  end.

(** How the loop ends. *)
Inductive loop_result : Type :=
| Break (indexObj : index) (page : jsnum)    (* the [break] *)
| Rejects (lastErr : option (fetch_error E)) (* [fetchWithRetry] threw *)
| Running (indexObj : index) (page : jsnum). (* still in the loop *)

(** The [while (true)] loop of [main], for at most [fuel] iterations. *)
Fixpoint main_loop (fuel : nat) (args : Args.t) (i : nat) (page : jsnum)
    (indexObj : index) : list main_effect * loop_result :=
  match fuel with
  | O => ([], Running indexObj page)
  | S fuel' =>
      match main_iteration args i page indexObj with
      | (effects, FetchThrows lastErr) => (effects, Rejects lastErr)
      | (effects, PageDone indexObj' stopInfo) =>
          if stop stopInfo
          then (effects
                  ++ [ConsoleLog
                        (js "Stop: " ++ reason stopInfo ++ js " (page="
                           ++ number_to_string other_number_to_string page
                           ++ js ")")],
                Break indexObj' page)
          else
            let '(rest, result) :=
              main_loop fuel' args (S i) (increment page) indexObj' in
            (effects ++ Sleep (Args.delayMs args) :: rest, result)
      end
  end.

(** *** What the properties of a run are stated with *)

(** The page of the [k]-th iteration of a loop that starts at [page]. *)
Definition page_at (page : jsnum) (k : nat) : jsnum :=
  Nat.iter k increment page.

(** How the fetch of [page] in iteration [i] settles. *)
Definition page_result (args : Args.t) (i : nat) (page : jsnum)
  : fetch_result E :=
  snd (fetchWithRetry E (net i) (url_of_page (Args.baseUrl args) page)
         (options_of_args args)).

(** The records of [page] in iteration [i], when its fetch returns. *)
Definition page_jobs (args : Args.t) (i : nat) (page : jsnum)
  : option (list Job.t) :=
  match page_result args i page with
  | Returns html => Some (extractJobsFromHtml html (Args.baseUrl args))
  | Throws _ => None
  end.

(** The fetch of [page] returns and the policy says to go on. *)
Definition continues (args : Args.t) (i : nat) (page : jsnum) : bool :=
  match page_jobs args i page with
  | Some jobs =>
      negb (stop (computeStopForMode (Args.mode args) jobs
                    (Args.maxAgeDays args)))
  | None => false
  end.

(** The records of [page], each with the time of iteration [i]. *)
Definition page_observations (args : Args.t) (i : nat) (page : jsnum)
  : list (Job.t * jsstring) :=
  match page_jobs args i page with
  | Some jobs => (fun j => (j, nowIso i)) <$> jobs
  | None => []
  end.

(** The records of the first [n] pages of a loop that starts in iteration
    [i] at [page], in the order of the pages. *)
Definition observations (args : Args.t) (i : nat) (page : jsnum) (n : nat)
  : list (Job.t * jsstring) :=
  flat_map (fun k => page_observations args (i + k) (page_at page k))
           (seq 0 n).

(** The pauses between pages, the lines written to the event log, the
    indexes written, and the first attempts at a page, of a run. *)
Definition sleeps (effects : list main_effect) : list jsnum :=
  omap (fun ef => match ef with Sleep ms => Some ms | _ => None end) effects.

Definition events_written (effects : list main_effect)
  : list (Job.t * jsstring) :=
  omap (fun ef => match ef with
                  | EventsWrite ts job => Some (job, ts)
                  | _ => None
                  end) effects.

Definition index_writes (effects : list main_effect) : list index :=
  omap (fun ef => match ef with WriteIndex idx => Some idx | _ => None end)
       effects.

Definition first_attempts (effects : list main_effect) : list jsstring :=
  omap (fun ef => match ef with
                  | Net (EvGet url 1) => Some url
                  | _ => None
                  end) effects.

End Main.

Arguments FetchThrows {E} lastErr.
Arguments PageDone {E} indexObj stopInfo.
Arguments Break {E} indexObj page.
Arguments Rejects {E} lastErr.
Arguments Running {E} indexObj page.

(** ** Reference notions the properties are stated with *)

(** The words of a text: its maximal runs of non-whitespace code units.
    [cur] is the word being read, last code unit first. *)
Fixpoint words_from (cur : jsstring) (s : jsstring) : list jsstring :=
  match s with
  | [] => match cur with [] => [] | _ => [rev cur] end
  | c :: s' =>
      if is_ws c
      then match cur with
           | [] => words_from [] s'
           | _ => rev cur :: words_from [] s'
           end
      else words_from (c :: cur) s'
  end.

Definition words (s : jsstring) : list jsstring := words_from [] s.

(** Words written one after the other with single spaces between them. *)
Definition unwords (ws : list jsstring) : jsstring := join [space] ws.

(** Every whitespace code unit of [s] is a space, and no two are adjacent. *)
Fixpoint single_spaced (s : jsstring) : bool :=
  match s with
  | [] => true
  | c :: s' =>
      (negb (is_ws c)
       || (c =? space)%N
          && match s' with [] => true | c' :: _ => negb (is_ws c') end)
      && single_spaced s'
  end.

(** The [href] of the job-detail link of a card: the first website link
    that holds a job title. *)
Definition job_link_href (c : card) : option jsstring :=
  a_href <$> head (List.filter (fun a => 0 <? a_job_titles a)%nat
                               (website_links c)).

(** The company link of a card: the first website link that holds an [h7]
    and no job title. *)
Definition company_link (c : card) : option anchor :=
  head (List.filter
          (fun a => (0 <? a_h7s a)%nat && (a_job_titles a =? 0)%nat)
          (website_links c)).

(** The texts that [what_they_do] is made of: the parents of the headers
    whose normalised, lower-cased text starts with the label. *)
Definition what_they_do_text (c : card) : jsstring :=
  sel_text
    (snd <$>
       header_parents []
         (List.filter
            (fun b =>
               startsWith (js "what they do")
                 (toLowerCase (normalizeSpace (Some (b_text b)))))
            (card_headers c))).

(** Whether a [\w] code unit stands before the position that follows [r],
    [b] telling what stands before [r] itself. *)
Definition word_before (b : bool) (r : jsstring) : bool :=
  match last r with
  | Some c => is_word c
  | None => b
  end.

(** [s] ends with the word New in any letter case: the three letters, at
    the end, with no [\w] code unit before them. *)
Definition ends_with_New (s : jsstring) : Prop :=
  exists r w, s = r ++ w /\ equals_ci (js "New") w = true
              /\ word_before false r = false.

(** The effects of [n] failed attempts in a row, the first of them attempt
    [from], each followed by its pause. *)
Definition failed_attempts (url : jsstring) (backoff : N) (from n : nat)
  : list fetch_event :=
  flat_map (fun k => [EvGet url k; EvSleep (backoff * N.of_nat k)])
           (seq from n).

(** The GETs of a run. *)
Definition gets (events : list fetch_event) : list nat :=
  omap (fun ev => match ev with EvGet _ k => Some k | EvSleep _ => None end)
       events.

(** Any sequence of upserts, each with its own timestamp. *)
Definition upsertMany (indexObj : index)
    (observations : list (Job.t * jsstring)) : index :=
  foldl (fun idx o => fst (upsertIndex idx (fst o) (snd o)))
        indexObj observations.

(** [p] occurs in [t]. *)
Definition contains (p t : jsstring) : Prop :=
  exists pre post, t = pre ++ p ++ post.

(** At the position after [pre], [t] reads: the digits [ds] (one at least),
    any whitespace, then [unit]. *)
Definition count_at (unit t pre ds : jsstring) : Prop :=
  exists sp post,
    t = pre ++ ds ++ sp ++ unit ++ post
    /\ ds <> []
    /\ forallb is_digit ds = true
    /\ forallb is_ws sp = true.

(** A unit word of the age patterns starts with neither a digit nor
    whitespace. *)
Definition unit_word (unit : jsstring) : bool :=
  match unit with
  | [] => false
  | u0 :: _ => negb (is_digit u0) && negb (is_ws u0)
  end.

(** [ds] is the number of the first place where [t] reads a number followed
    by [unit], and that number is read in full. *)
Definition first_count (unit t ds : jsstring) : Prop :=
  exists pre,
    count_at unit t pre ds
    /\ (forall pre' ds', count_at unit t pre' ds' ->
                         (length pre <= length pre')%nat).

(** A reader of delimited text in the dialect [csvLines] writes (RFC 4180
    with the line feed as record terminator): cells separated by commas, a
    cell in double quotes may hold commas, line feeds and doubled double
    quotes.  [None] on malformed text. *)
Inductive csv_state : Type :=
| CellStart | InPlain | InQuoted | AfterQuote.

Fixpoint csv_read (st : csv_state) (cell : jsstring) (row : list jsstring)
    (s : jsstring) : option (list (list jsstring)) :=
  match s with
  | [] =>
      match st with
      | CellStart =>
          match row with
          | [] => Some []
          | _ => Some [rev (rev cell :: row)]
          end
      | InPlain | AfterQuote => Some [rev (rev cell :: row)]
      | InQuoted => None
      end
  | c :: s' =>
      match st with
      | CellStart | InPlain =>
          if (c =? comma)%N then csv_read CellStart [] (rev cell :: row) s'
          else if (c =? newline)%N
          then cons (rev (rev cell :: row)) <$> csv_read CellStart [] [] s'
          else if (c =? dquote)%N
          then match st with
               | CellStart => csv_read InQuoted [] row s'
               | _ => None
               end
          else csv_read InPlain (c :: cell) row s'
      | InQuoted =>
          if (c =? dquote)%N then csv_read AfterQuote cell row s'
          else csv_read InQuoted (c :: cell) row s'
      | AfterQuote =>
          if (c =? dquote)%N then csv_read InQuoted (c :: cell) row s'
          else if (c =? comma)%N
          then csv_read CellStart [] (rev cell :: row) s'
          else if (c =? newline)%N
          then cons (rev (rev cell :: row)) <$> csv_read CellStart [] [] s'
          else None
      end
  end.

Definition csv_parse (s : jsstring) : option (list (list jsstring)) :=
  csv_read CellStart [] [] s.

(** The key of a command-line argument that [parseArgs] reads as a flag:
    what stands between the two dashes and the first equals sign. *)
Definition flag_key (a : jsstring) : option jsstring :=
  if startsWith (js "--") a then Some (fst (split_eq2 (drop 2 a))) else None.

(** The keys that the [switch] of [parseArgs] has a case for. *)
Definition known_keys : list jsstring :=
  [js "mode"; js "baseUrl"; js "startPage"; js "delayMs"; js "maxAgeDays";
   js "outDir"; js "commitEveryPages"].

(** An argument that is a flag with one of these keys. *)
Definition is_known_flag (a : jsstring) : bool :=
  match flag_key a with
  | Some k => bool_decide (k ∈ known_keys)
  | None => false
  end.

(** The options that [fetchWithRetry] reads. *)
Definition fetch_tuning (args : Args.t) : jsstring * N * nat * N :=
  (Args.userAgent args, Args.timeoutMs args, Args.retries args,
   Args.retryBackoffMs args).

(** The colon that ends the label of [what_they_do]. *)
Definition colon : N := 58%N.

(** ** Sample inputs *)

(** A card that has nothing but its job-detail link. *)
Definition card_with_link (href : jsstring) : card :=
  {| website_links := [mkAnchor href (js "Engineer") 1 0];
     job_title_texts := [js "Engineer"];
     apply_button_hrefs := [];
     map_marker_parent_texts := [];
     briefcase_parent_texts := [];
     clock_parent_texts := [];
     img_srcs := [];
     company_size_texts := [];
     funding_tag_texts := [];
     card_headers := [];
     industry_tag_texts := [] |}.

(** A card with a company link, a title and a posting date. *)
Definition card_acme : card :=
  {| website_links :=
       [mkAnchor (js "https://acme.example") (js "Acme New") 0 1;
        mkAnchor (js "/jobs/42") (js "Engineer") 1 0];
     job_title_texts := [js "Engineer"];
     apply_button_hrefs := [js " /apply/42 "];
     map_marker_parent_texts := [js " Berlin,  Germany "];
     briefcase_parent_texts := [js "3+ years"];
     clock_parent_texts := [js "Posted 3 days ago"];
     img_srcs := [Some (js "/logo.png")];
     company_size_texts := [js "11-50"];
     funding_tag_texts := [js "Seed"; js "  "];
     card_headers :=
       [mkHeader (js "What they do:") 7 (js "What they do: Anvils")];
     industry_tag_texts := [js "Hardware"] |}.

(** A job of the given posted age, as a page of the listing would yield. *)
Definition job_aged (n : nat) (age : option jsnum) : Job.t :=
  {| Job.id := js "/jobs/" ++ decimal_of_Z (Z.of_nat n);
     Job.company := js "Acme";
     Job.company_site := js "https://acme.example";
     Job.job_title := js "Engineer";
     Job.job_url := js "/jobs/" ++ decimal_of_Z (Z.of_nat n);
     Job.apply_url := js "/jobs/" ++ decimal_of_Z (Z.of_nat n);
     Job.location := js "Berlin";
     Job.experience := [];
     Job.posted := [];
     Job.posted_age_days := age;
     Job.logo := [];
     Job.company_size := [];
     Job.funding_tags := [];
     Job.what_they_do := [];
     Job.industries := [];
     Job.source := js "https://topstartups.io/jobs/" |}.

(** A company name with a comma and double quotes in it. *)
Definition quoted_company : jsstring :=
  js "Acme, " ++ [dquote] ++ js "Rockets" ++ [dquote] ++ js " Inc".

(** A runtime for the sample runs: the sample texts are ASCII and the
    sample numbers small integers, so neither function is ever called. *)
Definition no_case_tables : jsstring -> jsstring := fun s => s.
Definition no_other_numbers : Q -> jsstring := fun _ => [].

(** A page that shows the card of Acme twice. *)
Definition page_acme_twice (html : jsstring) : list card :=
  [card_acme; card_acme].

(** Two timestamps, as [nowIso()] gives them. *)
Definition ts1 : jsstring := js "2025-12-29T23:21:21.737Z".
Definition ts2 : jsstring := js "2025-12-31T20:22:52.060Z".

(** The fetch options of [DEFAULTS]. *)
Definition default_options : fetch_options :=
  {| timeoutMs := 30000;
     retries := 3;
     retryBackoffMs := 800;
     userAgent :=
       js "Mozilla/5.0 (X11; Linux x86_64) AppleWebKit/537.36 (KHTML, like Gecko) Chrome/124 Safari/537.36" |}.

Definition page_url : jsstring := js "https://topstartups.io/jobs/?page=1&".

(** A network that answers 503 twice and then serves the page. *)
Definition net_flaky (url : jsstring) (options : fetch_options) (k : nat)
  : attempt_outcome unit :=
  if (k <? 3)%nat then FetchResolves false 503 (inr [])
  else FetchResolves true 200 (inr (js "<html></html>")).

(** A network that times out every attempt but answers 500 to the third. *)
Definition net_down (url : jsstring) (options : fetch_options) (k : nat)
  : attempt_outcome unit :=
  if (k =? 3)%nat then FetchResolves false 500 (inr [])
  else FetchRejects tt.

(** The record of the card of Acme. *)
Definition job_acme : Job.t :=
  {| Job.id := js "/jobs/42";
     Job.company := js "Acme";
     Job.company_site := js "https://acme.example";
     Job.job_title := js "Engineer";
     Job.job_url := js "/jobs/42";
     Job.apply_url := js "/apply/42";
     Job.location := js "Berlin, Germany";
     Job.experience := js "3+ years";
     Job.posted := js "Posted 3 days ago";
     Job.posted_age_days := Some (JInt 3);
     Job.logo := js "/logo.png";
     Job.company_size := js "11-50";
     Job.funding_tags := [js "Seed"];
     Job.what_they_do := js "Anvils";
     Job.industries := [js "Hardware"];
     Job.source := js "https://topstartups.io/jobs/" |}.

(** A runtime for the sample command lines, whose numbers are runs of
    digits, so that the function is never called. *)
Definition no_other_strings : jsstring -> jsnum := fun _ => JNaN.

(** A command line. *)
Definition argv_all_365 : list jsstring :=
  [js "node"; js "scrape.js"; js "--maxAgeDays=365"].

(** A listing of two pages: the first shows the card of Acme, the second
    nothing. *)
Definition two_pages_cards (html : jsstring) : list card :=
  if bool_decide (html = js "<html>1</html>") then [card_acme] else [].

Definition two_pages_net (i : nat) (url : jsstring)
    (options : fetch_options) (k : nat) : attempt_outcome unit :=
  FetchResolves true 200
    (inr (if (i =? 0)%nat then js "<html>1</html>" else js "<html>2</html>")).

Definition two_pages_clock (i : nat) : jsstring :=
  if (i =? 0)%nat then ts1 else ts2.

(** A runtime for the sample crawls, whose pages are small integers. *)
Definition no_other_increment : Q -> jsnum := fun _ => JNaN.

(** The options of a crawl in mode all. *)
Definition args_all : Args.t := Args.set_mode (js "all") DEFAULTS.

(** A runtime whose objects are listed in the order of the map, and a
    writer of string arrays for the sample table. *)
Definition map_order_values (indexObj : index) : list entry :=
  snd <$> map_to_list indexObj.

Definition sample_stringify_strings (tags : list jsstring) : jsstring :=
  js "[" ++ join [comma] tags ++ js "]".

(** * Properties *)

(** Equations between unions of key sets, by membership. *)
Ltac union_members :=
  apply set_eq; intros ?; rewrite ?elem_of_union, ?elem_of_empty;
  try clear unicode_lower; try clear other_number_to_string;
  try clear cheerio_cards; tauto.

(** ** The definitions on small inputs *)

Example normalizeSpace_sample :
  normalizeSpace (Some (js "  Berlin,   Germany ")) = js "Berlin, Germany".
Proof. reflexivity. Qed.

Example normalizeSpace_undefined : normalizeSpace None = js "".
Proof. reflexivity. Qed.

Example stripTrailingNew_sample :
  stripTrailingNew (Some (js "Acme NEW")) = js "Acme"
  /\ stripTrailingNew (Some (js "Renew")) = js "Renew"
  /\ stripTrailingNew (Some (js "Acme New ")) = js "Acme New".
Proof. repeat split; reflexivity. Qed.

Example strip_what_they_do_sample :
  strip_what_they_do (js "What They Do:   Anvils and what they do: x")
  = js "Anvils and what they do: x".
Proof. reflexivity. Qed.

Example match_count_sample :
  match_count (js "day") (js "posted 12   days ago") = Some (js "12")
  /\ match_count (js "day") (js "30+ days ago") = None
  /\ match_count (js "day") (js "1 2days 3 days") = Some (js "2").
Proof. repeat split; reflexivity. Qed.

Example Number_of_digits_sample :
  Number_of_digits (js "007") = JInt 7
  /\ Number_of_digits (js "9007199254740992") = JInt 9007199254740992
  /\ Number_of_digits (js "9007199254740993") = JInt 9007199254740992
  /\ Number_of_digits (js "9007199254740995") = JInt 9007199254740996.
Proof. repeat split; reflexivity. Qed.

Example round_to_double_overflow :
  round_to_double (2 ^ 1024 - 2 ^ 970) = JPosInf
  /\ round_to_double (2 ^ 1024 - 2 ^ 970 - 1)
     = JInt ((2 ^ 53 - 1) * 2 ^ 971).
Proof. split; reflexivity. Qed.

Example Math_max_sample :
  Math_max [JInt 3; JInt 200; JInt 7] = JInt 200
  /\ Math_max [JInt 3; JNaN; JInt 7] = JNaN
  /\ Math_max [] = JNegInf.
Proof. repeat split; reflexivity. Qed.

Example number_to_string_sample :
  number_to_string other_number_to_string (JInt 180) = js "180"
  /\ number_to_string other_number_to_string (JFin (360 # 2)) = js "180"
  /\ number_to_string other_number_to_string JNaN = js "NaN".
Proof. repeat split; reflexivity. Qed.

Example job_of_card_sample :
  job_of_card card_acme (js "https://topstartups.io/jobs/")
  = Some {|
      Job.id := js "/jobs/42";
      Job.company := js "Acme";
      Job.company_site := js "https://acme.example";
      Job.job_title := js "Engineer";
      Job.job_url := js "/jobs/42";
      Job.apply_url := js "/apply/42";
      Job.location := js "Berlin, Germany";
      Job.experience := js "3+ years";
      Job.posted := js "Posted 3 days ago";
      Job.posted_age_days := Some (JInt 3);
      Job.logo := js "/logo.png";
      Job.company_size := js "11-50";
      Job.funding_tags := [js "Seed"];
      Job.what_they_do := js "Anvils";
      Job.industries := [js "Hardware"];
      Job.source := js "https://topstartups.io/jobs/"
    |}.
Proof. reflexivity. Qed.

Example csvEscape_sample :
  csvEscape (js "Acme, Inc") = [dquote] ++ js "Acme, Inc" ++ [dquote]
  /\ csvEscape (js "Acme") = js "Acme"
  /\ csvEscape quoted_company
     = [dquote] ++ js "Acme, " ++ [dquote; dquote] ++ js "Rockets"
         ++ [dquote; dquote] ++ js " Inc" ++ [dquote].
Proof. repeat split; reflexivity. Qed.

(** ** Whitespace, trimming and normalisation *)

Lemma drop_while_snoc p (l : jsstring) c :
  drop_while p (l ++ [c]) =
  match drop_while p l with
  | [] => drop_while p [c]
  | r => r ++ [c]
  end.
Proof.
  induction l as [|a l IH]; simpl; [done|].
  destruct (p a); [exact IH | done].
Qed.

Lemma drop_while_idem p (l : jsstring) :
  drop_while p (drop_while p l) = drop_while p l.
Proof.
  induction l as [|a l IH]; simpl; [done|].
  destruct (p a) eqn:Ha; [exact IH | simpl; by rewrite Ha].
Qed.

Lemma drop_while_head p (l : jsstring) d u :
  drop_while p l = d :: u -> p d = false.
Proof.
  induction l as [|a l IH]; simpl; [done|].
  destruct (p a) eqn:Ha; [exact IH | congruence].
Qed.

Lemma drop_while_nil_iff p (l : jsstring) :
  drop_while p l = [] <-> forallb p l = true.
Proof.
  induction l as [|a l IH]; simpl; [done|].
  destruct (p a); simpl; [exact IH | split; discriminate].
Qed.

Lemma drop_while_stable p (l : jsstring) c :
  p c = false -> drop_while p (c :: l) = c :: l.
Proof. intros H. simpl. by rewrite H. Qed.

(** [trimEnd], read from the front of the text. *)
Lemma trimEnd_cons c s :
  trimEnd (c :: s) =
  match trimEnd s with
  | [] => if is_ws c then [] else [c]
  | r => c :: r
  end.
Proof.
  unfold trimEnd. simpl rev at 2. rewrite drop_while_snoc.
  destruct (drop_while is_ws (rev s)) as [|a r] eqn:Hd.
  - simpl. by destruct (is_ws c).
  - rewrite rev_app_distr. simpl rev at 1. simpl.
    destruct (rev r ++ [a]) eqn:Hr; [|done].
    by destruct (rev r).
Qed.

Lemma trimEnd_nil : trimEnd [] = [].
Proof. done. Qed.

Lemma trimEnd_app_keep x y :
  trimEnd y <> [] -> trimEnd (x ++ y) = x ++ trimEnd y.
Proof.
  intros Hy. induction x as [|a x IH]; simpl; [done|].
  rewrite trimEnd_cons, IH.
  destruct (x ++ trimEnd y) eqn:Hx; [|done].
  apply app_eq_nil in Hx as [_ Hx]. by destruct Hy.
Qed.

Lemma trimEnd_app_ws x y :
  forallb is_ws y = true -> trimEnd (x ++ y) = trimEnd x.
Proof.
  intros Hy. unfold trimEnd. rewrite rev_app_distr.
  f_equal.
  assert (Hr : forallb is_ws (rev y) = true).
  { rewrite forallb_forall in *. intros c Hc. apply Hy.
    by apply in_rev. }
  revert Hr. generalize (rev y) as l. induction l as [|a l IH]; simpl.
  - done.
  - intros [Ha Hl]%andb_true_iff. rewrite Ha. auto.
Qed.

Lemma trimEnd_snoc_keep x c :
  is_ws c = false -> trimEnd (x ++ [c]) = x ++ [c].
Proof.
  intros Hc. rewrite trimEnd_app_keep; unfold trimEnd; simpl;
    rewrite Hc; done.
Qed.

Lemma trimEnd_head_keep d s :
  is_ws d = false -> exists r, trimEnd (d :: s) = d :: r.
Proof.
  intros Hd. rewrite trimEnd_cons, Hd.
  destruct (trimEnd s); eauto.
Qed.

Lemma trimEnd_idem s : trimEnd (trimEnd s) = trimEnd s.
Proof.
  unfold trimEnd. by rewrite rev_involutive, drop_while_idem.
Qed.

Lemma trim_idem s : trim (trim s) = trim s.
Proof.
  unfold trim, trimStart.
  destruct (drop_while is_ws s) as [|d u] eqn:Hs; [done|].
  apply drop_while_head in Hs.
  destruct (trimEnd_head_keep d u Hs) as [r Hr].
  rewrite <- (trimEnd_idem (d :: u)) at 2.
  f_equal. rewrite Hr. by apply drop_while_stable.
Qed.

Lemma is_ws_space : is_ws space = true.
Proof. reflexivity. Qed.

Lemma trimStart_replace b s :
  trimStart (replace_ws_runs b s) = replace_ws_runs false (trimStart s).
Proof.
  unfold trimStart. revert b.
  induction s as [|c s IH]; intros b; simpl; [done|].
  destruct (is_ws c) eqn:Hc.
  - destruct b; simpl; apply IH.
  - simpl. by rewrite Hc.
Qed.

Lemma words_from_trimStart s :
  words_from [] (trimStart s) = words_from [] s.
Proof.
  unfold trimStart. induction s as [|c s IH]; simpl; [done|].
  destruct (is_ws c) eqn:Hc; [exact IH | simpl; by rewrite Hc].
Qed.

Lemma words_from_cons_nonempty c cur s :
  exists w ws, words_from (c :: cur) s = w :: ws /\ w <> [].
Proof.
  revert c cur. induction s as [|a s IH]; intros c cur; simpl.
  - exists (rev cur ++ [c]), []. split; [done|]. by destruct (rev cur).
  - destruct (is_ws a).
    + exists (rev cur ++ [c]), (words_from [] s). split; [done|].
      by destruct (rev cur).
    + apply IH.
Qed.

Lemma unwords_cons w ws :
  unwords (w :: ws) =
  match ws with [] => w | _ => w ++ space :: unwords ws end.
Proof. by destruct ws. Qed.

Lemma unwords_nonempty w ws : w <> [] -> unwords (w :: ws) <> [].
Proof.
  intros Hw. rewrite unwords_cons. destruct ws; [done|].
  by destruct w.
Qed.

(** The two readings of the text go hand in hand: inside a word ([cur] is
    what was read of it) and after a run of whitespace ([x] is the output so
    far). *)
Lemma replace_ws_runs_words s :
  (forall c0 cur, is_ws c0 = false ->
     trimEnd (rev (c0 :: cur) ++ replace_ws_runs false s)
     = unwords (words_from (c0 :: cur) s))
  /\ (forall x, trimEnd x = x ->
        trimEnd (x ++ space :: replace_ws_runs true s)
        = match words_from [] s with
          | [] => x
          | ws => x ++ space :: unwords ws
          end).
Proof.
  induction s as [|c s [IHword IHgap]]; split.
  - intros c0 cur Hc0. simpl. rewrite app_nil_r.
    by apply trimEnd_snoc_keep.
  - intros x Hx. simpl. by rewrite (trimEnd_app_ws x [space]).
  - intros c0 cur Hc0. simpl replace_ws_runs. simpl words_from.
    destruct (is_ws c) eqn:Hc.
    + rewrite IHgap by (by apply trimEnd_snoc_keep).
      rewrite unwords_cons. by destruct (words_from [] s).
    + specialize (IHword c (c0 :: cur) Hc).
      simpl rev in *. rewrite <- !app_assoc in *. exact IHword.
  - intros x Hx. simpl replace_ws_runs. simpl words_from.
    destruct (is_ws c) eqn:Hc.
    + by apply IHgap.
    + specialize (IHword c [] Hc). simpl rev in IHword. simpl app in IHword.
      destruct (words_from_cons_nonempty c [] s) as (w & ws & Hw & Hne).
      rewrite Hw in *.
      replace (x ++ space :: c :: replace_ws_runs false s)
        with ((x ++ [space]) ++ c :: replace_ws_runs false s)
        by (by rewrite <- app_assoc).
      rewrite trimEnd_app_keep.
      * rewrite IHword. by rewrite <- app_assoc.
      * rewrite IHword. by apply unwords_nonempty.
Qed.

(** [normalizeSpace] keeps the words of the text and writes them with one
    space between them. *)
Lemma normalizeSpace_unwords s :
  normalizeSpace (Some s) = unwords (words s).
Proof.
  unfold normalizeSpace, trim, words. simpl nullish.
  rewrite trimStart_replace, <- words_from_trimStart.
  destruct (trimStart s) as [|d u] eqn:Hs; [done|].
  apply drop_while_head in Hs.
  destruct (replace_ws_runs_words u) as [Hword _].
  specialize (Hword d [] Hs).
  simpl. rewrite Hs. exact Hword.
Qed.

Lemma normalizeSpace_None : normalizeSpace None = [].
Proof. reflexivity. Qed.

Lemma normalizeSpace_nil_iff s :
  normalizeSpace (Some s) = [] <-> forallb is_ws s = true.
Proof.
  unfold normalizeSpace, trim. simpl nullish.
  rewrite trimStart_replace, <- (drop_while_nil_iff is_ws s).
  fold (trimStart s).
  destruct (trimStart s) as [|d u] eqn:Hs; [done|].
  apply drop_while_head in Hs. simpl. rewrite Hs.
  destruct (trimEnd_head_keep d (replace_ws_runs false u) Hs) as [r Hr].
  rewrite Hr. split; discriminate.
Qed.

Lemma trim_normalizeSpace s : trim (normalizeSpace s) = normalizeSpace s.
Proof. apply trim_idem. Qed.

Lemma replace_ws_runs_single_spaced s :
  single_spaced s = true -> replace_ws_runs false s = s.
Proof.
  induction s as [|c s IH]; simpl; [done|].
  intros [Hc Hs]%andb_true_iff.
  destruct (is_ws c) eqn:Hws; simpl in Hc.
  - apply andb_true_iff in Hc as [Hsp Hnext].
    apply N.eqb_eq in Hsp. subst c. f_equal.
    destruct s as [|c' s]; [done|].
    specialize (IH Hs). simpl in *.
    apply negb_true_iff in Hnext. rewrite Hnext in *. exact IH.
  - f_equal. auto.
Qed.

Lemma stableIdFromJobUrl_trim u : stableIdFromJobUrl (Some u) = trim u.
Proof. unfold stableIdFromJobUrl, or_else. by destruct (trim u). Qed.

(** ** Extraction: identity *)

Lemma sel_attr_first {A : Type} (f : A -> option jsstring) (l : list A) :
  sel_attr f (sel_first l) = head l ≫= f.
Proof. by destruct l. Qed.

Lemma job_of_card_link c sourceUrl :
  job_of_card c sourceUrl = None
  \/ exists j, job_of_card c sourceUrl = Some j
       /\ Job.job_url j = normalizeSpace (job_link_href c)
       /\ Job.id j = stableIdFromJobUrl (Some (Job.job_url j))
       /\ Job.job_url j <> [].
Proof.
  unfold job_of_card, job_link_href. rewrite sel_attr_first.
  set (l := List.filter _ (website_links c)).
  replace (head l ≫= (fun a => Some (a_href a))) with (a_href <$> head l)
    by (by destruct (head l)).
  destruct (normalizeSpace (a_href <$> head l)) eqn:Hn; simpl; [by left|].
  right. eexists. split; [reflexivity|]. simpl. done.
Qed.

Lemma job_of_card_None_iff c sourceUrl :
  job_of_card c sourceUrl = None
  <-> normalizeSpace (job_link_href c) = [].
Proof.
  unfold job_of_card, job_link_href. rewrite sel_attr_first.
  set (l := List.filter _ (website_links c)).
  replace (head l ≫= (fun a => Some (a_href a))) with (a_href <$> head l)
    by (by destruct (head l)).
  by destruct (normalizeSpace (a_href <$> head l)) eqn:Hn.
Qed.

Lemma job_of_card_id c sourceUrl j :
  job_of_card c sourceUrl = Some j ->
  Job.id j = normalizeSpace (job_link_href c)
  /\ Job.id j = Job.job_url j
  /\ Job.id j <> [].
Proof.
  intros Hj. destruct (job_of_card_link c sourceUrl) as [Hn|(j' & Hj' & Hu & Hi & Hne)];
    [congruence|].
  assert (j' = j) by congruence. subst j'.
  rewrite Hi, stableIdFromJobUrl_trim, Hu, trim_normalizeSpace, <- Hu.
  done.
Qed.

Lemma filter_seen_elem seen jobs j :
  j ∈ filter_seen seen jobs ->
  j ∈ jobs /\ Job.id j <> [] /\ Job.id j ∉ seen.
Proof.
  revert seen. induction jobs as [|a jobs IH]; intros seen; simpl.
  - by intros ?%elem_of_nil.
  - destruct (negb (is_empty (Job.id a))
              && negb (bool_decide (Job.id a ∈ seen))) eqn:Hkeep.
    + apply andb_true_iff in Hkeep as [Hne Hseen].
      apply negb_true_iff in Hne, Hseen.
      apply bool_decide_eq_false in Hseen.
      intros [->|Hin]%elem_of_cons.
      * split; [left|]. split; [|done]. by destruct (Job.id a).
      * destruct (IH _ Hin) as (? & ? & Hs).
        split; [by right|]. split; [done|].
        intros Hold. apply Hs, elem_of_union. by left.
    + intros Hin. destruct (IH _ Hin) as (? & ? & ?).
      split; [by right|]. done.
Qed.

(** Every record of a page comes from a card of the page that extraction
    keeps, and has an id of its own. *)
Lemma extractJobsFromHtml_elem html sourceUrl j :
  j ∈ extractJobsFromHtml html sourceUrl ->
  Job.id j <> []
  /\ exists c, c ∈ cheerio_cards html /\ job_of_card c sourceUrl = Some j.
Proof.
  unfold extractJobsFromHtml. intros (Hj & Hid & _)%filter_seen_elem.
  split; [done|]. apply list_elem_of_omap in Hj as (c & Hc & Hjob). eauto.
Qed.

Lemma upsertIndex_dom indexObj job ts :
  dom (fst (upsertIndex indexObj job ts)) = {[Job.id job]} ∪ dom indexObj.
Proof.
  unfold upsertIndex. destruct (indexObj !! Job.id job); simpl;
    by rewrite dom_insert_L.
Qed.

Lemma upsertAll_dom jobs indexObj ts :
  dom (upsertAll indexObj jobs ts)
  = dom indexObj ∪ list_to_set (Job.id <$> jobs).
Proof.
  unfold upsertAll. revert indexObj.
  induction jobs as [|j jobs IH]; intros indexObj; simpl.
  - union_members.
  - rewrite IH, upsertIndex_dom. union_members.
Qed.


(** C1 (amended).  For a card whose job-detail link has the href [J], the
    record extracted from it has its id equal to [normalizeSpace(J)]: the
    whitespace runs of [J] collapsed to single spaces, then trimmed
    ([stableIdFromJobUrl] itself is [trim], and it is given the normalised
    href).  The id is byte-equal to the record's [job_url], and to
    [trim(J)] whenever the whitespace of [J] is single spaces only.  The id
    is empty exactly when [J] is empty or whitespace-only, and such a card
    yields no record: no record with an empty id comes out of extraction,
    and the upserts of a page add no empty key to the index. *)
Theorem extracted_id_is_normalized_link (c : card) (sourceUrl J : jsstring) :
  job_link_href c = Some J ->
  (forall j, job_of_card c sourceUrl = Some j ->
     Job.id j = normalizeSpace (Some J)
     /\ Job.id j = Job.job_url j
     /\ Job.id j <> []
     /\ (single_spaced J = true -> Job.id j = trim J))
  /\ (forall u, stableIdFromJobUrl (Some u) = trim u)
  /\ (stableIdFromJobUrl (Some (normalizeSpace (Some J))) = []
      <-> forallb is_ws J = true)
  /\ (job_of_card c sourceUrl = None <-> forallb is_ws J = true)
  /\ (forall html j,
        j ∈ extractJobsFromHtml html sourceUrl -> Job.id j <> [])
  /\ (forall html (indexObj : index) ts k,
        k ∈ dom (upsertAll indexObj
                   (extractJobsFromHtml html sourceUrl) ts) ->
        k ∈ dom indexObj \/ k <> []).
Proof.
  intros HJ. repeat apply conj.
  - intros j Hj. destruct (job_of_card_id _ _ _ Hj) as (Hid & Hurl & Hne).
    rewrite HJ in Hid. repeat apply conj; try done.
    intros Hs. rewrite Hid. unfold normalizeSpace. simpl nullish.
    by rewrite replace_ws_runs_single_spaced.
  - apply stableIdFromJobUrl_trim.
  - rewrite stableIdFromJobUrl_trim, trim_normalizeSpace.
    apply normalizeSpace_nil_iff.
  - rewrite stableIdFromJobUrl_trim, trim_normalizeSpace.
    apply normalizeSpace_nil_iff.
  - rewrite job_of_card_None_iff, HJ. apply normalizeSpace_nil_iff.
  - rewrite job_of_card_None_iff, HJ. apply normalizeSpace_nil_iff.
  - intros html j Hj. by apply extractJobsFromHtml_elem in Hj as [Hid _].
  - intros html indexObj ts k Hk. rewrite upsertAll_dom in Hk.
    apply elem_of_union in Hk as [Hk|Hk]; [by left|right].
    apply elem_of_list_to_set, list_elem_of_fmap in Hk as (j & -> & Hj).
    by apply extractJobsFromHtml_elem in Hj as [Hid _].
Qed.


(** ** The index *)

Lemma upsertIndex_lookup_other (indexObj : index) (job : Job.t)
    (ts k : jsstring) :
  k <> Job.id job ->
  fst (upsertIndex indexObj job ts) !! k = indexObj !! k.
Proof.
  intros Hk. unfold upsertIndex.
  destruct (indexObj !! Job.id job); simpl; by rewrite lookup_insert_ne.
Qed.

Lemma upsertMany_dom (observations : list (Job.t * jsstring))
    (indexObj : index) :
  dom (upsertMany indexObj observations)
  = dom indexObj ∪ list_to_set ((fun o => Job.id (fst o)) <$> observations).
Proof.
  unfold upsertMany. revert indexObj.
  induction observations as [|o obs IH]; intros indexObj; simpl.
  - union_members.
  - rewrite IH, upsertIndex_dom. union_members.
Qed.

Lemma upsertMany_lookup_other (observations : list (Job.t * jsstring))
    (indexObj : index) (k : jsstring) :
  k ∉ (fun o => Job.id (fst o)) <$> observations ->
  upsertMany indexObj observations !! k = indexObj !! k.
Proof.
  unfold upsertMany. revert indexObj.
  induction observations as [|o obs IH]; intros indexObj Hk; simpl.
  - done.
  - rewrite fmap_cons in Hk. apply not_elem_of_cons in Hk as [Hne Hk].
    rewrite IH by done. by apply upsertIndex_lookup_other.
Qed.




(** ** Numbers: order and [Math.max] *)

Ltac jsnum_order :=
  repeat match goal with
         | n : jsnum |- _ => destruct n
         end;
  simpl; try done;
  rewrite ?negb_true_iff, ?negb_false_iff, <- ?not_true_iff_false,
    ?Qle_bool_iff;
  try done; try (intros; lra).

Lemma js_le_refl a : a <> JNaN -> js_le a a = true.
Proof. jsnum_order. Qed.

Lemma js_le_trans a b c :
  js_le a b = true -> js_le b c = true -> js_le a c = true.
Proof. jsnum_order. Qed.

Lemma js_gt_le_trans a b m :
  js_gt a m = true -> js_le a b = true -> js_gt b m = true.
Proof. jsnum_order. Qed.

Lemma js_gt_true_le n h : js_gt n h = true -> js_le h n = true.
Proof. jsnum_order. Qed.

Lemma js_gt_false_le n h :
  n <> JNaN -> h <> JNaN -> js_gt n h = false -> js_le n h = true.
Proof. jsnum_order. Qed.

Lemma js_le_NaN_l b : js_le JNaN b = false.
Proof. done. Qed.

Lemma js_le_NegInf b : js_le b JNegInf = true -> b = JNegInf.
Proof. by destruct b. Qed.

Lemma js_le_JInt a b : js_le (JInt a) (JInt b) = true <-> (a <= b)%Z.
Proof.
  unfold JInt. simpl. by rewrite Qle_bool_iff, <- Zle_Qle.
Qed.

Lemma js_gt_JInt a b : js_gt (JInt a) (JInt b) = true <-> (b < a)%Z.
Proof.
  unfold JInt. simpl. rewrite negb_true_iff, <- not_true_iff_false,
    Qle_bool_iff, <- Zle_Qle. lia.
Qed.

Lemma max_loop_NaN args h : JNaN ∈ args -> max_loop h args = JNaN.
Proof.
  revert h. induction args as [|n args IH]; intros h.
  - by intros ?%elem_of_nil.
  - intros [<-|Hin]%elem_of_cons; [done|].
    simpl. destruct n; auto.
Qed.

Lemma max_loop_bound args h :
  h <> JNaN -> JNaN ∉ args ->
  let m := max_loop h args in
  m <> JNaN
  /\ js_le h m = true
  /\ (forall b, b ∈ args -> js_le b m = true)
  /\ (m = h \/ m ∈ args).
Proof.
  revert h. induction args as [|n args IH]; intros h Hh Hargs; simpl.
  - split; [done|]. split; [by apply js_le_refl|]. split; [|by left].
    by intros b ?%elem_of_nil.
  - apply not_elem_of_cons in Hargs as [Hn Hargs].
    assert (Hn' : n <> JNaN) by congruence.
    set (h' := if js_gt n h then n else h).
    assert (Hh' : h' <> JNaN) by (subst h'; by destruct (js_gt n h)).
    assert (Hle : js_le h h' = true /\ js_le n h' = true).
    { subst h'. destruct (js_gt n h) eqn:Hgt.
      - split; [by apply js_gt_true_le | by apply js_le_refl].
      - split; [by apply js_le_refl | by apply js_gt_false_le]. }
    destruct (IH h' Hh' Hargs) as (Hm & Hhm & Hall & Hor).
    replace (match n with JNaN => JNaN | _ => max_loop h' args end)
      with (max_loop h' args) by (by destruct n).
    split; [done|]. split; [by eapply js_le_trans; [apply Hle|]|].
    split.
    + intros b [->|Hb]%elem_of_cons; [|by apply Hall].
      by eapply js_le_trans; [apply Hle|].
    + destruct Hor as [->|Hin]; [|right; by right].
      subst h'. destruct (js_gt n h); [right; by left | by left].
Qed.

Lemma NaN_elem_dec (args : list jsnum) : JNaN ∈ args \/ JNaN ∉ args.
Proof.
  induction args as [|n args [IH|IH]].
  - right. by intros ?%elem_of_nil.
  - left. by right.
  - destruct n; [left; by left|right..];
      by intros [?|?]%elem_of_cons.
Qed.

(** [Math.max] exceeds [m] exactly when an argument that is at least every
    argument exceeds [m]. *)
Lemma Math_max_gt args m :
  js_gt (Math_max args) m = true
  <-> exists a, a ∈ args
        /\ (forall b, b ∈ args -> js_le b a = true)
        /\ js_gt a m = true.
Proof.
  unfold Math_max.
  destruct (NaN_elem_dec args) as [Hnan|Hnan].
  { rewrite max_loop_NaN by done. split; [done|].
    intros (a & _ & Hall & _). specialize (Hall _ Hnan). done. }
  destruct (max_loop_bound args JNegInf ltac:(done) Hnan)
    as (Hm & _ & Hall & Hor).
  split.
  - intros Hgt. exists (max_loop JNegInf args). split; [|done].
    destruct Hor as [Heq|Hin]; [|done].
    rewrite Heq in Hgt. by destruct m.
  - intros (a & Ha & _ & Hgt).
    eapply js_gt_le_trans; [exact Hgt|]. by apply Hall.
Qed.


(** ** The stop policy *)

Lemma existsb_elem_of {A : Type} (p : A -> bool) (l : list A) :
  existsb p l = true <-> exists x, x ∈ l /\ p x = true.
Proof.
  rewrite existsb_exists. split; intros (x & Hx & Hp); exists x;
    (split; [by apply list_elem_of_In | done]).
Qed.

Lemma is_recent_iff j :
  is_recent j = true
  <-> exists n, Job.posted_age_days j = Some n /\ js_le n (JInt 1) = true.
Proof.
  unfold is_recent. destruct (Job.posted_age_days j) as [n|].
  - split; [eauto|]. by intros (n' & [= <-] & Hle).
  - split; [done|]. by intros (n' & [=] & _).
Qed.

(** C3.  In mode today the policy continues exactly when some record of the
    page has a known posted age of at most 1, and stops otherwise, the empty
    page included.  Ages 2 and 5 stop; age 0 continues. *)
Theorem stop_today_iff_nothing_recent (jobs : list Job.t)
    (maxAgeDays : jsnum) :
  (stop (computeStopForMode (js "today") jobs maxAgeDays) = false
   <-> exists j n, j ∈ jobs /\ Job.posted_age_days j = Some n
                   /\ js_le n (JInt 1) = true)
  /\ (stop (computeStopForMode (js "today") jobs maxAgeDays) = true
      <-> ~ exists j n, j ∈ jobs /\ Job.posted_age_days j = Some n
                        /\ js_le n (JInt 1) = true)
  /\ stop (computeStopForMode (js "today")
             [job_aged 1 (Some (JInt 2)); job_aged 2 (Some (JInt 5))]
             maxAgeDays) = true
  /\ stop (computeStopForMode (js "today") [job_aged 1 (Some (JInt 0))]
             maxAgeDays) = false.
Proof.
  assert (Hiff :
    stop (computeStopForMode (js "today") jobs maxAgeDays) = false
    <-> exists j n, j ∈ jobs /\ Job.posted_age_days j = Some n
                    /\ js_le n (JInt 1) = true).
  { unfold computeStopForMode.
    rewrite bool_decide_eq_true_2 by done.
    destruct jobs as [|j0 jobs]; simpl length; cbn [Nat.eqb].
    - simpl. split; [done|]. by intros (j & n & ?%elem_of_nil & _).
    - destruct (existsb is_recent (j0 :: jobs)) eqn:Hex; cbn [negb stop].
      + split; [intros _|done].
        apply existsb_elem_of in Hex as (j & Hj & Hr).
        apply is_recent_iff in Hr as (n & Hn & Hle). eauto.
      + split; [done|]. intros (j & n & Hj & Hn & Hle).
        apply not_true_iff_false in Hex. destruct Hex.
        apply existsb_elem_of. exists j. split; [done|].
        apply is_recent_iff. eauto. }
  split; [exact Hiff|]. split; [|done].
  rewrite <- Hiff.
  destruct (stop (computeStopForMode (js "today") jobs maxAgeDays));
    split; congruence.
Qed.

(** C4.  In mode all, on a page that has records: when no record has a
    known age the policy continues; it stops exactly when the greatest of
    the known ages exceeds [maxAgeDays], and the reason then names that
    threshold.  One record of age 200 with [maxAgeDays = 180] stops with the
    reason older_than_180. *)
Theorem stop_all_iff_oldest_exceeds (jobs : list Job.t)
    (maxAgeDays : jsnum) :
  jobs <> [] ->
  (omap Job.posted_age_days jobs = [] ->
     computeStopForMode (js "all") jobs maxAgeDays = mkStop false [])
  /\ (stop (computeStopForMode (js "all") jobs maxAgeDays) = true
      <-> exists a, a ∈ omap Job.posted_age_days jobs
            /\ (forall b, b ∈ omap Job.posted_age_days jobs ->
                          js_le b a = true)
            /\ js_gt a maxAgeDays = true)
  /\ (stop (computeStopForMode (js "all") jobs maxAgeDays) = true ->
      reason (computeStopForMode (js "all") jobs maxAgeDays)
      = js "older_than_" ++ number_to_string other_number_to_string maxAgeDays)
  /\ computeStopForMode (js "all") [job_aged 1 (Some (JInt 200))] (JInt 180)
     = mkStop true (js "older_than_180").
Proof.
  intros Hjobs. unfold computeStopForMode.
  rewrite bool_decide_eq_false_2 by done.
  destruct jobs as [|j0 jobs]; [done|]. simpl length at 1. cbn [Nat.eqb].
  set (ages := omap Job.posted_age_days (j0 :: jobs)).
  split; [|split; [|split]].
  - intros ->. done.
  - destruct ages as [|a0 ages'] eqn:Hages; simpl length; cbn [Nat.eqb].
    + simpl. split; [done|]. by intros (a & ?%elem_of_nil & _).
    + rewrite <- Math_max_gt.
      by destruct (js_gt (Math_max (a0 :: ages')) maxAgeDays).
  - destruct ages as [|a0 ages']; simpl length; cbn [Nat.eqb]; [done|].
    by destruct (js_gt (Math_max (a0 :: ages')) maxAgeDays).
  - reflexivity.
Qed.


(** ** Posted-age parsing *)

Lemma startsWith_prefix p s :
  startsWith p s = true <-> exists post, s = p ++ post.
Proof.
  revert s. induction p as [|a p IH]; intros s; simpl.
  - split; [eauto|done].
  - destruct s as [|c s].
    + split; [done|]. by intros (post & ?).
    + rewrite andb_true_iff, N.eqb_eq, IH. split.
      * intros (-> & post & ->). eauto.
      * intros (post & [= -> ->]). eauto.
Qed.

Lemma includes_contains p t : includes p t = true <-> contains p t.
Proof.
  unfold contains. induction t as [|c t IH].
  - simpl. rewrite orb_false_r, startsWith_prefix. split.
    + intros (post & ->). by exists [], post.
    + intros (pre & post & H). destruct pre; [eauto|done].
  - cbn [includes]. rewrite orb_true_iff, startsWith_prefix, IH. split.
    + intros [(post & ->)|(pre & post & ->)].
      * by exists [], post.
      * by exists (c :: pre), post.
    + intros (pre & post & H). destruct pre as [|c' pre].
      * left. eauto.
      * right. injection H as -> ->. eauto.
Qed.

(** Boolean tests on code units, turned into arithmetic. *)
Ltac code_unit_cases :=
  repeat match goal with
         | H : (_ || _) = true |- _ => apply orb_true_iff in H as [H|H]
         | H : (_ && _) = true |- _ => apply andb_true_iff in H as [? ?]
         | H : (_ =? _)%N = true |- _ => apply N.eqb_eq in H
         | H : (_ <=? _)%N = true |- _ => apply N.leb_le in H
         | H : (_ <? _)%N = true |- _ => apply N.ltb_lt in H
         | H : (_ =? _)%N = false |- _ => apply N.eqb_neq in H
         end.

Lemma is_ws_not_digit c : is_ws c = true -> is_digit c = false.
Proof.
  intros Hws. apply not_true_iff_false. intros Hd.
  unfold is_digit, is_ws in *. code_unit_cases; lia.
Qed.

Lemma take_drop_while p (s : jsstring) :
  take_while p s ++ drop_while p s = s.
Proof.
  induction s as [|c s IH]; simpl; [done|].
  destruct (p c); simpl; [by rewrite IH | done].
Qed.

Lemma take_while_all p (s : jsstring) : forallb p (take_while p s) = true.
Proof.
  induction s as [|c s IH]; simpl; [done|].
  destruct (p c) eqn:Hc; simpl; [by rewrite Hc | done].
Qed.

Lemma take_while_app p (ds rest : jsstring) :
  forallb p ds = true ->
  match rest with [] => True | c :: _ => p c = false end ->
  take_while p (ds ++ rest) = ds /\ drop_while p (ds ++ rest) = rest.
Proof.
  intros Hds Hrest. induction ds as [|d ds IH]; simpl in *.
  - destruct rest as [|c rest]; [done|]. simpl. by rewrite Hrest.
  - apply andb_true_iff in Hds as [Hd Hds]. rewrite Hd.
    destruct (IH Hds) as [-> ->]. done.
Qed.

(** The pattern tried at one position matches in one way only. *)
Lemma match_count_here_iff unit s ds :
  unit_word unit = true ->
  match_count_here unit s = Some ds
  <-> exists sp post,
        s = ds ++ sp ++ unit ++ post
        /\ ds <> []
        /\ forallb is_digit ds = true
        /\ forallb is_ws sp = true.
Proof.
  intros Hunit. destruct unit as [|u0 unit]; [done|].
  apply andb_true_iff in Hunit as [Hu_d Hu_w].
  apply negb_true_iff in Hu_d, Hu_w.
  unfold match_count_here. split.
  - destruct (take_while is_digit s) as [|d0 ds0] eqn:Htake; [done|].
    cbn [is_empty].
    destruct (startsWith _ _) eqn:Hstart; [|done].
    intros [= <-].
    apply startsWith_prefix in Hstart as (post & Hpost).
    exists (take_while is_ws (drop_while is_digit s)), post.
    split; [|split; [done|split]].
    + rewrite <- Hpost, take_drop_while, <- Htake.
      by rewrite take_drop_while.
    + rewrite <- Htake. apply take_while_all.
    + apply take_while_all.
  - intros (sp & post & -> & Hne & Hds & Hsp).
    assert (Hhead : match sp ++ (u0 :: unit) ++ post with
                    | [] => True
                    | c :: _ => is_digit c = false
                    end).
    { destruct sp as [|c sp]; simpl; [done|].
      simpl in Hsp. apply andb_true_iff in Hsp as [Hc _].
      by apply is_ws_not_digit. }
    destruct (take_while_app is_digit ds (sp ++ (u0 :: unit) ++ post)
                Hds Hhead) as [-> ->].
    destruct ds as [|d ds]; [done|]. cbn [is_empty].
    assert (Hhead' : match (u0 :: unit) ++ post with
                     | [] => True
                     | c :: _ => is_ws c = false
                     end) by done.
    destruct (take_while_app is_ws sp ((u0 :: unit) ++ post) Hsp Hhead')
      as [_ ->].
    assert (Hs : startsWith (u0 :: unit) ((u0 :: unit) ++ post) = true)
      by (apply startsWith_prefix; eauto).
    by rewrite Hs.
Qed.

Lemma count_at_nil unit t ds :
  unit_word unit = true ->
  count_at unit t [] ds <-> match_count_here unit t = Some ds.
Proof.
  intros Hunit. rewrite match_count_here_iff by done. done.
Qed.

Lemma count_at_cons unit t c pre ds :
  count_at unit t (c :: pre) ds
  <-> exists t', t = c :: t' /\ count_at unit t' pre ds.
Proof.
  unfold count_at. split.
  - intros (sp & post & -> & H). eexists. split; [done|]. eauto.
  - intros (t' & -> & sp & post & -> & H). eauto.
Qed.

(** [match_count] finds the first place that reads a number and the unit,
    or tells that there is none. *)
Lemma match_count_spec unit t :
  unit_word unit = true ->
  match match_count unit t with
  | Some ds => first_count unit t ds
  | None => forall pre ds, ~ count_at unit t pre ds
  end.
Proof.
  intros Hunit. induction t as [|c t IH]; cbn [match_count].
  - destruct (match_count_here unit []) as [ds|] eqn:Hhere.
    + exists []. split; [by apply count_at_nil|]. intros; simpl; lia.
    + intros pre ds H. destruct pre as [|c pre].
      * apply count_at_nil in H; congruence.
      * apply count_at_cons in H as (t' & [=] & _).
  - destruct (match_count_here unit (c :: t)) as [ds|] eqn:Hhere.
    + exists []. split; [by apply count_at_nil|]. intros; simpl; lia.
    + destruct (match_count unit t) as [ds|].
      * destruct IH as (pre & Hat & Hfirst). exists (c :: pre). split.
        -- apply count_at_cons. eauto.
        -- intros pre' ds' H. destruct pre' as [|c' pre'].
           ++ apply count_at_nil in H; congruence.
           ++ apply count_at_cons in H as (t' & [= <- <-] & H).
              specialize (Hfirst _ _ H). simpl. lia.
      * intros pre ds H. destruct pre as [|c' pre].
        -- apply count_at_nil in H; congruence.
        -- apply count_at_cons in H as (t' & [= <- <-] & H).
           by apply IH in H.
Qed.

Lemma count_at_prefix unit t pre ds :
  count_at unit t pre ds -> exists s, t = pre ++ s /\ count_at unit s [] ds.
Proof.
  intros (sp & post & -> & H). eexists. split; [done|].
  exists sp, post. done.
Qed.

Lemma first_count_unique unit t ds ds' :
  unit_word unit = true ->
  first_count unit t ds -> first_count unit t ds' -> ds = ds'.
Proof.
  intros Hunit (pre & Hat & Hfirst) (pre' & Hat' & Hfirst').
  pose proof (Hfirst _ _ Hat') as Hle.
  pose proof (Hfirst' _ _ Hat) as Hle'.
  apply count_at_prefix in Hat as (s & Ht & Hs).
  apply count_at_prefix in Hat' as (s' & Ht' & Hs').
  assert (Hpre : pre = pre' /\ s = s').
  { apply app_inj_1; [lia | congruence]. }
  destruct Hpre as [<- <-].
  apply count_at_nil in Hs, Hs'; congruence.
Qed.

Lemma match_count_first unit t ds :
  unit_word unit = true ->
  first_count unit t ds -> match_count unit t = Some ds.
Proof.
  intros Hunit Hfirst. pose proof (match_count_spec unit t Hunit) as Hspec.
  destruct (match_count unit t) as [ds'|].
  - f_equal. by eapply first_count_unique.
  - destruct Hfirst as (pre & Hat & _). by apply Hspec in Hat.
Qed.

Lemma match_count_some unit t pre ds :
  unit_word unit = true ->
  count_at unit t pre ds -> exists ds', match_count unit t = Some ds'.
Proof.
  intros Hunit Hat. pose proof (match_count_spec unit t Hunit) as Hspec.
  destruct (match_count unit t) as [ds'|]; [eauto|].
  by apply Hspec in Hat.
Qed.

Lemma match_count_none unit t :
  unit_word unit = true ->
  (forall pre ds, ~ count_at unit t pre ds) -> match_count unit t = None.
Proof.
  intros Hunit Hno. pose proof (match_count_spec unit t Hunit) as Hspec.
  destruct (match_count unit t) as [ds'|]; [|done].
  destruct Hspec as (pre & Hat & _). by apply Hno in Hat.
Qed.

Lemma Number_of_digits_exact ds :
  (digits_value ds < 2 ^ 53)%Z ->
  Number_of_digits ds = JInt (digits_value ds).
Proof.
  intros Hlt. unfold Number_of_digits, round_to_double.
  apply Z.ltb_lt in Hlt. by rewrite Hlt.
Qed.


(** C5 (amended).  The rules are read on the text after whitespace
    normalisation and lower-casing, in this order: a text that contains
    today gives 0; otherwise the first place that reads a number and day
    gives that number as a JavaScript number, which is the number itself
    below 2^53 and the nearest double above; otherwise a number followed by
    hour or by minute gives 0; otherwise the age is unknown.  Posted today
    gives 0, 3 days ago gives 3, 2 hours ago gives 0, and the empty text is
    unknown. *)
Theorem parsePostedAgeDays_rules (postedText : jsstring) :
  let t := toLowerCase (normalizeSpace (Some postedText)) in
  (contains (js "today") t ->
     parsePostedAgeDays postedText = Some (JInt 0))
  /\ (~ contains (js "today") t ->
      forall ds, first_count (js "day") t ds ->
        parsePostedAgeDays postedText = Some (Number_of_digits ds)
        /\ ((digits_value ds < 2 ^ 53)%Z ->
            parsePostedAgeDays postedText = Some (JInt (digits_value ds))))
  /\ (~ contains (js "today") t ->
      (forall pre ds, ~ count_at (js "day") t pre ds) ->
      (exists pre ds, count_at (js "hour") t pre ds
                      \/ count_at (js "minute") t pre ds) ->
      parsePostedAgeDays postedText = Some (JInt 0))
  /\ (~ contains (js "today") t ->
      (forall pre ds, ~ count_at (js "day") t pre ds) ->
      (forall pre ds, ~ count_at (js "hour") t pre ds) ->
      (forall pre ds, ~ count_at (js "minute") t pre ds) ->
      parsePostedAgeDays postedText = None)
  /\ parsePostedAgeDays (js "Posted today") = Some (JInt 0)
  /\ parsePostedAgeDays (js "3 days ago") = Some (JInt 3)
  /\ parsePostedAgeDays (js "2 hours ago") = Some (JInt 0)
  /\ parsePostedAgeDays (js "") = None.
Proof.
  intros t. unfold parsePostedAgeDays. fold t.
  assert (Hday : unit_word (js "day") = true) by done.
  assert (Hhour : unit_word (js "hour") = true) by done.
  assert (Hminute : unit_word (js "minute") = true) by done.
  assert (Hempty : forall unit pre ds,
             count_at unit t pre ds -> is_empty t = false).
  { intros unit pre ds (sp & post & -> & Hne & _).
    destruct pre; [|done]. by destruct ds. }
  split; [|split; [|split; [|split]]].
  - intros Htoday. apply includes_contains in Htoday as Hinc.
    rewrite Hinc. destruct Htoday as (pre & post & ->).
    by destruct pre.
  - intros Hno ds Hfirst.
    assert (Hinc : includes (js "today") t = false).
    { apply not_true_iff_false. by rewrite includes_contains. }
    destruct Hfirst as (pre & Hat & Hleft).
    rewrite (Hempty _ _ _ Hat), Hinc.
    rewrite (match_count_first (js "day") t ds Hday)
      by (exists pre; done).
    split; [done|]. intros Hlt. by rewrite Number_of_digits_exact.
  - intros Hno Hnoday (pre & ds & Hat).
    assert (Hinc : includes (js "today") t = false).
    { apply not_true_iff_false. by rewrite includes_contains. }
    assert (Hne : is_empty t = false) by (destruct Hat; by eapply Hempty).
    rewrite Hne, Hinc, (match_count_none _ _ Hday Hnoday).
    destruct (match_count (js "hour") t) as [h|] eqn:Hh; [done|].
    destruct Hat as [Hat|Hat].
    + destruct (match_count_some _ _ _ _ Hhour Hat); congruence.
    + by destruct (match_count_some _ _ _ _ Hminute Hat) as [m ->].
  - intros Hno Hnoday Hnohour Hnominute.
    assert (Hinc : includes (js "today") t = false).
    { apply not_true_iff_false. by rewrite includes_contains. }
    rewrite Hinc, (match_count_none _ _ Hday Hnoday),
      (match_count_none _ _ Hhour Hnohour),
      (match_count_none _ _ Hminute Hnominute).
    by destruct (is_empty t).
  - repeat split; reflexivity.
Qed.


(** ** Extraction: the fields of a record *)

Lemma sel_text_first (texts : list jsstring) :
  sel_text (sel_first texts) = default [] (head texts).
Proof.
  destruct texts as [|t texts]; [done|].
  unfold sel_text, sel_first. simpl. apply app_nil_r.
Qed.

Lemma sel_text_first_anchor (l : list anchor) :
  sel_text (a_text <$> sel_first l) = from_option a_text [] (head l).
Proof.
  destruct l as [|a l]; [done|].
  unfold sel_text, sel_first. simpl. apply app_nil_r.
Qed.

(** The record that a kept card yields, field by field. *)
Lemma job_of_card_fields c sourceUrl j :
  job_of_card c sourceUrl = Some j ->
  Job.id j = Job.job_url j
  /\ Job.company j
     = stripTrailingNew (Some (from_option a_text [] (company_link c)))
  /\ Job.company_site j = normalizeSpace (a_href <$> company_link c)
  /\ Job.job_title j
     = stripTrailingNew (Some (default [] (head (job_title_texts c))))
  /\ Job.job_url j = normalizeSpace (job_link_href c)
  /\ Job.job_url j <> []
  /\ Job.apply_url j
     = or_else (normalizeSpace (head (apply_button_hrefs c)))
               (Job.job_url j)
  /\ Job.location j
     = normalizeSpace (Some (sel_text (map_marker_parent_texts c)))
  /\ Job.experience j
     = normalizeSpace (Some (sel_text (briefcase_parent_texts c)))
  /\ Job.posted j
     = normalizeSpace (Some (sel_text (clock_parent_texts c)))
  /\ Job.posted_age_days j = parsePostedAgeDays (Job.posted j)
  /\ Job.logo j = normalizeSpace (head (img_srcs c) ≫= (fun src => src))
  /\ Job.company_size j
     = normalizeSpace (Some (default [] (head (company_size_texts c))))
  /\ Job.funding_tags j
     = List.filter (fun s => negb (is_empty s))
         ((fun s => normalizeSpace (Some s)) <$> funding_tag_texts c)
  /\ Job.what_they_do j
     = normalizeSpace (Some (strip_what_they_do (what_they_do_text c)))
  /\ Job.industries j
     = List.filter (fun s => negb (is_empty s))
         ((fun s => normalizeSpace (Some s)) <$> industry_tag_texts c)
  /\ Job.source j = sourceUrl.
Proof.
  intros Hj. destruct (job_of_card_id _ _ _ Hj) as (_ & Hid & _).
  split; [exact Hid|]. clear Hid.
  unfold job_of_card in Hj. rewrite sel_attr_first in Hj.
  fold (company_link c) in Hj.
  replace (head _ ≫= (fun a => Some (a_href a)))
    with (job_link_href c) in Hj
    by (unfold job_link_href; by destruct (head _)).
  destruct (normalizeSpace (job_link_href c)) as [|u0 u] eqn:Hu;
    [done|].
  cbn [is_empty] in Hj. injection Hj as <-. cbn [Job.company
    Job.company_site Job.job_title Job.job_url Job.apply_url Job.location
    Job.experience Job.posted Job.posted_age_days Job.logo Job.company_size
    Job.funding_tags Job.what_they_do Job.industries Job.source].
  rewrite !sel_attr_first, !sel_text_first, sel_text_first_anchor.
  unfold company_link.
  set (companyA := head (List.filter _ (website_links c))).
  replace (companyA ≫= (fun a => Some (a_href a)))
    with (a_href <$> companyA) by (by destruct companyA).
  replace (head (apply_button_hrefs c) ≫= Some)
    with (head (apply_button_hrefs c))
    by (by destruct (head (apply_button_hrefs c))).
  repeat split; done.
Qed.


(** *** The trailing New of company names and titles *)

Lemma word_before_cons b a r :
  word_before b (a :: r) = word_before (is_word a) r.
Proof.
  unfold word_before. destruct r as [|c r]; [done|].
  rewrite last_cons_cons. destruct (last (c :: r)) eqn:Hl; [done|].
  by apply last_None in Hl.
Qed.

Lemma equals_ci_length p s :
  equals_ci p s = true -> length s = length p.
Proof.
  unfold equals_ci. intros [_ H]%andb_true_iff. by apply Nat.eqb_eq.
Qed.

(** The replace fires at the place where the word New ends the text. *)
Lemma strip_New_fires r w b :
  equals_ci (js "New") w = true -> word_before b r = false ->
  strip_New b (r ++ w) = r.
Proof.
  intros Hw. revert b. induction r as [|a r IH]; intros b Hb.
  - unfold word_before in Hb. simpl in Hb. subst b.
    destruct w as [|c w]; [done|]. simpl app. cbn [strip_New].
    by rewrite Hw.
  - simpl app. cbn [strip_New].
    assert (Hlen : equals_ci (js "New") (a :: r ++ w) = false).
    { apply not_true_iff_false. intros H%equals_ci_length.
      apply equals_ci_length in Hw. simpl in H.
      rewrite length_app, Hw in H. simpl in H. lia. }
    rewrite Hlen, andb_false_r. f_equal. apply IH.
    by rewrite word_before_cons in Hb.
Qed.

(** And it leaves alone a text that no such word ends. *)
Lemma strip_New_id s b :
  (forall r w, s = r ++ w -> equals_ci (js "New") w = true ->
               word_before b r = true) ->
  strip_New b s = s.
Proof.
  revert b. induction s as [|c s IH]; intros b Hs; [done|].
  cbn [strip_New].
  assert (Hhere : negb b && equals_ci (js "New") (c :: s) = false).
  { destruct (equals_ci (js "New") (c :: s)) eqn:He;
      [|by rewrite andb_false_r].
    specialize (Hs [] (c :: s) eq_refl He).
    unfold word_before in Hs. simpl in Hs. by rewrite Hs. }
  rewrite Hhere. f_equal. apply IH. intros r w -> Hw.
  rewrite <- word_before_cons with (b := b).
  by apply (Hs (c :: r) w).
Qed.

Lemma strip_tags_new_id s :
  (forall r w, s = r ++ w -> equals_ci (js "tags.new") w = false) ->
  strip_tags_new s = s.
Proof.
  induction s as [|c s IH]; intros Hs; [done|].
  cbn [strip_tags_new]. rewrite (Hs [] (c :: s) eq_refl).
  f_equal. apply IH. intros r w ->. by apply (Hs (c :: r) w).
Qed.

Lemma lower_ascii_letter a c :
  ((97 <=? a) && (a <=? 122))%N = true ->
  (lower_ascii a =? lower_ascii c)%N = true -> is_word c = true.
Proof.
  intros Ha Hc. unfold is_word.
  destruct ((65 <=? c) && (c <=? 90))%N eqn:Hupc.
  - by destruct (is_digit c).
  - unfold lower_ascii in Hc. rewrite Hupc in Hc.
    destruct ((65 <=? a) && (a <=? 90))%N eqn:Hup.
    + code_unit_cases; lia.
    + apply N.eqb_eq in Hc. subst c. rewrite Ha.
      by destruct (is_digit a).
Qed.

Lemma lower_ascii_other a c :
  ((65 <=? a) && (a <=? 90))%N = false ->
  ((97 <=? a) && (a <=? 122))%N = false ->
  (lower_ascii a =? lower_ascii c)%N = true -> c = a.
Proof.
  intros Hup Hlow Hc. apply N.eqb_eq in Hc. unfold lower_ascii in Hc.
  rewrite Hup in Hc.
  destruct ((65 <=? c) && (c <=? 90))%N eqn:Hupc; [|done].
  apply andb_true_iff in Hupc as [H1 H2].
  apply N.leb_le in H1, H2.
  assert (H97 : (97 <=? a)%N = true) by (apply N.leb_le; lia).
  assert (H122 : (a <=? 122)%N = true) by (apply N.leb_le; lia).
  by rewrite H97, H122 in Hlow.
Qed.

Lemma startsWith_ci_cons a p c s :
  startsWith_ci (a :: p) (c :: s)
  = (lower_ascii a =? lower_ascii c)%N && startsWith_ci p s.
Proof. reflexivity. Qed.

(** A text that ends in tags.new ends in the word New. *)
Lemma equals_ci_tags_new_split w :
  equals_ci (js "tags.new") w = true ->
  exists x y, w = x ++ y
    /\ equals_ci (js "New") y = true
    /\ last x = Some 46%N
    /\ word_before false w = true.
Proof.
  intros H. pose proof (equals_ci_length _ _ H) as Hlen.
  destruct w as [|c1 [|c2 [|c3 [|c4 [|c5 [|c6 [|c7 [|c8 [|c9 w]]]]]]]]];
    try discriminate Hlen.
  unfold equals_ci in H. apply andb_true_iff in H as [H _].
  change (js "tags.new")
    with [116; 97; 103; 115; 46; 110; 101; 119]%N in H.
  rewrite !startsWith_ci_cons in H.
  apply andb_true_iff in H as [_ H]. apply andb_true_iff in H as [_ H].
  apply andb_true_iff in H as [_ H]. apply andb_true_iff in H as [_ H].
  apply andb_true_iff in H as [Hdot H].
  apply andb_true_iff in H as [Hn H]. apply andb_true_iff in H as [He H].
  apply andb_true_iff in H as [Hw _].
  exists [c1; c2; c3; c4; c5], [c6; c7; c8].
  split; [done|]. split; [|split].
  - unfold equals_ci. change (js "New") with [78; 101; 119]%N.
    rewrite !startsWith_ci_cons.
    change (lower_ascii 78) with (lower_ascii 110).
    by rewrite Hn, He, Hw.
  - cbn [last]. f_equal. by apply (lower_ascii_other 46%N).
  - unfold word_before. cbn [last].
    by apply (lower_ascii_letter 119%N).
Qed.

Lemma word_before_app b x y :
  y <> [] -> word_before b (x ++ y) = word_before false y.
Proof.
  intros Hy. unfold word_before. rewrite last_app.
  destruct (last y) eqn:Hl; [done|].
  apply last_None in Hl. done.
Qed.

Lemma stripTrailingNew_fires r w :
  equals_ci (js "New") w = true -> word_before false r = false ->
  stripTrailingNew (Some (r ++ w)) = normalizeSpace (Some r).
Proof.
  intros Hw Hr. unfold stripTrailingNew. simpl nullish.
  rewrite strip_New_fires by done. f_equal. f_equal.
  apply strip_tags_new_id. intros r' w' -> .
  apply not_true_iff_false. intros Ht.
  apply equals_ci_tags_new_split in Ht as (_ & _ & _ & _ & _ & Hlast).
  rewrite word_before_app in Hr; [congruence|].
  intros ->. done.
Qed.

Lemma stripTrailingNew_id s :
  ~ ends_with_New s -> stripTrailingNew (Some s) = normalizeSpace (Some s).
Proof.
  intros Hs. unfold stripTrailingNew. simpl nullish.
  rewrite strip_New_id.
  - f_equal. f_equal. apply strip_tags_new_id. intros r w ->.
    apply not_true_iff_false. intros Ht.
    apply equals_ci_tags_new_split in Ht as (x & y & -> & Hy & Hx & _).
    apply Hs. exists (r ++ x), y. split; [by rewrite app_assoc|].
    split; [done|]. unfold word_before.
    rewrite last_app, Hx. done.
  - intros r w -> Hw. apply not_false_iff_true. intros Hr.
    apply Hs. by exists r, w.
Qed.


Lemma normalizeSpace_opt o : normalizeSpace o = unwords (words (nullish o)).
Proof. destruct o as [s|]; [apply normalizeSpace_unwords | done]. Qed.


(** C7 (amended).  Every text field of an extracted record is a source text
    of the card with its whitespace runs collapsed to single spaces and its
    ends trimmed, that is, the words of the source text with one space
    between them.  The source text is taken as it is for [location],
    [experience], [posted], [company_size], [company_site], [logo],
    [job_url], the apply link and every funding tag and industry (a tag
    that normalises to the empty string is left out); for [company] and
    [job_title] it is the text without the word New (in any letter case)
    that ends it, if one does; for [what_they_do] it is the text of the
    labelled blocks without the first what-they-do label.  [apply_url] is
    the normalised apply link, or [job_url] when that is empty. *)
Theorem text_fields_are_normalized (c : card) (sourceUrl : jsstring)
    (j : Job.t) :
  job_of_card c sourceUrl = Some j ->
  Job.location j = unwords (words (sel_text (map_marker_parent_texts c)))
  /\ Job.experience j
     = unwords (words (sel_text (briefcase_parent_texts c)))
  /\ Job.posted j = unwords (words (sel_text (clock_parent_texts c)))
  /\ Job.company_size j
     = unwords (words (default [] (head (company_size_texts c))))
  /\ Job.company_site j
     = unwords (words (from_option a_href [] (company_link c)))
  /\ Job.logo j
     = unwords (words (default [] (head (img_srcs c) ≫= (fun s => s))))
  /\ Job.job_url j = unwords (words (default [] (job_link_href c)))
  /\ Job.apply_url j
     = or_else (unwords (words (default [] (head (apply_button_hrefs c)))))
               (Job.job_url j)
  /\ Job.funding_tags j
     = List.filter (fun s => negb (is_empty s))
         ((fun s => unwords (words s)) <$> funding_tag_texts c)
  /\ Job.industries j
     = List.filter (fun s => negb (is_empty s))
         ((fun s => unwords (words s)) <$> industry_tag_texts c)
  /\ (forall r w,
        from_option a_text [] (company_link c) = r ++ w ->
        equals_ci (js "New") w = true -> word_before false r = false ->
        Job.company j = unwords (words r))
  /\ (~ ends_with_New (from_option a_text [] (company_link c)) ->
      Job.company j
      = unwords (words (from_option a_text [] (company_link c))))
  /\ (forall r w,
        default [] (head (job_title_texts c)) = r ++ w ->
        equals_ci (js "New") w = true -> word_before false r = false ->
        Job.job_title j = unwords (words r))
  /\ (~ ends_with_New (default [] (head (job_title_texts c))) ->
      Job.job_title j
      = unwords (words (default [] (head (job_title_texts c)))))
  /\ Job.what_they_do j
     = unwords (words (strip_what_they_do (what_they_do_text c))).
Proof.
  intros Hj.
  destruct (job_of_card_fields _ _ _ Hj)
    as (_ & Hcompany & Hsite & Htitle & Hurl & Hurl_ne & Happly & Hloc
        & Hexp & Hposted & Hage & Hlogo & Hsize & Hfund & Hwhat & Hind & _).
  assert (Hmap : forall l : list jsstring,
            (fun s => normalizeSpace (Some s)) <$> l
            = (fun s => unwords (words s)) <$> l).
  { intros l. apply list_fmap_ext. intros _ s _.
    apply normalizeSpace_unwords. }
  rewrite Hmap in Hfund, Hind.
  rewrite normalizeSpace_opt in Hsite, Hurl, Happly, Hloc, Hexp, Hposted,
    Hlogo, Hsize, Hwhat.
  repeat apply conj; try done.
  - rewrite Hsite. by destruct (company_link c).
  - intros r w Hsrc Hw Hr.
    rewrite Hcompany, Hsrc, stripTrailingNew_fires by done.
    apply normalizeSpace_unwords.
  - intros Hno. rewrite Hcompany, stripTrailingNew_id by done.
    apply normalizeSpace_unwords.
  - intros r w Hsrc Hw Hr.
    rewrite Htitle, Hsrc, stripTrailingNew_fires by done.
    apply normalizeSpace_unwords.
  - intros Hno. rewrite Htitle, stripTrailingNew_id by done.
    apply normalizeSpace_unwords.
Qed.


(** ** The retry loop *)

Section FetchFacts.

Context {E : Type} (net : jsstring -> fetch_options -> nat -> attempt_outcome E).
Context (url : jsstring) (options : fetch_options).

Lemma retry_loop_S remaining attempt lastErr :
  retry_loop E net url options (S remaining) attempt lastErr
  = match try_attempt E (net url options attempt) with
    | inr html => ([EvGet url attempt], Returns html)
    | inl e =>
        let '(events, result) :=
          retry_loop E net url options remaining (S attempt) (Some e) in
        (EvGet url attempt
           :: (if (attempt <? retries options)%nat
               then [EvSleep (retryBackoffMs options * N.of_nat attempt)]
               else [])
           ++ events,
         result)
    end.
Proof. reflexivity. Qed.

Lemma retry_loop_gets remaining attempt lastErr :
  length (gets (fst (retry_loop E net url options remaining attempt lastErr)))
  <= remaining.
Proof.
  revert attempt lastErr.
  induction remaining as [|n IH]; intros attempt lastErr; [simpl; lia|].
  rewrite retry_loop_S.
  destruct (try_attempt E (net url options attempt)) as [e|html];
    simpl; [|lia].
  specialize (IH (S attempt) (Some e)).
  destruct (retry_loop E net url options n (S attempt) (Some e))
    as [events result].
  simpl in *. destruct (attempt <? retries options); simpl; lia.
Qed.

(** The loop when every attempt that is left fails. *)
Lemma retry_loop_exhausted remaining attempt lastErr e_last :
  attempt + remaining = retries options ->
  (forall k, attempt <= k < retries options ->
     exists e, try_attempt E (net url options k) = inl e) ->
  try_attempt E (net url options (retries options)) = inl e_last ->
  retry_loop E net url options (S remaining) attempt lastErr
  = (failed_attempts url (retryBackoffMs options) attempt remaining
       ++ [EvGet url (retries options)],
     Throws (Some e_last)).
Proof.
  revert attempt lastErr.
  induction remaining as [|n IH]; intros attempt lastErr Hsum Hfail Hlast.
  - assert (Heq : attempt = retries options) by lia.
    rewrite retry_loop_S, Heq, Hlast. simpl.
    by rewrite Nat.ltb_irrefl.
  - destruct (Hfail attempt ltac:(lia)) as [e He].
    rewrite retry_loop_S, He.
    rewrite (IH (S attempt) (Some e)); [|lia| |done].
    + assert (Hlt : (attempt <? retries options) = true)
        by (apply Nat.ltb_lt; lia).
      rewrite Hlt. done.
    + intros k Hk. apply Hfail. lia.
Qed.

(** The loop when the attempts fail up to one that succeeds. *)
Lemma retry_loop_succeeds failures remaining attempt lastErr html :
  attempt + failures < attempt + remaining ->
  attempt + remaining <= S (retries options) ->
  (forall k, attempt <= k < attempt + failures ->
     exists e, try_attempt E (net url options k) = inl e) ->
  try_attempt E (net url options (attempt + failures)) = inr html ->
  retry_loop E net url options remaining attempt lastErr
  = (failed_attempts url (retryBackoffMs options) attempt failures
       ++ [EvGet url (attempt + failures)],
     Returns html).
Proof.
  revert remaining attempt lastErr.
  induction failures as [|n IH];
    intros remaining attempt lastErr Hrem Hmax Hfail Hok.
  - destruct remaining as [|remaining]; [lia|].
    rewrite Nat.add_0_r in *. rewrite retry_loop_S, Hok. done.
  - destruct remaining as [|remaining]; [lia|].
    destruct (Hfail attempt ltac:(lia)) as [e He].
    rewrite retry_loop_S, He.
    rewrite (IH remaining (S attempt) (Some e) ltac:(lia) ltac:(lia)).
    + assert (Hlt : (attempt <? retries options) = true)
        by (apply Nat.ltb_lt; lia).
      rewrite Hlt. replace (S attempt + n) with (attempt + S n) by lia.
      done.
    + intros k Hk. apply Hfail. lia.
    + by replace (S attempt + n) with (attempt + S n) by lia.
Qed.

End FetchFacts.


(** ** The delimited table *)

Lemma needs_quoting_iff v :
  needs_quoting v = true
  <-> exists c, c ∈ v /\ (c = comma \/ c = dquote \/ c = newline).
Proof.
  unfold needs_quoting. rewrite existsb_elem_of.
  split; intros (c & Hc & H); exists c; (split; [done|]).
  - apply orb_true_iff in H as [H|H];
      [apply orb_true_iff in H as [H|H]|]; apply N.eqb_eq in H; auto.
  - destruct H as [-> | [-> | ->]]; done.
Qed.

Lemma needs_quoting_cons c v :
  needs_quoting (c :: v) = false ->
  (c =? comma)%N = false /\ (c =? newline)%N = false
  /\ (c =? dquote)%N = false /\ needs_quoting v = false.
Proof.
  unfold needs_quoting. simpl.
  intros [H Hv]%orb_false_iff.
  apply orb_false_iff in H as [H Hn]. apply orb_false_iff in H as [Hq Hc].
  done.
Qed.

(** Reading the inside of a quoted cell up to its closing quote. *)
Lemma csv_read_quoted v cell row rest :
  csv_read InQuoted cell row (double_quotes v ++ dquote :: rest)
  = csv_read AfterQuote (rev v ++ cell) row rest.
Proof.
  revert cell. induction v as [|c v IH]; intros cell; [done|].
  cbn [double_quotes]. destruct (c =? dquote)%N eqn:Hc.
  - apply N.eqb_eq in Hc. subst c. simpl app. cbn [csv_read].
    change (dquote =? dquote)%N with true. cbn iota.
    rewrite IH. simpl rev. by rewrite <- app_assoc.
  - simpl app. cbn [csv_read]. rewrite Hc, IH.
    simpl rev. by rewrite <- app_assoc.
Qed.

(** Reading an unquoted cell up to the separator that follows it. *)
Lemma csv_read_plain v st cell row rest :
  needs_quoting v = false ->
  st = CellStart \/ st = InPlain ->
  csv_read st cell row (v ++ rest)
  = csv_read (match v with [] => st | _ => InPlain end)
             (rev v ++ cell) row rest.
Proof.
  revert st cell. induction v as [|c v IH]; intros st cell Hv Hst; [done|].
  apply needs_quoting_cons in Hv as (Hc & Hn & Hq & Hv).
  simpl app.
  assert (Hstep : csv_read st cell row (c :: v ++ rest)
                  = csv_read InPlain (c :: cell) row (v ++ rest)).
  { destruct Hst as [-> | ->]; cbn [csv_read]; by rewrite Hc, Hn, Hq. }
  rewrite Hstep, IH by auto.
  simpl rev. rewrite <- app_assoc. by destruct v.
Qed.

Lemma csv_read_cell_comma v row rest :
  csv_read CellStart [] row (csvEscape v ++ comma :: rest)
  = csv_read CellStart [] (v :: row) rest.
Proof.
  unfold csvEscape. destruct (needs_quoting v) eqn:Hv.
  - simpl app. cbn [csv_read].
    change (dquote =? comma)%N with false.
    change (dquote =? newline)%N with false.
    change (dquote =? dquote)%N with true. cbn iota.
    rewrite <- app_assoc. simpl app. rewrite csv_read_quoted.
    cbn [csv_read]. change (comma =? dquote)%N with false.
    change (comma =? comma)%N with true. cbn iota.
    by rewrite app_nil_r, rev_involutive.
  - rewrite csv_read_plain by auto.
    rewrite app_nil_r.
    destruct v; cbn [csv_read]; change (comma =? comma)%N with true;
      cbn iota; [done|]. by rewrite rev_involutive.
Qed.

Lemma csv_read_cell_newline v row rest :
  csv_read CellStart [] row (csvEscape v ++ newline :: rest)
  = cons (rev (v :: row)) <$> csv_read CellStart [] [] rest.
Proof.
  unfold csvEscape. destruct (needs_quoting v) eqn:Hv.
  - simpl app. cbn [csv_read].
    change (dquote =? comma)%N with false.
    change (dquote =? newline)%N with false.
    change (dquote =? dquote)%N with true. cbn iota.
    rewrite <- app_assoc. simpl app. rewrite csv_read_quoted.
    cbn [csv_read]. change (newline =? dquote)%N with false.
    change (newline =? comma)%N with false.
    change (newline =? newline)%N with true. cbn iota.
    by rewrite app_nil_r, rev_involutive.
  - rewrite csv_read_plain by auto.
    rewrite app_nil_r.
    destruct v; cbn [csv_read]; change (newline =? comma)%N with false;
      change (newline =? newline)%N with true; cbn iota; [done|].
    by rewrite rev_involutive.
Qed.

(** Reading one line of the table. *)
Lemma csv_read_row cells acc rest :
  cells <> [] ->
  csv_read CellStart [] acc
    (join [comma] (csvEscape <$> cells) ++ newline :: rest)
  = cons (rev acc ++ cells) <$> csv_read CellStart [] [] rest.
Proof.
  intros Hne. revert acc.
  induction cells as [|c cells IH]; intros acc; [done|].
  destruct cells as [|c' cells].
  - simpl. rewrite csv_read_cell_newline. done.
  - change (join [comma] (csvEscape <$> c :: c' :: cells))
      with (csvEscape c ++ [comma]
              ++ join [comma] (csvEscape <$> c' :: cells)).
    rewrite <- !app_assoc. simpl app at 2.
    rewrite csv_read_cell_comma, IH by done.
    simpl rev. by rewrite <- app_assoc.
Qed.

Lemma join_cons_ne sep p (l : list jsstring) :
  l <> [] -> join sep (p :: l) = p ++ sep ++ join sep l.
Proof. by destruct l. Qed.

Lemma csv_parse_csvLines rows :
  rows <> [] -> Forall (fun row => row <> []) rows ->
  csv_parse (csvLines rows) = Some rows.
Proof.
  unfold csv_parse, csvLines. intros Hne Hrows.
  induction rows as [|row rows IH]; [done|].
  apply Forall_cons in Hrows as [Hrow Hrows].
  destruct rows as [|row' rows].
  - simpl. rewrite (csv_read_row row [] []) by done. done.
  - rewrite fmap_cons, join_cons_ne by done.
    rewrite <- !app_assoc.
    change ([newline] ++ ?rest) with (newline :: rest).
    rewrite (csv_read_row row []) by done.
    rewrite IH by done. done.
Qed.



(** * Further properties of the code *)

(** ** The canonical form of normalised text *)

(** A word: not empty, and no whitespace in it. *)
Lemma words_from_good cur s :
  forallb (fun c => negb (is_ws c)) cur = true ->
  Forall (fun w => w <> [] /\ forallb (fun c => negb (is_ws c)) w = true)
         (words_from cur s).
Proof.
  revert cur. induction s as [|c s IH]; intros cur Hcur; simpl.
  - destruct cur as [|c0 cur]; [constructor|].
    constructor; [|constructor]. split.
    + simpl. by destruct (rev cur).
    + rewrite forallb_forall in *. intros x Hx. apply Hcur.
      by apply in_rev.
  - destruct (is_ws c) eqn:Hc.
    + destruct cur as [|c0 cur]; [by apply IH|].
      constructor; [|by apply IH]. split.
      * simpl. by destruct (rev cur).
      * rewrite forallb_forall in *. intros x Hx. apply Hcur.
        by apply in_rev.
    + apply IH. simpl. by rewrite Hc, Hcur.
Qed.

Lemma words_good s :
  Forall (fun w => w <> [] /\ forallb (fun c => negb (is_ws c)) w = true)
         (words s).
Proof. by apply words_from_good. Qed.

Lemma words_from_word w cur rest :
  forallb (fun c => negb (is_ws c)) w = true ->
  words_from cur (w ++ rest) = words_from (rev w ++ cur) rest.
Proof.
  revert cur. induction w as [|c w IH]; intros cur Hw; [done|].
  simpl in Hw. apply andb_true_iff in Hw as [Hc Hw].
  apply negb_true_iff in Hc. simpl. rewrite Hc, IH by done.
  by rewrite <- app_assoc.
Qed.

(** Writing words with single spaces and reading the words again gives
    the words back. *)
Lemma words_unwords ws :
  Forall (fun w => w <> [] /\ forallb (fun c => negb (is_ws c)) w = true)
         ws ->
  words (unwords ws) = ws.
Proof.
  unfold words. induction 1 as [|w ws [Hne Hw] Hws IH]; [done|].
  rewrite unwords_cons. destruct ws as [|w' ws].
  - rewrite <- (app_nil_r w) at 1. rewrite words_from_word by done.
    rewrite app_nil_r. simpl. rewrite rev_involutive.
    destruct (rev w) eqn:Hr; [|done].
    apply (f_equal (@rev N)) in Hr. rewrite rev_involutive in Hr. done.
  - rewrite words_from_word by done. rewrite app_nil_r.
    cbn [words_from]. rewrite is_ws_space, IH, rev_involutive.
    destruct (rev w) eqn:Hr; [|done].
    apply (f_equal (@rev N)) in Hr. rewrite rev_involutive in Hr. done.
Qed.

Lemma single_spaced_word w rest :
  w <> [] -> forallb (fun c => negb (is_ws c)) w = true ->
  single_spaced (w ++ rest) = single_spaced rest.
Proof.
  intros _. induction w as [|c w IH]; intros Hw; [done|].
  simpl in Hw. apply andb_true_iff in Hw as [Hc Hw].
  simpl. rewrite Hc. simpl. by apply IH.
Qed.

Lemma single_spaced_unwords ws :
  Forall (fun w => w <> [] /\ forallb (fun c => negb (is_ws c)) w = true)
         ws ->
  single_spaced (unwords ws) = true.
Proof.
  induction 1 as [|w ws [Hne Hw] Hws IH]; [done|].
  rewrite unwords_cons. destruct ws as [|w' ws].
  - rewrite <- (app_nil_r w). by rewrite single_spaced_word.
  - rewrite single_spaced_word by done.
    cbn [single_spaced]. rewrite IH, andb_true_r.
    apply Forall_cons in Hws as [[Hne' Hw'] _].
    rewrite unwords_cons. destruct w' as [|c' w']; [done|].
    simpl in Hw'. apply andb_true_iff in Hw' as [Hc' _].
    change (is_ws space) with true. change (space =? space)%N with true.
    simpl. by destruct ws; simpl; rewrite Hc'.
Qed.

Lemma normalizeSpace_idem s :
  normalizeSpace (Some (normalizeSpace s)) = normalizeSpace s.
Proof.
  rewrite (normalizeSpace_opt s), normalizeSpace_unwords.
  by rewrite words_unwords by apply words_good.
Qed.

Lemma unwords_ends ws c :
  Forall (fun w => w <> [] /\ forallb (fun c => negb (is_ws c)) w = true)
         ws ->
  head (unwords ws) = Some c \/ last (unwords ws) = Some c ->
  is_ws c = false.
Proof.
  intros Hws. assert (Htrim : trim (unwords ws) = unwords ws).
  { rewrite <- (words_unwords ws Hws) at 1 2.
    rewrite <- normalizeSpace_unwords. apply trim_normalizeSpace. }
  intros [Hc|Hc].
  - unfold trim, trimStart in Htrim.
    destruct (unwords ws) as [|c0 u] eqn:Hu; [done|].
    injection Hc as ->.
    destruct (is_ws c) eqn:Hws'; [|done]. exfalso.
    simpl in Htrim. rewrite Hws' in Htrim.
    apply (f_equal length) in Htrim.
    assert (Hlen : forall x, length (trimEnd (drop_while is_ws x))
                             <= length x).
    { intros x. unfold trimEnd. rewrite length_rev.
      assert (Hd : forall y, length (drop_while is_ws y) <= length y).
      { induction y as [|a y IHy]; simpl; [lia|].
        destruct (is_ws a); simpl; lia. }
      etrans; [apply Hd|]. rewrite length_rev. apply Hd. }
    specialize (Hlen u). simpl in Htrim. lia.
  - destruct (is_ws c) eqn:Hws'; [|done]. exfalso.
    apply last_Some in Hc as (u & Hu).
    rewrite Hu in Htrim. unfold trim in Htrim.
    assert (Hend : forall x, trimEnd x = u ++ [c] -> False).
    { intros x Hx. unfold trimEnd in Hx.
      apply (f_equal (@rev N)) in Hx.
      rewrite rev_involutive, rev_app_distr in Hx. simpl in Hx.
      apply drop_while_head in Hx. congruence. }
    by apply Hend in Htrim.
Qed.

(** X1.  [normalizeSpace] yields a canonical form: normalising again
    changes nothing, the words of the text are kept, every whitespace left
    is a single U+0020 between two words, and the result neither starts nor
    ends with whitespace. *)
Theorem normalizeSpace_canonical (s : option jsstring) :
  normalizeSpace (Some (normalizeSpace s)) = normalizeSpace s
  /\ words (normalizeSpace s) = words (nullish s)
  /\ single_spaced (normalizeSpace s) = true
  /\ trim (normalizeSpace s) = normalizeSpace s
  /\ (forall c, head (normalizeSpace s) = Some c
                \/ last (normalizeSpace s) = Some c ->
                is_ws c = false).
Proof.
  repeat apply conj.
  - apply normalizeSpace_idem.
  - rewrite normalizeSpace_opt. apply words_unwords, words_good.
  - rewrite normalizeSpace_opt. apply single_spaced_unwords, words_good.
  - apply trim_normalizeSpace.
  - intros c. rewrite normalizeSpace_opt. apply unwords_ends, words_good.
Qed.


(** ** The two replaces of stripTrailingNew *)

(** The first replace either leaves the text alone or removes the three
    letters that end it. *)
Lemma strip_New_cases s b :
  strip_New b s = s
  \/ exists r w, s = r ++ w /\ equals_ci (js "New") w = true
                 /\ word_before b r = false /\ strip_New b s = r.
Proof.
  revert b. induction s as [|c s IH]; intros b; [by left|].
  cbn [strip_New].
  destruct (negb b && equals_ci (js "New") (c :: s)) eqn:Hhere.
  - right. apply andb_true_iff in Hhere as [Hb Hw].
    apply negb_true_iff in Hb. exists [], (c :: s).
    repeat split; done.
  - destruct (IH (is_word c)) as [Hid|(r & w & -> & Hw & Hr & Hs)].
    + left. by rewrite Hid.
    + right. exists (c :: r), w. repeat split; try done.
      * by rewrite word_before_cons.
      * by rewrite Hs.
Qed.

Lemma strip_tags_new_no_word_end r :
  word_before false r = false -> strip_tags_new r = r.
Proof.
  intros Hr. apply strip_tags_new_id. intros r' w' ->.
  apply not_true_iff_false. intros Ht.
  apply equals_ci_tags_new_split in Ht as (_ & _ & _ & _ & _ & Hlast).
  rewrite word_before_app in Hr; [congruence|].
  intros ->. done.
Qed.

Lemma strip_tags_new_after_strip_New s :
  strip_tags_new (strip_New false s) = strip_New false s.
Proof.
  destruct (strip_New_cases s false) as [Hid|(r & w & -> & Hw & Hr & Hs)].
  - rewrite Hid. apply strip_tags_new_id. intros r w -> .
    apply not_true_iff_false. intros Ht.
    apply equals_ci_tags_new_split in Ht as (x & y & -> & Hy & Hx & _).
    assert (Hfire : strip_New false ((r ++ x) ++ y) = r ++ x).
    { apply strip_New_fires; [done|]. unfold word_before.
      by rewrite last_app, Hx. }
    rewrite <- app_assoc, Hid in Hfire.
    apply (f_equal length) in Hfire. rewrite !length_app in Hfire.
    apply equals_ci_length in Hy. simpl in Hy. lia.
  - rewrite Hs. by apply strip_tags_new_no_word_end.
Qed.

(** X2.  In [stripTrailingNew] the second replace, of a trailing tags.new,
    never changes anything: whatever it could match has lost its last three
    letters to the first replace.  So [stripTrailingNew(s)] is
    [normalizeSpace] of [s] without the word New that ends it, and the
    first replace removes the last three code units or nothing. *)
Theorem stripTrailingNew_second_replace_is_idle (s : jsstring) :
  strip_tags_new (strip_New false s) = strip_New false s
  /\ stripTrailingNew (Some s) = normalizeSpace (Some (strip_New false s))
  /\ (strip_New false s = s
      \/ exists w, length w = 3 /\ s = strip_New false s ++ w).
Proof.
  repeat apply conj.
  - apply strip_tags_new_after_strip_New.
  - unfold stripTrailingNew. simpl nullish.
    by rewrite strip_tags_new_after_strip_New.
  - destruct (strip_New_cases s false) as [Hid|(r & w & -> & Hw & Hr & Hs)];
      [by left|right].
    exists w. split; [by apply equals_ci_length in Hw|]. by rewrite Hs.
Qed.


(** ** The range of posted ages *)

Lemma match_count_here_digits unit s ds :
  match_count_here unit s = Some ds ->
  ds <> [] /\ forallb is_digit ds = true.
Proof.
  unfold match_count_here.
  destruct (take_while is_digit s) as [|d ds'] eqn:Htake; [done|].
  cbn [is_empty]. destruct (startsWith _ _); [|done].
  intros [= <-]. split; [done|]. rewrite <- Htake. apply take_while_all.
Qed.

Lemma match_count_digits unit t ds :
  match_count unit t = Some ds -> ds <> [] /\ forallb is_digit ds = true.
Proof.
  induction t as [|c t IH]; cbn [match_count].
  - destruct (match_count_here unit []) eqn:Hhere; [|done].
    intros [= <-]. by eapply match_count_here_digits.
  - destruct (match_count_here unit (c :: t)) eqn:Hhere; [|exact IH].
    intros [= <-]. by eapply match_count_here_digits.
Qed.

Lemma digits_fold_nonneg ds acc :
  forallb is_digit ds = true -> (0 <= acc)%Z ->
  (0 <= fold_left (fun a c => 10 * a + (Z.of_N c - 48)) ds acc)%Z.
Proof.
  revert acc. induction ds as [|d ds IH]; intros acc Hds Hacc; [done|].
  simpl in *. apply andb_true_iff in Hds as [Hd Hds].
  apply IH; [done|]. unfold is_digit in Hd. code_unit_cases. lia.
Qed.

Lemma digits_value_nonneg ds :
  forallb is_digit ds = true -> (0 <= digits_value ds)%Z.
Proof. intros Hds. by apply digits_fold_nonneg. Qed.

Lemma round_to_double_range n :
  (0 <= n)%Z ->
  round_to_double n = JPosInf
  \/ exists z, (0 <= z)%Z /\ round_to_double n = JInt z.
Proof.
  intros Hn. unfold round_to_double.
  destruct (n <? 2 ^ 53)%Z; [right; eauto|].
  cbv zeta. set (k := (Z.log2 n - 52)%Z).
  assert (Hp : (0 <= 2 ^ k)%Z).
  { destruct (Z.le_gt_cases 0 k) as [Hk|Hk].
    - by apply Z.pow_nonneg.
    - by rewrite Z.pow_neg_r. }
  assert (Hq : (0 <= n / 2 ^ k)%Z).
  { destruct (Z.le_gt_cases 0 k) as [Hk|Hk].
    - apply Z.div_pos; [done|]. by apply Z.pow_pos_nonneg.
    - rewrite Z.pow_neg_r by done. by destruct n. }
  match goal with
  | |- context [Z.leb _ (?m0 * _)] => set (m := m0)
  end.
  assert (Hm : (0 <= m)%Z).
  { subst m.
    destruct ((2 ^ (k - 1) <? n mod 2 ^ k)
              || (n mod 2 ^ k =? 2 ^ (k - 1)) && Z.odd (n / 2 ^ k))%Z; lia. }
  destruct (2 ^ 1024 <=? m * 2 ^ k)%Z; [by left|right].
  eexists. split; [|done]. by apply Z.mul_nonneg_nonneg.
Qed.

Lemma parsePostedAgeDays_range postedText n :
  parsePostedAgeDays postedText = Some n ->
  n = JPosInf \/ exists z, (0 <= z)%Z /\ n = JInt z.
Proof.
  unfold parsePostedAgeDays.
  set (t := toLowerCase (normalizeSpace (Some postedText))).
  destruct (is_empty t); [done|].
  destruct (includes (js "today") t); [intros [= <-]; right; by exists 0%Z|].
  destruct (match_count (js "day") t) as [ds|] eqn:Hday.
  - intros [= <-]. apply match_count_digits in Hday as [_ Hds].
    apply round_to_double_range. by apply digits_value_nonneg.
  - destruct (match_count (js "hour") t);
      [intros [= <-]; right; by exists 0%Z|].
    destruct (match_count (js "minute") t);
      [intros [= <-]; right; by exists 0%Z|done].
Qed.

(** *** Letter case and whitespace do not matter *)

Lemma is_ws_lower_ascii c : is_ws (lower_ascii c) = is_ws c.
Proof.
  unfold lower_ascii.
  destruct ((65 <=? c) && (c <=? 90))%N eqn:Hup; [|done].
  apply andb_true_iff in Hup as [H1 H2]. apply N.leb_le in H1, H2.
  assert (Hc : is_ws c = false).
  { apply not_true_iff_false. intros H. unfold is_ws in H.
    code_unit_cases; lia. }
  rewrite Hc. apply not_true_iff_false. intros H. unfold is_ws in H.
  code_unit_cases; lia.
Qed.

Lemma replace_ws_runs_lower b s :
  replace_ws_runs b (lower_ascii <$> s)
  = lower_ascii <$> replace_ws_runs b s.
Proof.
  revert b. induction s as [|c s IH]; intros b; [done|].
  rewrite fmap_cons. cbn [replace_ws_runs]. rewrite is_ws_lower_ascii.
  destruct (is_ws c); [destruct b|]; rewrite ?fmap_cons, IH; done.
Qed.

Lemma drop_while_ws_lower s :
  drop_while is_ws (lower_ascii <$> s) = lower_ascii <$> drop_while is_ws s.
Proof.
  induction s as [|c s IH]; [done|].
  rewrite fmap_cons. cbn [drop_while]. rewrite is_ws_lower_ascii.
  by destruct (is_ws c).
Qed.

Lemma rev_lower s : rev (lower_ascii <$> s) = lower_ascii <$> rev s.
Proof.
  induction s as [|c s IH]; [done|].
  rewrite fmap_cons. simpl. by rewrite IH, fmap_app.
Qed.

Lemma normalizeSpace_lower s :
  normalizeSpace (Some (lower_ascii <$> s))
  = lower_ascii <$> normalizeSpace (Some s).
Proof.
  unfold normalizeSpace, trim, trimStart, trimEnd. simpl nullish.
  by rewrite replace_ws_runs_lower, drop_while_ws_lower, rev_lower,
    drop_while_ws_lower, rev_lower.
Qed.

Lemma forallb_drop_while p q (s : jsstring) :
  forallb p s = true -> forallb p (drop_while q s) = true.
Proof.
  induction s as [|c s IH]; [done|]. simpl.
  intros [Hc Hs]%andb_true_iff.
  destruct (q c); [by apply IH|]. simpl. by rewrite Hc, Hs.
Qed.

Lemma forallb_rev p (s : jsstring) :
  forallb p s = true -> forallb p (rev s) = true.
Proof.
  rewrite !forallb_forall. intros H x Hx. apply H. by apply in_rev.
Qed.

Lemma forallb_replace_ws_runs p b s :
  p space = true -> forallb p s = true ->
  forallb p (replace_ws_runs b s) = true.
Proof.
  intros Hsp. revert b. induction s as [|c s IH]; intros b; [done|].
  simpl. intros [Hc Hs]%andb_true_iff.
  destruct (is_ws c); [destruct b|]; simpl;
    rewrite ?Hsp, ?Hc, ?IH; done.
Qed.

Lemma forallb_normalizeSpace p s :
  p space = true -> forallb p s = true ->
  forallb p (normalizeSpace (Some s)) = true.
Proof.
  intros Hsp Hs. unfold normalizeSpace, trim, trimStart, trimEnd.
  simpl nullish.
  apply forallb_rev, forallb_drop_while, forallb_rev, forallb_drop_while.
  by apply forallb_replace_ws_runs.
Qed.

Lemma toLowerCase_normalizeSpace_ascii s :
  forallb is_ascii s = true ->
  toLowerCase (normalizeSpace (Some s))
  = normalizeSpace (Some (lower_ascii <$> s)).
Proof.
  intros Hs. unfold toLowerCase.
  rewrite forallb_normalizeSpace by done.
  by rewrite normalizeSpace_lower.
Qed.

(** X3.  The parsed age is never negative, fractional or NaN: it is
    unknown, a non-negative integer, or Infinity (for a run of digits
    beyond the double range).  It depends neither on how the whitespace of
    the text is laid out nor, for ASCII text, on letter case. *)
Theorem parsePostedAgeDays_range_and_insensitivity (postedText : jsstring) :
  (forall n, parsePostedAgeDays postedText = Some n ->
     n = JPosInf \/ exists z, (0 <= z)%Z /\ n = JInt z)
  /\ parsePostedAgeDays (normalizeSpace (Some postedText))
     = parsePostedAgeDays postedText
  /\ (forall other,
        forallb is_ascii postedText = true ->
        forallb is_ascii other = true ->
        lower_ascii <$> other = lower_ascii <$> postedText ->
        parsePostedAgeDays other = parsePostedAgeDays postedText).
Proof.
  repeat apply conj.
  - apply parsePostedAgeDays_range.
  - unfold parsePostedAgeDays. by rewrite normalizeSpace_idem.
  - intros other Hs Ho Heq. unfold parsePostedAgeDays.
    by rewrite !toLowerCase_normalizeSpace_ascii, Heq by done.
Qed.


(** ** Every run of the retry loop *)

Section FetchRuns.

Context {E : Type} (net : jsstring -> fetch_options -> nat -> attempt_outcome E).
Context (url : jsstring) (options : fetch_options).

(** The loop from [attempt] on either returns at the first attempt that
    succeeds, or runs through all the attempts that are left. *)
Lemma retry_loop_shapes remaining attempt lastErr :
  attempt + remaining = S (retries options) ->
  (exists failures html,
      attempt + failures <= retries options
      /\ (forall k, attempt <= k < attempt + failures ->
            exists e, try_attempt E (net url options k) = inl e)
      /\ try_attempt E (net url options (attempt + failures)) = inr html
      /\ retry_loop E net url options remaining attempt lastErr
         = (failed_attempts url (retryBackoffMs options) attempt failures
              ++ [EvGet url (attempt + failures)],
            Returns html))
  \/ (remaining = 0
      /\ retry_loop E net url options remaining attempt lastErr
         = ([], Throws lastErr))
  \/ (exists n e_last,
        remaining = S n
        /\ (forall k, attempt <= k <= retries options ->
              exists e, try_attempt E (net url options k) = inl e)
        /\ try_attempt E (net url options (retries options)) = inl e_last
        /\ retry_loop E net url options remaining attempt lastErr
           = (failed_attempts url (retryBackoffMs options) attempt n
                ++ [EvGet url (retries options)],
              Throws (Some e_last))).
Proof.
  revert attempt lastErr.
  induction remaining as [|n IH]; intros attempt lastErr Hsum.
  { right. left. done. }
  destruct (try_attempt E (net url options attempt)) as [e|html] eqn:Htry.
  - destruct (IH (S attempt) (Some e) ltac:(lia))
      as [(failures & html & Hle & Hfail & Hok & Hrun)
         |[[-> Hrun]|(m & e_last & -> & Hfail & Hlast & Hrun)]].
    + left. exists (S failures), html.
      replace (attempt + S failures) with (S attempt + failures) by lia.
      repeat apply conj; [lia| |done|].
      * intros k Hk. destruct (decide (k = attempt)) as [->|Hne]; [eauto|].
        apply Hfail. lia.
      * rewrite retry_loop_S, Htry, Hrun.
        assert (Hlt : (attempt <? retries options) = true)
          by (apply Nat.ltb_lt; lia).
        by rewrite Hlt.
    + right. right. exists 0, e.
      assert (Heq : attempt = retries options) by lia.
      repeat apply conj; [done| |by rewrite <- Heq|].
      * intros k Hk. assert (k = attempt) as -> by lia. eauto.
      * rewrite retry_loop_S, Htry, Hrun, <- Heq.
        by rewrite Nat.ltb_irrefl.
    + right. right. exists (S m), e_last.
      repeat apply conj; [done| |done|].
      * intros k Hk. destruct (decide (k = attempt)) as [->|Hne]; [eauto|].
        apply Hfail. lia.
      * rewrite retry_loop_S, Htry, Hrun.
        assert (Hlt : (attempt <? retries options) = true)
          by (apply Nat.ltb_lt; lia).
        by rewrite Hlt.
  - left. exists 0, html. rewrite Nat.add_0_r.
    repeat apply conj; [lia| |done|].
    + intros k Hk. lia.
    + by rewrite retry_loop_S, Htry.
Qed.

Lemma try_attempt_inr o html :
  try_attempt E o = inr html ->
  exists status, o = FetchResolves true status (inr html).
Proof.
  destruct o as [e|[|] status [e|text]]; simpl; try done.
  intros [= ->]. by exists status.
Qed.

End FetchRuns.


(** ** Extraction: one record per id *)

Lemma filter_seen_NoDup seen jobs :
  NoDup (Job.id <$> filter_seen seen jobs).
Proof.
  revert seen. induction jobs as [|a jobs IH]; intros seen; simpl.
  - constructor.
  - destruct (negb (is_empty (Job.id a))
              && negb (bool_decide (Job.id a ∈ seen))); [|apply IH].
    rewrite fmap_cons. constructor; [|apply IH].
    intros (j & Hid & Hj)%list_elem_of_fmap.
    apply filter_seen_elem in Hj as (_ & _ & Hnew).
    apply Hnew, elem_of_union. right. rewrite <- Hid. by apply elem_of_singleton.
Qed.

Lemma filter_seen_sublist seen jobs : sublist (filter_seen seen jobs) jobs.
Proof.
  revert seen. induction jobs as [|a jobs IH]; intros seen; simpl.
  - constructor.
  - destruct (negb (is_empty (Job.id a))
              && negb (bool_decide (Job.id a ∈ seen)));
      [apply sublist_skip|apply sublist_cons]; apply IH.
Qed.

Lemma filter_seen_complete seen jobs j :
  j ∈ jobs -> Job.id j <> [] -> Job.id j ∉ seen ->
  Job.id j ∈ Job.id <$> filter_seen seen jobs.
Proof.
  revert seen. induction jobs as [|a jobs IH]; intros seen; simpl.
  - by intros ?%elem_of_nil.
  - intros Hin Hne Hnew.
    destruct (negb (is_empty (Job.id a))
              && negb (bool_decide (Job.id a ∈ seen))) eqn:Hkeep.
    + rewrite fmap_cons.
      destruct (decide (Job.id j = Job.id a)) as [->|Hother]; [by left|].
      right. apply elem_of_cons in Hin as [->|Hin]; [done|].
      apply IH; [done|done|].
      intros [?|?%elem_of_singleton]%elem_of_union; done.
    + apply elem_of_cons in Hin as [->|Hin]; [|by apply IH].
      apply andb_false_iff in Hkeep as [Hk|Hk]; apply negb_false_iff in Hk.
      * by destruct (Job.id a).
      * by apply bool_decide_eq_true in Hk.
Qed.

Lemma filter_seen_first seen jobs j :
  j ∈ filter_seen seen jobs ->
  exists pre post, jobs = pre ++ j :: post /\ Job.id j ∉ Job.id <$> pre.
Proof.
  revert seen. induction jobs as [|a jobs IH]; intros seen; simpl.
  - by intros ?%elem_of_nil.
  - destruct (negb (is_empty (Job.id a))
              && negb (bool_decide (Job.id a ∈ seen))) eqn:Hkeep.
    + intros [->|Hin]%elem_of_cons.
      * exists [], jobs. split; [done|]. by intros ?%elem_of_nil.
      * destruct (filter_seen_elem _ _ _ Hin) as (_ & _ & Hnew).
        destruct (IH _ Hin) as (pre & post & -> & Hpre).
        exists (a :: pre), post. split; [done|].
        rewrite fmap_cons. intros [Heq|?]%elem_of_cons; [|done].
        apply Hnew, elem_of_union. right. by apply elem_of_singleton.
    + intros Hin.
      destruct (filter_seen_elem _ _ _ Hin) as (_ & Hne & Hnew).
      destruct (IH _ Hin) as (pre & post & -> & Hpre).
      exists (a :: pre), post. split; [done|].
      rewrite fmap_cons. intros [Heq|?]%elem_of_cons; [|done].
      apply andb_false_iff in Hkeep as [Hk|Hk]; apply negb_false_iff in Hk.
      * rewrite Heq in Hne. by destruct (Job.id a).
      * apply bool_decide_eq_true in Hk. by rewrite Heq in Hnew.
Qed.

Lemma omap_length_le {A B} (f : A -> option B) (l : list A) :
  length (omap f l) <= length l.
Proof.
  induction l as [|a l IH]; csimpl; [done|]. destruct (f a); simpl; lia.
Qed.

(** X5.  The records of a page come in card order, no two of them with the
    same id; every card that has a job link is represented by a record of
    its id; and of the cards that share an id it is the first whose record
    is kept. *)
Theorem extractJobsFromHtml_one_record_per_id (html sourceUrl : jsstring) :
  NoDup (Job.id <$> extractJobsFromHtml html sourceUrl)
  /\ sublist (extractJobsFromHtml html sourceUrl)
             (omap (fun c => job_of_card c sourceUrl) (cheerio_cards html))
  /\ length (extractJobsFromHtml html sourceUrl)
     <= length (cheerio_cards html)
  /\ (forall c j,
        c ∈ cheerio_cards html -> job_of_card c sourceUrl = Some j ->
        Job.id j ∈ Job.id <$> extractJobsFromHtml html sourceUrl)
  /\ (forall j,
        j ∈ extractJobsFromHtml html sourceUrl ->
        exists pre post,
          omap (fun c => job_of_card c sourceUrl) (cheerio_cards html)
          = pre ++ j :: post
          /\ Job.id j ∉ Job.id <$> pre).
Proof.
  unfold extractJobsFromHtml. repeat apply conj.
  - apply filter_seen_NoDup.
  - apply filter_seen_sublist.
  - etrans; [apply sublist_length, filter_seen_sublist|].
    apply omap_length_le.
  - intros c j Hc Hj. apply filter_seen_complete.
    + apply list_elem_of_omap. eauto.
    + by destruct (job_of_card_id _ _ _ Hj) as (_ & _ & ?).
    + by intros ?%elem_of_empty.
  - intros j. apply filter_seen_first.
Qed.

(** ** Extraction: what every record satisfies *)

Lemma normalizeSpace_fixed_tags texts t :
  t ∈ List.filter (fun s => negb (is_empty s))
        ((fun s => normalizeSpace (Some s)) <$> texts) ->
  t <> [] /\ normalizeSpace (Some t) = t.
Proof.
  intros Ht. apply list_elem_of_In, filter_In in Ht as [Ht Hne].
  apply list_elem_of_In, list_elem_of_fmap in Ht as (s & -> & _).
  split; [|apply normalizeSpace_idem].
  intros Heq. by rewrite Heq in Hne.
Qed.

Lemma stripTrailingNew_fixed s :
  normalizeSpace (Some (stripTrailingNew s)) = stripTrailingNew s.
Proof. unfold stripTrailingNew. apply normalizeSpace_idem. Qed.


(** ** The index over a run *)

Lemma upsertIndex_lookup_same (indexObj : index) (job : Job.t)
    (ts : jsstring) :
  fst (upsertIndex indexObj job ts) !! Job.id job
  = Some (mkEntry job
            (from_option created_at ts (indexObj !! Job.id job)) ts).
Proof.
  unfold upsertIndex.
  destruct (indexObj !! Job.id job); simpl; by rewrite lookup_insert_eq.
Qed.

Lemma upsertMany_app (indexObj : index)
    (l1 l2 : list (Job.t * jsstring)) :
  upsertMany indexObj (l1 ++ l2) = upsertMany (upsertMany indexObj l1) l2.
Proof. unfold upsertMany. apply foldl_app. Qed.

Lemma upsertMany_cons (indexObj : index) (o : Job.t * jsstring)
    (l : list (Job.t * jsstring)) :
  upsertMany indexObj (o :: l)
  = upsertMany (fst (upsertIndex indexObj (fst o) (snd o))) l.
Proof. done. Qed.

Lemma upsertMany_created_at (observations : list (Job.t * jsstring))
    (indexObj : index) (k : jsstring) (e : entry) :
  indexObj !! k = Some e ->
  exists e', upsertMany indexObj observations !! k = Some e'
             /\ created_at e' = created_at e.
Proof.
  revert indexObj e.
  induction observations as [|[job ts] obs IH]; intros indexObj e He.
  - by exists e.
  - rewrite upsertMany_cons. cbn [fst snd].
    destruct (decide (k = Job.id job)) as [->|Hne].
    + destruct (IH (fst (upsertIndex indexObj job ts))
                  (mkEntry job (created_at e) ts)) as (e' & He' & Hc).
      { by rewrite upsertIndex_lookup_same, He. }
      by exists e'.
    + apply IH. by rewrite upsertIndex_lookup_other.
Qed.

Lemma upsertMany_keyed (observations : list (Job.t * jsstring))
    (indexObj : index) :
  (forall k e, indexObj !! k = Some e -> Job.id (e_job e) = k) ->
  forall k e, upsertMany indexObj observations !! k = Some e ->
              Job.id (e_job e) = k.
Proof.
  revert indexObj.
  induction observations as [|[job ts] obs IH]; intros indexObj Hinv;
    [done|].
  rewrite upsertMany_cons. cbn [fst snd]. apply IH. intros k e.
  destruct (decide (k = Job.id job)) as [->|Hne].
  - rewrite upsertIndex_lookup_same. by intros [= <-].
  - rewrite upsertIndex_lookup_other by done. apply Hinv.
Qed.

(** The entry of an id after a run whose last observation of the id is
    [(job, ts)]. *)
Lemma upsertMany_last (indexObj : index)
    (pre post : list (Job.t * jsstring)) (job : Job.t) (ts : jsstring) :
  Job.id job ∉ (fun o => Job.id (fst o)) <$> post ->
  upsertMany indexObj (pre ++ (job, ts) :: post) !! Job.id job
  = Some (mkEntry job
            (from_option created_at ts
               (upsertMany indexObj pre !! Job.id job)) ts).
Proof.
  intros Hpost. rewrite upsertMany_app, upsertMany_cons. cbn [fst snd].
  rewrite upsertMany_lookup_other by done.
  apply upsertIndex_lookup_same.
Qed.


(** ** Merging a page twice *)

Lemma upsertAll_upsertMany (indexObj : index) (jobs : list Job.t)
    (ts : jsstring) :
  upsertAll indexObj jobs ts
  = upsertMany indexObj ((fun j => (j, ts)) <$> jobs).
Proof.
  unfold upsertAll, upsertMany. revert indexObj.
  induction jobs as [|j jobs IH]; intros indexObj; [done|].
  simpl. apply IH.
Qed.

Lemma observation_ids (jobs : list Job.t) (ts : jsstring) :
  (fun o : Job.t * jsstring => Job.id (fst o)) <$> ((fun j => (j, ts)) <$> jobs)
  = Job.id <$> jobs.
Proof. rewrite <- list_fmap_compose. done. Qed.

(** Some record of a list is the last one of its id. *)
Lemma last_of_id (jobs : list Job.t) (k : jsstring) :
  k ∈ Job.id <$> jobs ->
  exists pre j post,
    jobs = pre ++ j :: post /\ Job.id j = k /\ k ∉ Job.id <$> post.
Proof.
  induction jobs as [|a jobs IH]; [by intros ?%elem_of_nil|].
  rewrite fmap_cons. intros Hin.
  destruct (decide (k ∈ Job.id <$> jobs)) as [Hlater|Hlast].
  - destruct (IH Hlater) as (pre & j & post & -> & Hid & Hpost).
    by exists (a :: pre), j, post.
  - apply elem_of_cons in Hin as [->|Hin]; [|done].
    by exists [], a, jobs.
Qed.

Lemma upsertAll_lookup_last (indexObj : index) (pre post : list Job.t)
    (j : Job.t) (ts : jsstring) :
  Job.id j ∉ Job.id <$> post ->
  upsertAll indexObj (pre ++ j :: post) ts !! Job.id j
  = Some (mkEntry j
            (from_option created_at ts
               (upsertAll indexObj pre ts !! Job.id j)) ts).
Proof.
  intros Hpost. rewrite !upsertAll_upsertMany, fmap_app, fmap_cons.
  apply upsertMany_last. by rewrite observation_ids.
Qed.

Lemma upsertAll_lookup_other (indexObj : index) (jobs : list Job.t)
    (ts k : jsstring) :
  k ∉ Job.id <$> jobs -> upsertAll indexObj jobs ts !! k = indexObj !! k.
Proof.
  intros Hk. rewrite upsertAll_upsertMany.
  apply upsertMany_lookup_other. by rewrite observation_ids.
Qed.

Lemma upsertAll_created_at (indexObj : index) (jobs : list Job.t)
    (ts k : jsstring) (e : entry) :
  indexObj !! k = Some e ->
  exists e', upsertAll indexObj jobs ts !! k = Some e'
             /\ created_at e' = created_at e.
Proof. rewrite upsertAll_upsertMany. apply upsertMany_created_at. Qed.

(** The entries of a page merged into an index that may already hold
    it. *)
Lemma upsertAll_again (indexObj : index) (jobs : list Job.t)
    (ts ts2 k : jsstring) (e : entry) :
  upsertAll indexObj jobs ts !! k = Some e ->
  upsertAll (upsertAll indexObj jobs ts) jobs ts2 !! k
  = Some (if bool_decide (k ∈ Job.id <$> jobs)
          then mkEntry (e_job e) (created_at e) ts2 else e).
Proof.
  intros He. case_bool_decide as Hk.
  - destruct (last_of_id _ _ Hk) as (pre & j & post & -> & <- & Hpost).
    rewrite upsertAll_lookup_last in He by done. injection He as <-.
    rewrite upsertAll_lookup_last by done. cbn [e_job created_at].
    set (merged := upsertAll indexObj (pre ++ j :: post) ts).
    assert (Hm : merged !! Job.id j
                 = Some (mkEntry j
                           (from_option created_at ts
                              (upsertAll indexObj pre ts !! Job.id j)) ts))
      by (by apply upsertAll_lookup_last).
    destruct (upsertAll_created_at merged pre ts2 _ _ Hm) as (e' & -> & Hc).
    simpl. by rewrite Hc.
  - by rewrite upsertAll_lookup_other.
Qed.

(** X8.  Merging a page a second time with the same timestamp leaves the
    index as it is.  Merging it again later changes nothing but the
    [updated_at] of the ids on the page: records, [created_at] and the set
    of ids stay, and so do the entries of all other ids. *)
Theorem upsertAll_twice (indexObj : index) (jobs : list Job.t)
    (ts : jsstring) :
  upsertAll (upsertAll indexObj jobs ts) jobs ts = upsertAll indexObj jobs ts
  /\ (forall ts2,
        dom (upsertAll (upsertAll indexObj jobs ts) jobs ts2)
        = dom (upsertAll indexObj jobs ts))
  /\ (forall ts2 k e,
        upsertAll indexObj jobs ts !! k = Some e ->
        upsertAll (upsertAll indexObj jobs ts) jobs ts2 !! k
        = Some (if bool_decide (k ∈ Job.id <$> jobs)
                then mkEntry (e_job e) (created_at e) ts2 else e)).
Proof.
  assert (Hdom : forall ts2,
            dom (upsertAll (upsertAll indexObj jobs ts) jobs ts2)
            = dom (upsertAll indexObj jobs ts)).
  { intros ts2. rewrite !upsertAll_dom. union_members. }
  repeat apply conj; [|done|].
  - apply map_eq. intros k.
    destruct (upsertAll indexObj jobs ts !! k) as [e|] eqn:He.
    + rewrite (upsertAll_again _ _ _ _ _ _ He).
      case_bool_decide as Hk; [|done].
      destruct (last_of_id _ _ Hk) as (pre & j & post & -> & <- & Hpost).
      rewrite upsertAll_lookup_last in He by done. by injection He as <-.
    + apply not_elem_of_dom. rewrite Hdom. by apply not_elem_of_dom.
  - intros ts2 k e. apply upsertAll_again.
Qed.

(** ** An index after a page *)

Lemma upsertAll_NoDup_lookup (indexObj : index) (jobs : list Job.t)
    (ts : jsstring) (j : Job.t) :
  NoDup (Job.id <$> jobs) -> j ∈ jobs ->
  upsertAll indexObj jobs ts !! Job.id j
  = Some (mkEntry j (from_option created_at ts (indexObj !! Job.id j)) ts).
Proof.
  intros Hnd Hj. apply list_elem_of_split in Hj as (pre & post & ->).
  rewrite fmap_app, fmap_cons in Hnd.
  apply NoDup_app in Hnd as (_ & Hpre & Hpost).
  apply NoDup_cons in Hpost as [Hpost _].
  rewrite upsertAll_lookup_last by done.
  rewrite upsertAll_lookup_other; [done|].
  intros Hin. apply (Hpre _ Hin). by left.
Qed.


(** ** The stop policy: what the decision depends on *)

Lemma existsb_Permutation {A : Type} (p : A -> bool) (l l' : list A) :
  l ≡ₚ l' -> existsb p l = existsb p l'.
Proof.
  intros Hperm. apply eq_true_iff_eq. rewrite !existsb_elem_of.
  split; intros (x & Hx & Hp); exists x; split; try done.
  - by rewrite <- Hperm.
  - by rewrite Hperm.
Qed.

Lemma Math_max_gt_Permutation (args args' : list jsnum) (m : jsnum) :
  args ≡ₚ args' ->
  js_gt (Math_max args) m = js_gt (Math_max args') m.
Proof.
  intros Hperm. apply eq_true_iff_eq. rewrite !Math_max_gt.
  split; intros (a & Ha & Hall & Hgt); exists a.
  - split; [by rewrite <- Hperm|]. split; [|done].
    intros b Hb. apply Hall. by rewrite Hperm.
  - split; [by rewrite Hperm|]. split; [|done].
    intros b Hb. apply Hall. by rewrite <- Hperm.
Qed.

Lemma js_gt_NaN_r a : js_gt a JNaN = false.
Proof. by destruct a. Qed.

Lemma js_gt_le_r a m m' :
  js_gt a m = true -> js_le m' m = true -> js_gt a m' = true.
Proof. jsnum_order. Qed.

(** The policy in a mode other than today. *)
Lemma computeStopForMode_other mode jobs maxAgeDays :
  mode <> js "today" ->
  computeStopForMode mode jobs maxAgeDays
  = if (length jobs =? 0)%nat then mkStop true (js "no_cards")
    else if js_gt (Math_max (omap Job.posted_age_days jobs)) maxAgeDays
         then mkStop true
                (js "older_than_"
                   ++ number_to_string other_number_to_string maxAgeDays)
         else mkStop false [].
Proof.
  intros Hmode. unfold computeStopForMode.
  rewrite bool_decide_eq_false_2 by done.
  destruct (length jobs =? 0)%nat; [done|].
  destruct (omap Job.posted_age_days jobs) as [|a ages]; [|done].
  cbn. by destruct maxAgeDays.
Qed.

(** X10.  The stop decision.  A page without records stops the crawl in
    every mode.  The reason is empty exactly when the crawl goes on.  Every
    mode but today is treated as all.  The decision depends on the records
    of the page, not on their order.  In mode today the age limit plays no
    part; in the other modes a lower limit never turns a stop into a
    continue, and a limit that is NaN never stops a page that has
    records. *)
Theorem computeStopForMode_decision (mode : jsstring) (jobs : list Job.t)
    (maxAgeDays : jsnum) :
  computeStopForMode mode [] maxAgeDays = mkStop true (js "no_cards")
  /\ (stop (computeStopForMode mode jobs maxAgeDays) = false
      <-> reason (computeStopForMode mode jobs maxAgeDays) = [])
  /\ (mode <> js "today" ->
      computeStopForMode mode jobs maxAgeDays
      = computeStopForMode (js "all") jobs maxAgeDays)
  /\ (forall jobs', jobs ≡ₚ jobs' ->
        computeStopForMode mode jobs maxAgeDays
        = computeStopForMode mode jobs' maxAgeDays)
  /\ (forall limit,
        computeStopForMode (js "today") jobs limit
        = computeStopForMode (js "today") jobs maxAgeDays)
  /\ (forall lower,
        mode <> js "today" ->
        js_le lower maxAgeDays = true ->
        stop (computeStopForMode mode jobs maxAgeDays) = true ->
        stop (computeStopForMode mode jobs lower) = true)
  /\ (mode <> js "today" -> jobs <> [] ->
      stop (computeStopForMode mode jobs JNaN) = false).
Proof.
  split; [done|]. split.
  { unfold computeStopForMode.
    destruct (length jobs =? 0)%nat; [done|].
    case_bool_decide.
    - by destruct (existsb is_recent jobs).
    - destruct (length (omap Job.posted_age_days jobs) =? 0)%nat; [done|].
      by destruct (js_gt _ _). }
  repeat apply conj.
  - intros Hmode. rewrite (computeStopForMode_other mode) by done.
    by rewrite (computeStopForMode_other (js "all")) by (by vm_compute).
  - intros jobs' Hperm.
    destruct (decide (mode = js "today")) as [->|Hmode].
    + unfold computeStopForMode.
      rewrite <- (Permutation_length Hperm).
      by rewrite (existsb_Permutation _ _ _ Hperm).
    + rewrite !computeStopForMode_other by done.
      rewrite <- (Permutation_length Hperm).
      by rewrite (Math_max_gt_Permutation _ _ _ (omap_Permutation _ _ _ Hperm)).
  - done.
  - intros lower Hmode Hle. rewrite !computeStopForMode_other by done.
    destruct (length jobs =? 0)%nat; [done|].
    destruct (js_gt _ maxAgeDays) eqn:Hgt; [|done].
    intros _. by rewrite (js_gt_le_r _ _ _ Hgt Hle).
  - intros Hmode Hjobs. rewrite computeStopForMode_other by done.
    destruct jobs; [done|]. by rewrite js_gt_NaN_r.
Qed.

(** ** The label of what_they_do *)

Lemma startsWith_ci_iff p s :
  startsWith_ci p s = true
  <-> exists l d, s = l ++ d /\ lower_ascii <$> l = lower_ascii <$> p.
Proof.
  revert s. induction p as [|a p IH]; intros s.
  - split; [|done]. intros _. by exists [], s.
  - destruct s as [|c s].
    + split; [done|]. intros (l & d & Hs & Hl).
      symmetry in Hs. apply app_eq_nil in Hs as [-> _]. done.
    + rewrite startsWith_ci_cons, andb_true_iff, N.eqb_eq, IH. split.
      * intros (Hc & l & d & -> & Hl). exists (c :: l), d.
        split; [done|]. rewrite !fmap_cons. by rewrite Hl, Hc.
      * intros (l & d & Hs & Hl). destruct l as [|c' l]; [done|].
        rewrite !fmap_cons in Hl. injection Hl as Hc Hl.
        injection Hs as -> ->. split; [done|]. by exists l, d.
Qed.

(** A text that matches the label in some letter case ends in the colon
    and has no other. *)
Lemma label_shape l :
  lower_ascii <$> l = js "what they do:" ->
  exists l0, l = l0 ++ [colon] /\ (colon ∉ l0) /\ length l0 = 12.
Proof.
  intros Hl.
  assert (Hlen : length l = 13)
    by (rewrite <- (length_fmap lower_ascii), Hl; done).
  do 13 (destruct l as [|? l]; [done|]). destruct l; [|done]. clear Hlen.
  assert (Hp : js "what they do:"
               = [119; 104; 97; 116; 32; 116; 104; 101; 121; 32; 100; 111;
                  58]%N) by done.
  rewrite Hp in Hl. rewrite !fmap_cons in Hl.
  injection Hl as H0 H1 H2 H3 H4 H5 H6 H7 H8 H9 H10 H11 H12.
  assert (Hcolon : forall c x, lower_ascii c = x -> x <> 58%N -> c <> colon).
  { intros c x Hc Hx ->. by apply Hx. }
  assert (n11 = colon) as ->.
  { apply (lower_ascii_other 58 n11); [done|done|].
    apply N.eqb_eq. by rewrite H12. }
  eexists [_; _; _; _; _; _; _; _; _; _; _; _].
  split; [reflexivity|]. split; [|done].
  intros Hin.
  repeat (apply elem_of_cons in Hin as [Hin|Hin];
          [symmetry in Hin; revert Hin; by eapply Hcolon|]).
  by apply elem_of_nil in Hin.
Qed.

Lemma label_needs_colon s :
  startsWith_ci (js "what they do:") s = true -> s !! 12 = Some colon.
Proof.
  intros (l & d & -> & Hl)%startsWith_ci_iff.
  assert (Hlower : lower_ascii <$> js "what they do:" = js "what they do:")
    by done.
  rewrite Hlower in Hl.
  destruct (label_shape l Hl) as (l0 & -> & _ & Hlen).
  rewrite <- app_assoc, lookup_app_r by lia.
  by rewrite Hlen.
Qed.

Lemma strip_what_they_do_no_colon s :
  colon ∉ s -> strip_what_they_do s = s.
Proof.
  induction s as [|c s IH]; intros Hs; [done|].
  cbn [strip_what_they_do].
  destruct (startsWith_ci (js "what they do:") (c :: s)) eqn:Hm.
  - apply label_needs_colon in Hm. by apply list_elem_of_lookup_2 in Hm.
  - rewrite IH; [done|]. intros Hin. apply Hs. by right.
Qed.

Lemma strip_what_they_do_first pre l d :
  colon ∉ pre -> lower_ascii <$> l = js "what they do:" ->
  strip_what_they_do (pre ++ l ++ d) = pre ++ trimStart d.
Proof.
  intros Hpre Hl.
  destruct (label_shape l Hl) as (l0 & Hshape & Hl0 & Hlen).
  induction pre as [|c pre IH].
  - assert (Hm : startsWith_ci (js "what they do:") (l ++ d) = true).
    { apply startsWith_ci_iff. by exists l, d. }
    assert (Hlen' : length l = length (js "what they do:"))
      by (rewrite Hshape, length_app, Hlen; done).
    simpl app. destruct (l ++ d) as [|c s] eqn:Hs.
    { rewrite Hshape, <- app_assoc in Hs. by destruct l0. }
    cbn [strip_what_they_do]. rewrite Hm, <- Hs, <- Hlen'.
    by rewrite drop_app_length.
  - simpl app. cbn [strip_what_they_do].
    destruct (startsWith_ci (js "what they do:") (c :: pre ++ l ++ d))
      eqn:Hm.
    + apply label_needs_colon in Hm. exfalso.
      rewrite Hshape, <- app_assoc, app_comm_cons, app_assoc in Hm.
      rewrite lookup_app_l in Hm
        by (rewrite length_app; simpl; lia).
      apply list_elem_of_lookup_2 in Hm.
      apply elem_of_app in Hm as [Hm|Hm]; [by apply Hpre|by apply Hl0].
    + rewrite IH; [done|]. intros Hin. apply Hpre. by right.
Qed.

(** X17.  The label of [what_they_do].  When the text of the header
    parents reads the label what they do with its colon, in any letter
    case, after a text that has no colon, the field is that text and what
    follows the label, without the label and the whitespace after it.  A
    text that has no colon stays as it is, so a label written without its
    colon is kept in the field. *)
Theorem what_they_do_label_is_removed (c : card) (sourceUrl : jsstring)
    (j : Job.t) :
  job_of_card c sourceUrl = Some j ->
  (forall pre l d,
     what_they_do_text c = pre ++ l ++ d ->
     colon ∉ pre ->
     lower_ascii <$> l = js "what they do:" ->
     Job.what_they_do j = normalizeSpace (Some (pre ++ trimStart d)))
  /\ (colon ∉ what_they_do_text c ->
      Job.what_they_do j = normalizeSpace (Some (what_they_do_text c))).
Proof.
  intros Hj.
  destruct (job_of_card_fields _ _ _ Hj)
    as (_ & _ & _ & _ & _ & _ & _ & _ & _ & _ & _ & _ & _ & _ & Hwhat & _).
  split.
  - intros pre l d Htext Hpre Hl.
    by rewrite Hwhat, Htext, strip_what_they_do_first.
  - intros Hno. by rewrite Hwhat, strip_what_they_do_no_colon.
Qed.

(** ** The command line *)

Section CommandLineFacts.

Context (other_string_to_number : jsstring -> jsnum).

Local Abbreviation switch := (parseArgs_switch other_string_to_number).
Local Abbreviation step := (parseArgs_step other_string_to_number).

Lemma no_equals_sign (k : jsstring) :
  equals_sign ∉ k ->
  forallb (fun c => negb (c =? equals_sign)%N) k = true.
Proof.
  intros Hk. apply forallb_forall. intros c Hc%list_elem_of_In.
  apply negb_true_iff, N.eqb_neq. by intros ->.
Qed.

Lemma split_eq2_bare k : equals_sign ∉ k -> split_eq2 k = (k, None).
Proof.
  intros Hk%no_equals_sign. unfold split_eq2.
  destruct (take_while_app _ k [] Hk I) as [Ht Hd].
  rewrite app_nil_r in Ht, Hd. by rewrite Ht, Hd.
Qed.

Lemma split_eq2_value k v :
  equals_sign ∉ k -> equals_sign ∉ v ->
  split_eq2 (k ++ equals_sign :: v) = (k, Some v).
Proof.
  intros Hk%no_equals_sign Hv%no_equals_sign. unfold split_eq2.
  destruct (take_while_app _ k (equals_sign :: v) Hk eq_refl) as [-> ->].
  destruct (take_while_app _ v [] Hv I) as [Ht _].
  rewrite app_nil_r in Ht. by rewrite Ht.
Qed.

Lemma split_eq2_cut k v w :
  equals_sign ∉ k -> equals_sign ∉ v ->
  split_eq2 (k ++ equals_sign :: v ++ equals_sign :: w) = (k, Some v).
Proof.
  intros Hk%no_equals_sign Hv%no_equals_sign. unfold split_eq2.
  destruct (take_while_app _ k (equals_sign :: v ++ equals_sign :: w)
              Hk eq_refl) as [-> ->].
  by destruct (take_while_app _ v (equals_sign :: w) Hv eq_refl) as [-> _].
Qed.

Lemma step_dashes args s :
  step args (js "--" ++ s)
  = switch args (fst (split_eq2 s)) (default (js "true") (snd (split_eq2 s))).
Proof.
  unfold parseArgs_step.
  assert (Hdashes : js "--" = [45%N; 45%N]) by done. rewrite Hdashes.
  cbn [app startsWith drop]. rewrite !N.eqb_refl. simpl negb. cbn iota.
  rewrite drop_0. by destruct (split_eq2 s).
Qed.

Lemma step_flag_key args a :
  step args a
  = match flag_key a with
    | None => args
    | Some k =>
        switch args k (default (js "true") (snd (split_eq2 (drop 2 a))))
    end.
Proof.
  unfold parseArgs_step, flag_key.
  destruct (startsWith (js "--") a); [|done]. simpl negb. cbn iota.
  by destruct (split_eq2 (drop 2 a)).
Qed.

(** A literal that has no equals sign in it. *)
Ltac no_equals_in_literal :=
  let H := fresh in
  vm_compute; intros H;
  repeat (apply elem_of_cons in H as [H|H]; [done|]);
  by apply elem_of_nil in H.

(** The literal keys are distinct. *)
Ltac key_cases :=
  unfold parseArgs_switch;
  repeat case_bool_decide; subst;
  try done;
  repeat match goal with
         | H : js _ = js _ |- _ => by vm_compute in H
         | H : js _ <> js _ |- _ => by destruct H
         end.

Lemma switch_unknown args k v : k ∉ known_keys -> switch args k v = args.
Proof.
  intros Hk. unfold parseArgs_switch.
  repeat (rewrite bool_decide_eq_false_2;
          [|intros ->; apply Hk; unfold known_keys;
            repeat first [by left | right]]).
  done.
Qed.

Lemma step_not_known args a : is_known_flag a = false -> step args a = args.
Proof.
  rewrite step_flag_key. unfold is_known_flag.
  destruct (flag_key a) as [k|]; [|done].
  intros Hk%bool_decide_eq_false. by apply switch_unknown.
Qed.

Lemma switch_twice args k v v' :
  switch (switch args k v) k v' = switch args k v'.
Proof. key_cases. Qed.

Lemma switch_comm args k v k' v' :
  k <> k' ->
  switch (switch args k v) k' v' = switch (switch args k' v') k v.
Proof. intros Hne. key_cases. Qed.

Lemma foldl_step_known args l :
  foldl step args (List.filter is_known_flag l) = foldl step args l.
Proof.
  revert args. induction l as [|a l IH]; intros args; [done|].
  simpl. destruct (is_known_flag a) eqn:Ha; simpl; [apply IH|].
  by rewrite IH, (step_not_known args a).
Qed.

Lemma Math_max_one n :
  Math_max [JInt 1; n] = JNaN \/ js_le (JInt 1) (Math_max [JInt 1; n]) = true.
Proof.
  destruct n as [| | |q]; [by left|by right|by right|right].
  unfold Math_max. cbn [max_loop].
  change (js_gt (JInt 1) JNegInf) with true. cbn iota.
  destruct (js_gt (JFin q) (JInt 1)) eqn:Hgt; [|done].
  by apply js_gt_true_le.
Qed.

Lemma switch_keeps args k v :
  fetch_tuning (switch args k v) = fetch_tuning args
  /\ ((Args.commitEveryPages args = JNaN
       \/ js_le (JInt 1) (Args.commitEveryPages args) = true) ->
      Args.commitEveryPages (switch args k v) = JNaN
      \/ js_le (JInt 1) (Args.commitEveryPages (switch args k v)) = true)
  /\ (k <> js "mode" -> Args.mode (switch args k v) = Args.mode args)
  /\ (k = js "mode" -> Args.mode (switch args k v) = v).
Proof.
  unfold parseArgs_switch.
  repeat case_bool_decide; subst; repeat apply conj; try done.
  intros _. apply Math_max_one.
Qed.

Lemma foldl_step_keeps args l :
  fetch_tuning (foldl step args l) = fetch_tuning args
  /\ ((Args.commitEveryPages args = JNaN
       \/ js_le (JInt 1) (Args.commitEveryPages args) = true) ->
      Args.commitEveryPages (foldl step args l) = JNaN
      \/ js_le (JInt 1) (Args.commitEveryPages (foldl step args l)) = true)
  /\ (Args.mode (foldl step args l) = Args.mode args
      \/ exists a, a ∈ l /\ flag_key a = Some (js "mode")).
Proof.
  revert args. induction l as [|a l IH]; intros args.
  { split; [done|]. split; [done|]. by left. }
  simpl. destruct (IH (step args a)) as (Ht & Hc & Hm).
  assert (Hstep : fetch_tuning (step args a) = fetch_tuning args
            /\ ((Args.commitEveryPages args = JNaN
                 \/ js_le (JInt 1) (Args.commitEveryPages args) = true) ->
                Args.commitEveryPages (step args a) = JNaN
                \/ js_le (JInt 1) (Args.commitEveryPages (step args a))
                   = true)
            /\ (flag_key a <> Some (js "mode") ->
                Args.mode (step args a) = Args.mode args)).
  { rewrite step_flag_key. destruct (flag_key a) as [k|]; [|done].
    destruct (switch_keeps args k
                (default (js "true") (snd (split_eq2 (drop 2 a)))))
      as (? & ? & Hother & _).
    split; [done|]. split; [done|]. intros Hk. apply Hother. congruence. }
  destruct Hstep as (Ht' & Hc' & Hm').
  split; [congruence|]. split; [auto|].
  destruct Hm as [Hm|(b & Hb & Hk)]; [|right; exists b; split; [by right|done]].
  destruct (decide (flag_key a = Some (js "mode"))) as [Hk|Hk].
  - right. exists a. split; [by left|done].
  - left. rewrite Hm. by apply Hm'.
Qed.

(** X11.  What [parseArgs] returns.  Options that it returns have mode
    today or all; their user agent, timeout, number of attempts and backoff
    are those of [DEFAULTS], whatever the command line says; and their
    [commitEveryPages] is NaN or at least 1.  It throws only when a flag
    named mode was given, and the message quotes the mode that was set.
    Without arguments it returns [DEFAULTS]; and when the last argument is
    a mode flag, the value of that flag decides. *)
Theorem parseArgs_result (argv : list jsstring) :
  (forall args, parseArgs other_string_to_number argv = Parsed args ->
     (Args.mode args = js "today" \/ Args.mode args = js "all")
     /\ fetch_tuning args = fetch_tuning DEFAULTS
     /\ (Args.commitEveryPages args = JNaN
         \/ js_le (JInt 1) (Args.commitEveryPages args) = true))
  /\ (forall message,
        parseArgs other_string_to_number argv = ThrowsError message ->
        exists mode a,
          message = invalid_mode_message mode
          /\ mode <> js "today" /\ mode <> js "all"
          /\ a ∈ drop 2 argv /\ flag_key a = Some (js "mode"))
  /\ parseArgs other_string_to_number (take 2 argv) = Parsed DEFAULTS
  /\ (forall v,
        2 <= length argv -> equals_sign ∉ v ->
        parseArgs other_string_to_number (argv ++ [js "--mode=" ++ v])
        = if bool_decide (v = js "today" \/ v = js "all")
          then Parsed (Args.set_mode v (foldl step DEFAULTS (drop 2 argv)))
          else ThrowsError (invalid_mode_message v)).
Proof.
  destruct (foldl_step_keeps DEFAULTS (drop 2 argv)) as (Ht & Hc & Hm).
  repeat apply conj.
  - intros args. unfold parseArgs.
    repeat case_bool_decide; simpl; try done; intros [= <-];
      (split; [auto|]); (split; [done|]); apply Hc; by right.
  - intros message. unfold parseArgs.
    repeat case_bool_decide; simpl; try done. intros [= <-].
    destruct Hm as [Hm|(a & Ha & Hk)]; [by rewrite Hm in *|].
    by exists (Args.mode (foldl step DEFAULTS (drop 2 argv))), a.
  - unfold parseArgs. by rewrite drop_ge by (rewrite length_take; lia).
  - intros v Hlen Hv. unfold parseArgs.
    rewrite drop_app_le by done. rewrite foldl_snoc.
    change (js "--mode=" ++ v)
      with (js "--" ++ (js "mode" ++ equals_sign :: v)).
    rewrite step_dashes, split_eq2_value; [|no_equals_in_literal|done].
    cbn [fst snd default]. change (id v) with v.
    destruct (switch_keeps (foldl step DEFAULTS (drop 2 argv)) (js "mode") v)
      as (_ & _ & _ & Hmode).
    rewrite (Hmode eq_refl).
    assert (Hswitch : switch (foldl step DEFAULTS (drop 2 argv)) (js "mode") v
                      = Args.set_mode v (foldl step DEFAULTS (drop 2 argv)))
      by done.
    rewrite Hswitch. clear.
    repeat case_bool_decide; simpl; try done; tauto.
Qed.

(** X12.  How the command line is read.  The first two arguments, the
    arguments that do not start with two dashes and the flags with a key
    that has no case are ignored.  Of two flags with the same key the later
    one decides, and flags with different keys can be given in either
    order.  A flag without an equals sign gets the value true, and a value
    is cut at its first equals sign. *)
Theorem parseArgs_reads_flags (args : Args.t) :
  (forall argv,
     parseArgs other_string_to_number argv
     = parseArgs other_string_to_number
         (take 2 argv ++ List.filter is_known_flag (drop 2 argv)))
  /\ (forall node script node' script' rest,
        parseArgs other_string_to_number (node :: script :: rest)
        = parseArgs other_string_to_number (node' :: script' :: rest))
  /\ (forall a b, flag_key a = flag_key b ->
        step (step args a) b = step args b)
  /\ (forall a b, flag_key a <> flag_key b ->
        step (step args a) b = step (step args b) a)
  /\ (forall k, equals_sign ∉ k ->
        step args (js "--" ++ k) = step args (js "--" ++ k ++ js "=true"))
  /\ (forall k v w, equals_sign ∉ k -> equals_sign ∉ v ->
        step args (js "--" ++ k ++ equals_sign :: v ++ equals_sign :: w)
        = step args (js "--" ++ k ++ equals_sign :: v)).
Proof.
  repeat apply conj.
  - intros argv. unfold parseArgs.
    destruct (decide (2 <= length argv)) as [Hlen|Hlen].
    + rewrite drop_app_length' by (rewrite length_take; lia).
      by rewrite foldl_step_known.
    + rewrite (drop_ge argv) by lia. simpl. rewrite app_nil_r.
      by rewrite (drop_ge (take 2 argv)) by (rewrite length_take; lia).
  - done.
  - intros a b Hkey. rewrite !step_flag_key, <- Hkey.
    destruct (flag_key a) as [k|]; [|done]. apply switch_twice.
  - intros a b Hkey. rewrite !step_flag_key.
    destruct (flag_key a) as [k|], (flag_key b) as [k'|]; try done.
    apply switch_comm. congruence.
  - intros k Hk. rewrite !step_dashes, split_eq2_bare by done.
    change (js "=true") with (equals_sign :: js "true").
    rewrite split_eq2_value; [done|done|no_equals_in_literal].
  - intros k v w Hk Hv.
    by rewrite !step_dashes, split_eq2_cut, split_eq2_value.
Qed.

End CommandLineFacts.

(** ** The snapshot table *)

Section SnapshotFacts.

Context (Object_values : index -> list entry).
Context (JSON_stringify_strings : list jsstring -> jsstring).

Local Abbreviation cells := (csv_cells JSON_stringify_strings).
Local Abbreviation table :=
  (buildCsvRowsFromIndex Object_values JSON_stringify_strings).

Lemma buildCsvRowsFromIndex_csvLines indexObj :
  table indexObj = csvLines (csv_header :: (cells <$> Object_values indexObj)).
Proof.
  unfold buildCsvRowsFromIndex, csvLines. rewrite fmap_cons.
  assert (Hheader : csvEscape <$> csv_header = csv_header) by done.
  rewrite Hheader. by rewrite <- list_fmap_compose.
Qed.


End SnapshotFacts.

(** ** Files *)

Section FilesFacts.

Context {V : Type} (JSON_parse : jsstring -> option V).
Context (JSON_stringify : V -> jsstring).

Lemma tmp_path_fresh filePath hex : tmp_path filePath hex <> filePath.
Proof.
  unfold tmp_path. intros Heq. apply (f_equal length) in Heq.
  rewrite !length_app in Heq. simpl in Heq. lia.
Qed.

(** X14.  [writeJsonAtomic] replaces the file as a whole.  Its temporary
    file is never the target, so the target keeps its old text until the
    rename.  After the call the target holds the new JSON text, no file
    has the temporary name, and every other file is as before.  When the
    JSON text is not blank and parses back to the object,
    [readJsonIfExists] on the target returns the object, not the
    fallback. *)
Theorem writeJsonAtomic_replaces_the_file (fs : files)
    (filePath hex : jsstring) (obj : V) :
  tmp_path filePath hex <> filePath
  /\ writeFileSync fs (tmp_path filePath hex) (JSON_stringify obj)
       !! filePath = fs !! filePath
  /\ writeJsonAtomic V JSON_stringify fs filePath obj hex !! filePath
     = Some (JSON_stringify obj)
  /\ writeJsonAtomic V JSON_stringify fs filePath obj hex
       !! tmp_path filePath hex = None
  /\ (forall p, p <> filePath -> p <> tmp_path filePath hex ->
        writeJsonAtomic V JSON_stringify fs filePath obj hex !! p = fs !! p)
  /\ (forall fallback,
        JSON_parse (JSON_stringify obj) = Some obj ->
        trim (JSON_stringify obj) <> [] ->
        readJsonIfExists V JSON_parse
          (writeJsonAtomic V JSON_stringify fs filePath obj hex)
          filePath fallback
        = obj).
Proof.
  pose proof (tmp_path_fresh filePath hex) as Hfresh.
  assert (Hwrite :
            writeJsonAtomic V JSON_stringify fs filePath obj hex
            = <[filePath := JSON_stringify obj]>
                (delete (tmp_path filePath hex)
                   (<[tmp_path filePath hex := JSON_stringify obj]> fs))).
  { unfold writeJsonAtomic, renameSync, writeFileSync.
    by rewrite lookup_insert_eq. }
  assert (Htarget :
            writeJsonAtomic V JSON_stringify fs filePath obj hex !! filePath
            = Some (JSON_stringify obj))
    by (by rewrite Hwrite, lookup_insert_eq).
  repeat apply conj.
  - done.
  - unfold writeFileSync. by rewrite lookup_insert_ne.
  - done.
  - rewrite Hwrite, lookup_insert_ne by done. apply lookup_delete_eq.
  - intros p Hp Htmp.
    by rewrite Hwrite, lookup_insert_ne, lookup_delete_ne, lookup_insert_ne.
  - intros fallback Hparse Hblank. unfold readJsonIfExists.
    rewrite Htarget, Hparse.
    by destruct (trim (JSON_stringify obj)).
Qed.

End FilesFacts.

(** ** The crawl *)

Section MainFacts.

Context {E : Type}.
Context (net : nat -> jsstring -> fetch_options -> nat -> attempt_outcome E).
Context (nowIso : nat -> jsstring) (other_increment : Q -> jsnum).

Local Abbreviation loop := (main_loop E net nowIso other_increment).
Local Abbreviation iteration := (main_iteration E net nowIso).
Local Abbreviation nth_page := (page_at other_increment).
Local Abbreviation result_of := (page_result E net).
Local Abbreviation goes_on := (continues E net).
Local Abbreviation seen_on := (page_observations E net nowIso).
Local Abbreviation seen := (observations E net nowIso other_increment).

(** The effects of one kind in the parts of a run. *)
Lemma projections_app (a b : list main_effect) :
  sleeps (a ++ b) = sleeps a ++ sleeps b
  /\ events_written (a ++ b) = events_written a ++ events_written b
  /\ index_writes (a ++ b) = index_writes a ++ index_writes b
  /\ first_attempts (a ++ b) = first_attempts a ++ first_attempts b.
Proof. repeat apply conj; apply omap_app. Qed.

Lemma projections_log (line : jsstring) :
  sleeps [ConsoleLog line] = []
  /\ events_written [ConsoleLog line] = []
  /\ index_writes [ConsoleLog line] = []
  /\ first_attempts [ConsoleLog line] = [].
Proof. done. Qed.

Lemma projections_net (events : list fetch_event) :
  sleeps (Net <$> events) = []
  /\ events_written (Net <$> events) = []
  /\ index_writes (Net <$> events) = [].
Proof. induction events as [|ev events (? & ? & ?)]; by repeat apply conj. Qed.

Lemma projections_events ts (jobs : list Job.t) :
  sleeps (EventsWrite ts <$> jobs) = []
  /\ events_written (EventsWrite ts <$> jobs) = (fun j => (j, ts)) <$> jobs
  /\ index_writes (EventsWrite ts <$> jobs) = []
  /\ first_attempts (EventsWrite ts <$> jobs) = [].
Proof.
  induction jobs as [|j jobs (Hs & He & Hi & Hf)]; [done|].
  repeat apply conj; try done.
  rewrite !fmap_cons. unfold events_written in *. csimpl. by rewrite He.
Qed.

Lemma retry_loop_first_attempts (net0 : jsstring -> fetch_options -> nat
                                        -> attempt_outcome E)
    url options remaining attempt lastErr :
  1 <= attempt ->
  first_attempts
    (Net <$> fst (retry_loop E net0 url options remaining attempt lastErr))
  = match attempt, remaining with
    | 1, S _ => [url]
    | _, _ => []
    end.
Proof.
  revert attempt lastErr.
  induction remaining as [|r IH]; intros attempt lastErr Hattempt.
  { by destruct attempt as [|[|a]]. }
  rewrite retry_loop_S.
  destruct (try_attempt E (net0 url options attempt)) as [e|html].
  - specialize (IH (S attempt) (Some e) ltac:(lia)).
    destruct (retry_loop E net0 url options r (S attempt) (Some e))
      as [events result].
    cbn [fst] in *. rewrite fmap_cons, fmap_app.
    change (?x :: ?l ++ ?k) with ([x] ++ l ++ k).
    destruct (projections_app [Net (EvGet url attempt)]
                ((Net <$> (if (attempt <? retries options)%nat
                           then [EvSleep (retryBackoffMs options
                                            * N.of_nat attempt)]
                           else []))
                   ++ (Net <$> events))) as (_ & _ & _ & ->).
    destruct (projections_app
                (Net <$> (if (attempt <? retries options)%nat
                          then [EvSleep (retryBackoffMs options
                                           * N.of_nat attempt)]
                          else []))
                (Net <$> events)) as (_ & _ & _ & ->).
    rewrite IH.
    destruct attempt as [|[|a]]; [lia|..];
      by destruct (_ <? retries options)%nat.
  - by destruct attempt as [|[|a]].
Qed.

Lemma fetchWithRetry_first_attempts
    (net0 : jsstring -> fetch_options -> nat -> attempt_outcome E)
    url options :
  first_attempts (Net <$> fst (fetchWithRetry E net0 url options))
  = if (retries options =? 0)%nat then [] else [url].
Proof.
  unfold fetchWithRetry. rewrite retry_loop_first_attempts by done.
  by destruct (retries options).
Qed.

(** One pass through the body of the loop. *)
Lemma iteration_run args i page indexObj :
  exists effects,
    iteration args i page indexObj
    = (effects,
       match result_of args i page with
       | Throws lastErr => FetchThrows lastErr
       | Returns html =>
           PageDone (upsertMany indexObj (seen_on args i page))
             (computeStopForMode (Args.mode args)
                (extractJobsFromHtml html (Args.baseUrl args))
                (Args.maxAgeDays args))
       end)
    /\ sleeps effects = []
    /\ events_written effects = seen_on args i page
    /\ index_writes effects
       = match result_of args i page with
         | Throws _ => []
         | Returns _ => [upsertMany indexObj (seen_on args i page)]
         end
    /\ first_attempts effects
       = if (Args.retries args =? 0)%nat then []
         else [url_of_page (Args.baseUrl args) page].
Proof.
  unfold main_iteration, page_observations, page_jobs, page_result.
  pose proof (fetchWithRetry_first_attempts (net i)
                (url_of_page (Args.baseUrl args) page)
                (options_of_args args)) as Hfirst.
  destruct (fetchWithRetry E (net i)
              (url_of_page (Args.baseUrl args) page)
              (options_of_args args)) as [net_events [html|lastErr]].
  - cbn [fst snd] in *. eexists. split; [|repeat apply conj].
    + by rewrite upsertAll_upsertMany.
    + change (?x :: ?l ++ ?y :: ?k ++ ?m)
        with ([x] ++ l ++ [y] ++ k ++ m).
      repeat (rewrite (proj1 (projections_app _ _))).
      rewrite (proj1 (projections_net _)).
      by rewrite (proj1 (projections_events _ _)).
    + change (?x :: ?l ++ ?y :: ?k ++ ?m)
        with ([x] ++ l ++ [y] ++ k ++ m).
      repeat (rewrite (proj1 (proj2 (projections_app _ _)))).
      rewrite (proj1 (proj2 (projections_net _))).
      rewrite (proj1 (proj2 (projections_events _ _))).
      by rewrite app_nil_r.
    + change (?x :: ?l ++ ?y :: ?k ++ ?m)
        with ([x] ++ l ++ [y] ++ k ++ m).
      repeat (rewrite (proj1 (proj2 (proj2 (projections_app _ _))))).
      rewrite (proj2 (proj2 (projections_net _))).
      by rewrite (proj1 (proj2 (proj2 (projections_events _ _)))).
    + change (?x :: ?l ++ ?y :: ?k ++ ?m)
        with ([x] ++ l ++ [y] ++ k ++ m).
      repeat (rewrite (proj2 (proj2 (proj2 (projections_app _ _))))).
      rewrite Hfirst.
      rewrite (proj2 (proj2 (proj2 (projections_events _ _)))).
      by rewrite app_nil_r.
  - cbn [fst snd] in *. eexists. split; [done|].
    change (?x :: ?l) with ([x] ++ l).
    destruct (projections_app [ConsoleLog
                                 (js "Fetching: "
                                    ++ url_of_page (Args.baseUrl args) page)]
                (Net <$> net_events)) as (-> & -> & -> & ->).
    destruct (projections_net net_events) as (-> & -> & ->).
    by rewrite Hfirst.
Qed.

Lemma flat_map_seq_shift {A : Type} (f : nat -> list A) (a n : nat) :
  flat_map f (seq (S a) n) = flat_map (fun k => f (S k)) (seq a n).
Proof.
  revert a. induction n as [|n IH]; intros a; [done|].
  simpl. by rewrite IH.
Qed.

Lemma nth_page_S page k :
  nth_page (increment other_increment page) k = nth_page page (S k).
Proof. unfold page_at. by rewrite Nat.iter_succ_r. Qed.

Lemma seen_S args i page n :
  seen args i page (S n)
  = seen_on args i page
      ++ seen args (S i) (increment other_increment page) n.
Proof.
  unfold observations. rewrite <- cons_seq. cbn [flat_map].
  rewrite Nat.add_0_r. f_equal.
  rewrite flat_map_seq_shift.
  apply flat_map_ext. intros k.
  by rewrite nth_page_S, Nat.add_succ_r.
Qed.

(** A run whose first [n] pages say to go on, and whose next page does
    not. *)
Lemma main_loop_run n : forall fuel args i page indexObj,
  n < fuel ->
  (forall k, k < n -> goes_on args (i + k) (nth_page page k) = true) ->
  goes_on args (i + n) (nth_page page n) = false ->
  snd (loop fuel args i page indexObj)
  = match result_of args (i + n) (nth_page page n) with
    | Returns _ =>
        Break (upsertMany indexObj (seen args i page (S n))) (nth_page page n)
    | Throws lastErr => Rejects lastErr
    end
  /\ sleeps (fst (loop fuel args i page indexObj))
     = replicate n (Args.delayMs args)
  /\ events_written (fst (loop fuel args i page indexObj))
     = seen args i page (S n)
  /\ index_writes (fst (loop fuel args i page indexObj))
     = (fun k => upsertMany indexObj (seen args i page (S k)))
         <$> seq 0 (match result_of args (i + n) (nth_page page n) with
                    | Returns _ => S n
                    | Throws _ => n
                    end)
  /\ first_attempts (fst (loop fuel args i page indexObj))
     = if (Args.retries args =? 0)%nat then []
       else (fun k => url_of_page (Args.baseUrl args) (nth_page page k))
              <$> seq 0 (S n).
Proof.
  induction n as [|n IH]; intros fuel args i page indexObj Hfuel Hon Hoff.
  - destruct fuel as [|fuel]; [lia|]. cbn [main_loop].
    rewrite Nat.add_0_r in *. change (nth_page page 0) with page in *.
    destruct (iteration_run args i page indexObj)
      as (effects & -> & Hs & He & Hi & Hf).
    unfold continues, page_jobs in Hoff.
    assert (Hseen : seen args i page 1 = seen_on args i page).
    { unfold observations. simpl. by rewrite Nat.add_0_r, app_nil_r. }
    destruct (result_of args i page) as [html|lastErr] eqn:Hres.
    + apply negb_false_iff in Hoff. rewrite Hoff. cbn [fst snd].
      destruct (projections_app effects
                  [ConsoleLog
                     (js "Stop: "
                        ++ reason
                             (computeStopForMode (Args.mode args)
                                (extractJobsFromHtml html (Args.baseUrl args))
                                (Args.maxAgeDays args))
                        ++ js " (page="
                        ++ number_to_string other_number_to_string page
                        ++ js ")")]) as (-> & -> & -> & ->).
      destruct (projections_log
                  (js "Stop: "
                     ++ reason
                          (computeStopForMode (Args.mode args)
                             (extractJobsFromHtml html (Args.baseUrl args))
                             (Args.maxAgeDays args))
                     ++ js " (page="
                     ++ number_to_string other_number_to_string page
                     ++ js ")")) as (-> & -> & -> & ->).
      rewrite !app_nil_r, Hs, He, Hi, Hf. cbn [seq fmap list_fmap].
      rewrite Hseen. repeat apply conj; try done;
        by destruct (Args.retries args =? 0)%nat.
    + cbn [fst snd]. rewrite Hs, He, Hi, Hf. cbn [seq fmap list_fmap].
      rewrite Hseen. repeat apply conj; try done;
        by destruct (Args.retries args =? 0)%nat.
  - destruct fuel as [|fuel]; [lia|]. cbn [main_loop].
    destruct (iteration_run args i page indexObj)
      as (effects & -> & Hs & He & Hi & Hf).
    pose proof (Hon 0 ltac:(lia)) as Hfirst.
    rewrite Nat.add_0_r in Hfirst.
    change (nth_page page 0) with page in Hfirst.
    unfold continues, page_jobs in Hfirst.
    destruct (result_of args i page) as [html|lastErr] eqn:Hres; [|done].
    apply negb_true_iff in Hfirst. rewrite Hfirst.
    destruct (IH fuel args (S i) (increment other_increment page)
                (upsertMany indexObj (seen_on args i page)))
      as (Hr' & Hs' & He' & Hi' & Hf').
    { lia. }
    { intros k Hk. rewrite nth_page_S.
      replace (S i + k) with (i + S k) by lia. apply Hon. lia. }
    { rewrite nth_page_S. by replace (S i + n) with (i + S n) by lia. }
    rewrite nth_page_S in Hr', Hi'.
    replace (S i + n) with (i + S n) in Hr', Hi' by lia.
    destruct (loop fuel args (S i) (increment other_increment page)
                (upsertMany indexObj (seen_on args i page)))
      as [rest result].
    cbn [fst snd] in *.
    change (effects ++ Sleep (Args.delayMs args) :: rest)
      with (effects ++ [Sleep (Args.delayMs args)] ++ rest).
    destruct (projections_app effects
                ([Sleep (Args.delayMs args)] ++ rest)) as (-> & -> & -> & ->).
    destruct (projections_app [Sleep (Args.delayMs args)] rest)
      as (-> & -> & -> & ->).
    rewrite Hs, He, Hi, Hf, Hs', He', Hi', Hf', Hr'.
    assert (Hmerge : forall m,
              upsertMany (upsertMany indexObj (seen_on args i page))
                (seen args (S i) (increment other_increment page) m)
              = upsertMany indexObj (seen args i page (S m))).
    { intros m. by rewrite seen_S, upsertMany_app. }
    assert (Hwrites : forall m,
              [upsertMany indexObj (seen_on args i page)]
                ++ ((fun k =>
                       upsertMany
                         (upsertMany indexObj (seen_on args i page))
                         (seen args (S i) (increment other_increment page)
                            (S k))) <$> seq 0 m)
              = (fun k => upsertMany indexObj (seen args i page (S k)))
                  <$> seq 0 (S m)).
    { intros m. change (seq 0 (S m)) with (0 :: seq 1 m).
      rewrite fmap_cons, <- fmap_S_seq, <- list_fmap_compose.
      simpl app. f_equal.
      - unfold observations. simpl. by rewrite Nat.add_0_r, app_nil_r.
      - apply list_fmap_ext. intros ? k _. unfold compose. apply Hmerge. }
    repeat apply conj.
    + destruct (result_of args (i + S n) (nth_page page (S n))); [|done].
      by rewrite Hmerge.
    + done.
    + by rewrite (seen_S args i page (S n)).
    + destruct (result_of args (i + S n) (nth_page page (S n)));
        apply Hwrites.
    + destruct (Args.retries args =? 0)%nat; [done|].
      change (seq 0 (S (S n))) with (0 :: seq 1 (S n)).
      rewrite fmap_cons, <- fmap_S_seq, <- list_fmap_compose.
      cbn [app]. f_equal.
      apply list_fmap_ext. intros ? k _. unfold compose.
      by rewrite nth_page_S.
Qed.

(** A run whose pages all say to go on. *)
Lemma main_loop_running fuel : forall args i page indexObj,
  (forall k, k < fuel -> goes_on args (i + k) (nth_page page k) = true) ->
  snd (loop fuel args i page indexObj)
  = Running (upsertMany indexObj (seen args i page fuel))
            (nth_page page fuel)
  /\ sleeps (fst (loop fuel args i page indexObj))
     = replicate fuel (Args.delayMs args)
  /\ events_written (fst (loop fuel args i page indexObj))
     = seen args i page fuel.
Proof.
  induction fuel as [|fuel IH]; intros args i page indexObj Hon; [done|].
  cbn [main_loop].
  destruct (iteration_run args i page indexObj)
    as (effects & -> & Hs & He & Hi & Hf).
  pose proof (Hon 0 ltac:(lia)) as Hfirst.
  rewrite Nat.add_0_r in Hfirst.
  change (nth_page page 0) with page in Hfirst.
  unfold continues, page_jobs in Hfirst.
  destruct (result_of args i page) as [html|lastErr] eqn:Hres; [|done].
  apply negb_true_iff in Hfirst. rewrite Hfirst.
  destruct (IH args (S i) (increment other_increment page)
              (upsertMany indexObj (seen_on args i page)))
    as (Hr' & Hs' & He').
  { intros k Hk. rewrite nth_page_S.
    replace (S i + k) with (i + S k) by lia. apply Hon. lia. }
  rewrite nth_page_S in Hr'.
  destruct (loop fuel args (S i) (increment other_increment page)
              (upsertMany indexObj (seen_on args i page)))
    as [rest result].
  cbn [fst snd] in *.
  change (effects ++ Sleep (Args.delayMs args) :: rest)
    with (effects ++ [Sleep (Args.delayMs args)] ++ rest).
  destruct (projections_app effects
              ([Sleep (Args.delayMs args)] ++ rest)) as (-> & -> & _ & _).
  destruct (projections_app [Sleep (Args.delayMs args)] rest)
    as (-> & -> & _ & _).
  rewrite Hs, He, Hs', He', Hr'.
  repeat apply conj; [|done|by rewrite (seen_S args i page fuel)].
  by rewrite seen_S, upsertMany_app.
Qed.

Lemma Qred_inject_Z (z : Z) : Qred (inject_Z z) = inject_Z z.
Proof.
  unfold Qred, inject_Z.
  pose proof (Z.ggcd_gcd z 1) as Hg.
  pose proof (Z.ggcd_correct_divisors z 1) as Hd.
  destruct (Z.ggcd z 1) as [g [a b]]. cbn [fst snd] in *.
  rewrite Z.gcd_1_r in Hg. subst g. destruct Hd as [Ha Hb].
  assert (a = z) as -> by lia. assert (b = 1%Z) as -> by lia. done.
Qed.

Lemma increment_safe_integer (z : Z) :
  (Z.abs z < 2 ^ 53)%Z ->
  increment other_increment (JInt z) = JInt (z + 1).
Proof.
  intros Hz. unfold increment, JInt. rewrite Qred_inject_Z.
  cbn [inject_Z Qnum Qden]. rewrite Z.eqb_refl.
  apply Z.ltb_lt in Hz. by rewrite Hz.
Qed.

Lemma nth_page_safe_integer (z : Z) (k : nat) :
  (0 <= z)%Z -> (z + Z.of_nat k <= 2 ^ 53)%Z ->
  nth_page (JInt z) k = JInt (z + Z.of_nat k).
Proof.
  intros Hz. induction k as [|k IH]; intros Hk.
  - unfold page_at. simpl. by rewrite Z.add_0_r.
  - unfold page_at in *. rewrite Nat.iter_succ, IH by lia.
    rewrite increment_safe_integer by lia. f_equal. lia.
Qed.

Lemma nth_page_NaN (k : nat) : nth_page JNaN k = JNaN.
Proof.
  induction k as [|k IH]; [done|].
  unfold page_at in *. by rewrite Nat.iter_succ, IH.
Qed.

Lemma main_loop_ignores_commitEveryPages fuel : forall v args i page indexObj,
  loop fuel (Args.set_commitEveryPages v args) i page indexObj
  = loop fuel args i page indexObj.
Proof.
  induction fuel as [|fuel IH]; intros v args i page indexObj; [done|].
  cbn [main_loop].
  change (iteration (Args.set_commitEveryPages v args) i page indexObj)
    with (iteration args i page indexObj).
  destruct (iteration args i page indexObj) as [effects [lastErr|idx' info]];
    [done|].
  destruct (stop info); [done|].
  rewrite IH. done.
Qed.



End MainFacts.

End Scrape.

Arguments Rejection {E} e.
Arguments HttpError {E} status.
Arguments FetchRejects {E} e.
Arguments FetchResolves {E} ok status text.
Arguments Returns {E} html.
Arguments Throws {E} lastErr.
Arguments FetchThrows {E} lastErr.
Arguments PageDone {E} indexObj stopInfo.
Arguments Break {E} indexObj page.
Arguments Rejects {E} lastErr.
Arguments Running {E} indexObj page.

(** * Concrete runs: witnesses and counterexamples *)

(** ** C1 *)

(** The theorem of C1 on the card of Acme, whose job link is /jobs/42. *)
Lemma extracted_id_is_normalized_link_witness :
  job_link_href card_acme = Some (js "/jobs/42")
  /\ (forall j,
        job_of_card no_case_tables card_acme (js "https://topstartups.io/jobs/")
          = Some j ->
        Job.id j = normalizeSpace (Some (js "/jobs/42"))
        /\ Job.id j = Job.job_url j
        /\ Job.id j <> []
        /\ (single_spaced (js "/jobs/42") = true ->
            Job.id j = trim (js "/jobs/42"))).
Proof.
  split; [reflexivity|].
  exact (proj1 (extracted_id_is_normalized_link no_case_tables
                  page_acme_twice card_acme
                  (js "https://topstartups.io/jobs/") (js "/jobs/42")
                  eq_refl)).
Defined.

(** C1 as stated fails on a link with two spaces in a row: the id has one
    space there, [trim] of the link has two. *)
Lemma extracted_id_is_not_trimmed_link :
  job_link_href (card_with_link (js "/jobs/a  b")) = Some (js "/jobs/a  b")
  /\ trim (js "/jobs/a  b") = js "/jobs/a  b"
  /\ (forall unicode_lower sourceUrl,
        Job.id <$> job_of_card unicode_lower
                     (card_with_link (js "/jobs/a  b")) sourceUrl
        = Some (js "/jobs/a b"))
  /\ js "/jobs/a b" <> trim (js "/jobs/a  b").
Proof.
  split; [reflexivity|]. split; [reflexivity|]. split; [|done].
  intros unicode_lower sourceUrl. reflexivity.
Qed.

(** ** C2 and C9 *)



(** ** C4 *)

(** The theorem of C4 on a page with ages 200, unknown and 7, with the
    default threshold 180. *)
Lemma stop_all_iff_oldest_exceeds_witness :
  [job_aged 1 (Some (JInt 200)); job_aged 2 None; job_aged 3 (Some (JInt 7))]
    <> []
  /\ (stop (computeStopForMode no_other_numbers (js "all")
              [job_aged 1 (Some (JInt 200)); job_aged 2 None;
               job_aged 3 (Some (JInt 7))] (JInt 180)) = true ->
      reason (computeStopForMode no_other_numbers (js "all")
                [job_aged 1 (Some (JInt 200)); job_aged 2 None;
                 job_aged 3 (Some (JInt 7))] (JInt 180))
      = js "older_than_"
          ++ number_to_string no_other_numbers (JInt 180)).
Proof.
  assert (Hne : [job_aged 1 (Some (JInt 200)); job_aged 2 None;
                 job_aged 3 (Some (JInt 7))] <> []) by discriminate.
  split; [exact Hne|].
  exact (proj1 (proj2 (proj2
           (stop_all_iff_oldest_exceeds no_other_numbers
              [job_aged 1 (Some (JInt 200)); job_aged 2 None;
               job_aged 3 (Some (JInt 7))] (JInt 180) Hne)))).
Defined.

(** ** C5 *)

(** The theorem of C5 on a text that reads 12 days. *)
Lemma parsePostedAgeDays_rules_witness :
  ~ contains (js "today")
      (toLowerCase no_case_tables
         (normalizeSpace (Some (js "Posted  12 Days ago"))))
  /\ first_count (js "day")
       (toLowerCase no_case_tables
          (normalizeSpace (Some (js "Posted  12 Days ago")))) (js "12")
  /\ (digits_value (js "12") < 2 ^ 53)%Z
  /\ parsePostedAgeDays no_case_tables (js "Posted  12 Days ago")
     = Some (JInt (digits_value (js "12"))).
Proof.
  assert (Hno : ~ contains (js "today")
                  (toLowerCase no_case_tables
                     (normalizeSpace (Some (js "Posted  12 Days ago"))))).
  { intros H%includes_contains. vm_compute in H. discriminate H. }
  assert (Hfirst : first_count (js "day")
                     (toLowerCase no_case_tables
                        (normalizeSpace (Some (js "Posted  12 Days ago"))))
                     (js "12")).
  { exact (match_count_spec (js "day")
             (toLowerCase no_case_tables
                (normalizeSpace (Some (js "Posted  12 Days ago"))))
             eq_refl). }
  assert (Hlt : (digits_value (js "12") < 2 ^ 53)%Z) by reflexivity.
  split; [exact Hno|]. split; [exact Hfirst|]. split; [exact Hlt|].
  exact (proj2 (proj1 (proj2
           (parsePostedAgeDays_rules no_case_tables
              (js "Posted  12 Days ago")))
           Hno (js "12") Hfirst) Hlt).
Defined.

(** C5 as stated fails on a number that no double holds: the text reads
    9007199254740993 days and the age is 9007199254740992. *)
Lemma parsePostedAgeDays_rounds_large_numbers :
  (forall unicode_lower,
     first_count (js "day")
       (toLowerCase unicode_lower
          (normalizeSpace (Some (js "9007199254740993 days ago"))))
       (js "9007199254740993")
     /\ parsePostedAgeDays unicode_lower (js "9007199254740993 days ago")
        = Some (JInt 9007199254740992))
  /\ digits_value (js "9007199254740993") = 9007199254740993%Z
  /\ JInt 9007199254740992 <> JInt 9007199254740993.
Proof.
  split; [|split; [reflexivity|discriminate]].
  intros unicode_lower. split; [|reflexivity].
  exact (match_count_spec (js "day")
           (toLowerCase unicode_lower
              (normalizeSpace (Some (js "9007199254740993 days ago"))))
           eq_refl).
Qed.

(** ** C6 and C7 *)



(** The theorem of C7 on the card of Acme: the location is normalised as
    it is, the company name loses the word New that ends it. *)
Lemma text_fields_are_normalized_witness :
  (forall j,
     job_of_card no_case_tables card_acme (js "https://topstartups.io/jobs/")
       = Some j ->
     Job.location j = unwords (words (js " Berlin,  Germany "))
     /\ Job.company j = unwords (words (js "Acme ")))
  /\ unwords (words (js " Berlin,  Germany ")) = js "Berlin, Germany"
  /\ is_Some (job_of_card no_case_tables card_acme
                (js "https://topstartups.io/jobs/")).
Proof.
  split; [|split; [reflexivity | by eexists]].
  intros j Hj.
  pose proof (text_fields_are_normalized no_case_tables card_acme
                (js "https://topstartups.io/jobs/") j Hj)
    as (Hlocation & _ & _ & _ & _ & _ & _ & _ & _ & _ & Hcompany & _).
  split; [exact Hlocation|].
  exact (Hcompany (js "Acme ") (js "New") eq_refl eq_refl eq_refl).
Defined.

(** C7 as stated fails on a company name that ends in New: the stored name
    is Acme, and collapsing and trimming alone would keep Acme New. *)
Lemma company_is_not_only_normalized :
  from_option a_text [] (company_link card_acme) = js "Acme New"
  /\ normalizeSpace (Some (js "Acme New")) = js "Acme New"
  /\ (forall unicode_lower sourceUrl,
        Job.company <$> job_of_card unicode_lower card_acme sourceUrl
        = Some (js "Acme"))
  /\ js "Acme" <> js "Acme New".
Proof.
  split; [reflexivity|]. split; [reflexivity|]. split; [|done].
  intros unicode_lower sourceUrl. reflexivity.
Qed.

(** ** C8 *)


(** ** C10 *)


(** ** Further properties *)

(** The theorem of X1 on a location: the text starts with the letter B,
    which is no whitespace. *)
Lemma normalizeSpace_canonical_witness :
  head (normalizeSpace (Some (js "  Berlin,   Germany "))) = Some 66%N
  /\ is_ws 66 = false.
Proof.
  split; [reflexivity|].
  exact (proj2 (proj2 (proj2 (proj2
           (normalizeSpace_canonical (Some (js "  Berlin,   Germany "))))))
           66%N (or_introl eq_refl)).
Defined.

(** The theorem of X3 on a posting date, in lower and in upper case. *)
Lemma parsePostedAgeDays_range_and_insensitivity_witness :
  parsePostedAgeDays no_case_tables (js "Posted 3 days ago")
    = Some (JInt 3)
  /\ (JInt 3 = JPosInf \/ exists z, (0 <= z)%Z /\ JInt 3 = JInt z)
  /\ parsePostedAgeDays no_case_tables (js "POSTED 3 DAYS AGO")
     = parsePostedAgeDays no_case_tables (js "Posted 3 days ago").
Proof.
  pose proof (parsePostedAgeDays_range_and_insensitivity no_case_tables
                (js "Posted 3 days ago")) as (Hrange & _ & Hcase).
  split; [reflexivity|]. split.
  - exact (Hrange (JInt 3) eq_refl).
  - exact (Hcase (js "POSTED 3 DAYS AGO") eq_refl eq_refl eq_refl).
Defined.

(** The theorem of X5 on a page that shows the card of Acme twice: one
    record, of the id of the card. *)
Lemma extractJobsFromHtml_one_record_per_id_witness :
  (card_acme ∈ page_acme_twice [])
  /\ job_of_card no_case_tables card_acme (js "https://topstartups.io/jobs/")
     = Some job_acme
  /\ Job.id job_acme
       ∈ Job.id <$> extractJobsFromHtml no_case_tables page_acme_twice []
                      (js "https://topstartups.io/jobs/")
  /\ extractJobsFromHtml no_case_tables page_acme_twice []
       (js "https://topstartups.io/jobs/") = [job_acme].
Proof.
  assert (Hcard : card_acme ∈ page_acme_twice []) by (by left).
  split; [exact Hcard|]. split; [reflexivity|]. split; [|by vm_compute].
  exact (proj1 (proj2 (proj2 (proj2
           (extractJobsFromHtml_one_record_per_id no_case_tables
              page_acme_twice [] (js "https://topstartups.io/jobs/")))))
           card_acme job_acme Hcard eq_refl).
Defined.



(** The theorem of X8 on a page merged at [ts1] and again at [ts2]. *)
Lemma upsertAll_twice_witness :
  upsertAll ∅ [job_acme] ts1 !! js "/jobs/42"
    = Some (mkEntry job_acme ts1 ts1)
  /\ upsertAll (upsertAll ∅ [job_acme] ts1) [job_acme] ts2 !! js "/jobs/42"
     = Some (mkEntry job_acme ts1 ts2).
Proof.
  assert (Hfirst : upsertAll ∅ [job_acme] ts1 !! js "/jobs/42"
                   = Some (mkEntry job_acme ts1 ts1)) by (by vm_compute).
  split; [exact Hfirst|].
  exact (proj2 (proj2 (upsertAll_twice ∅ [job_acme] ts1))
           ts2 (js "/jobs/42") (mkEntry job_acme ts1 ts1) Hfirst).
Defined.


(** The theorem of X10 on a page with a record of 200 days: it stops the
    crawl at the limit 180, so it does at the limit 90. *)
Lemma computeStopForMode_decision_witness :
  js "all" <> js "today"
  /\ js_le (JInt 90) (JInt 180) = true
  /\ stop (computeStopForMode no_other_numbers (js "all")
             [job_aged 1 (Some (JInt 200))] (JInt 180)) = true
  /\ stop (computeStopForMode no_other_numbers (js "all")
             [job_aged 1 (Some (JInt 200))] (JInt 90)) = true.
Proof.
  assert (Hmode : js "all" <> js "today") by discriminate.
  split; [exact Hmode|]. split; [reflexivity|]. split; [reflexivity|].
  exact (proj1 (proj2 (proj2 (proj2 (proj2 (proj2
           (computeStopForMode_decision no_other_numbers (js "all")
              [job_aged 1 (Some (JInt 200))] (JInt 180)))))))
           (JInt 90) Hmode eq_refl eq_refl).
Defined.

(** The theorem of X11 on a command line that ends in a mode flag. *)
Lemma parseArgs_result_witness :
  2 <= length argv_all_365
  /\ (equals_sign ∉ js "all")
  /\ parseArgs no_other_strings (argv_all_365 ++ [js "--mode=" ++ js "all"])
     = Parsed (Args.set_mode (js "all")
                 (Args.set_maxAgeDays (JInt 365) DEFAULTS)).
Proof.
  assert (Hlen : 2 <= length argv_all_365) by (simpl; lia).
  assert (Hall : equals_sign ∉ js "all").
  { intros Hin.
    repeat (apply elem_of_cons in Hin as [Hin|Hin]; [discriminate Hin|]).
    by apply elem_of_nil in Hin. }
  split; [exact Hlen|]. split; [exact Hall|].
  exact (proj2 (proj2 (proj2 (parseArgs_result no_other_strings
                                argv_all_365)))
           (js "all") Hlen Hall).
Defined.

(** The theorem of X12 on a base URL that has a query: the value is cut at
    its equals sign; and on the command line of the smoke test, whose flags
    have no case: the options are the defaults. *)
Lemma parseArgs_reads_flags_witness :
  (equals_sign ∉ js "baseUrl")
  /\ (equals_sign ∉ js "https://x.example/?a")
  /\ parseArgs no_other_strings
       [js "node"; js "scrape.js"; js "--max-pages"; js "1";
        js "--max-items"; js "50"]
     = Parsed DEFAULTS
  /\ parseArgs_step no_other_strings DEFAULTS
       (js "--" ++ js "baseUrl" ++ equals_sign :: js "https://x.example/?a"
          ++ equals_sign :: js "b")
     = parseArgs_step no_other_strings DEFAULTS
         (js "--" ++ js "baseUrl" ++ equals_sign :: js "https://x.example/?a")
  /\ Args.baseUrl
       (parseArgs_step no_other_strings DEFAULTS
          (js "--baseUrl=https://x.example/?a=b"))
     = js "https://x.example/?a".
Proof.
  assert (Hk : equals_sign ∉ js "baseUrl").
  { intros Hin.
    repeat (apply elem_of_cons in Hin as [Hin|Hin]; [discriminate Hin|]).
    by apply elem_of_nil in Hin. }
  assert (Hv : equals_sign ∉ js "https://x.example/?a").
  { intros Hin.
    repeat (apply elem_of_cons in Hin as [Hin|Hin]; [discriminate Hin|]).
    by apply elem_of_nil in Hin. }
  split; [exact Hk|]. split; [exact Hv|]. split; [|split; [|reflexivity]].
  - exact (eq_trans
             (proj1 (parseArgs_reads_flags no_other_strings DEFAULTS)
                [js "node"; js "scrape.js"; js "--max-pages"; js "1";
                 js "--max-items"; js "50"])
             eq_refl).
  - exact (proj2 (proj2 (proj2 (proj2 (proj2
             (parseArgs_reads_flags no_other_strings DEFAULTS)))))
             (js "baseUrl") (js "https://x.example/?a") (js "b") Hk Hv).
Defined.


(** The theorem of X14 on a store without files and values that are their
    own JSON text. *)
Lemma writeJsonAtomic_replaces_the_file_witness :
  trim (js "{}") <> []
  /\ readJsonIfExists jsstring Some
       (writeJsonAtomic jsstring id ∅ (js "out/index.json") (js "{}")
          (js "a1b2c3d4e5f6"))
       (js "out/index.json") (js "[]")
     = js "{}".
Proof.
  assert (Hblank : trim (js "{}") <> []) by discriminate.
  split; [exact Hblank|].
  exact (proj2 (proj2 (proj2 (proj2 (proj2
           (writeJsonAtomic_replaces_the_file Some id ∅
              (js "out/index.json") (js "a1b2c3d4e5f6") (js "{}"))))))
           (js "[]") eq_refl Hblank).
Defined.



(** The theorem of X17 on the card of Acme, whose header parent reads the
    label and then Anvils. *)
Lemma what_they_do_label_is_removed_witness :
  what_they_do_text no_case_tables card_acme
    = [] ++ js "What they do:" ++ js " Anvils"
  /\ (forall j,
        job_of_card no_case_tables card_acme (js "https://topstartups.io/jobs/")
          = Some j ->
        Job.what_they_do j
        = normalizeSpace (Some ([] ++ trimStart (js " Anvils"))))
  /\ is_Some (job_of_card no_case_tables card_acme
                (js "https://topstartups.io/jobs/")).
Proof.
  split; [reflexivity|]. split; [|by eexists].
  intros j Hj.
  refine (proj1 (what_they_do_label_is_removed no_case_tables card_acme
                   (js "https://topstartups.io/jobs/") j Hj)
            [] (js "What they do:") (js " Anvils") eq_refl _ eq_refl).
  intros Hin. by apply elem_of_nil in Hin.
Defined.
